(** * The caching and aggregation engine of the analytics service

    A shallow embedding of [src/question-1/src/services/dataService.ts]
    (class [DataService], its constructor included), of the handlers of
    [src/question-1/src/controllers/analyticsController.ts] and of the
    start-up callback of [src/question-1/src/index.ts], followed by the
    vocabulary of the properties and by the properties themselves.

    - JavaScript numbers that the code uses as integers are [Z], counts
      are [nat]; a number that may be [NaN] is [Js.number].
    - [Map<K,V>] is stdpp's [gmap]; the directory [Record<string,string>]
      is an association list kept in [Object.keys] order, because the
      ranking depends on that order.
    - The service's fields are the record [DataService]; every method
      threads a [World] (the fields, the number of [Date.now()] reads and
      the log of requests sent) and reads an [Env] (what the clock and the
      remote server answer, and in which order concurrent requests
      complete).  A thrown [Error] is the [Err] case of [Result].
    - An [async] method is split where it awaits its request, so that
      [Promise.all] can start all its callbacks before any answer
      arrives and then resume them in any order. *)

From stdpp Require Import gmap strings list fin_maps sorting.
From Stdlib Require Import ZArith Lia Ascii.

Local Open Scope Z_scope.

(** ** JavaScript built-ins used by the service *)

Module Js.

(** A number that is an integer or [NaN] (what [parseInt] returns). *)
Inductive number := NaN | Int (z : Z).

#[global] Instance number_eq_dec : EqDecision number.
Proof. solve_decision. Defined.

(** [NaN] as [None], for the instances below. *)
Definition number_to_option (n : number) : option Z :=
  match n with NaN => None | Int z => Some z end.
Definition number_of_option (o : option Z) : number :=
  match o with None => NaN | Some z => Int z end.

#[global] Instance number_countable : Countable number.
Proof.
  apply (inj_countable' number_to_option number_of_option).
  by intros [].
Defined.

(** [a !== b] on numbers: [NaN] differs from everything, itself included. *)
Definition strict_ne (a b : number) : bool :=
  match a, b with
  | Int x, Int y => negb (x =? y)
  | _, _ => true
  end.

(** The white space [parseInt] skips (the ASCII part of it). *)
Definition is_ws (c : ascii) : bool :=
  let n := nat_of_ascii c in
  ((n =? 32) || (n =? 9) || (n =? 10) || (n =? 11) || (n =? 12) || (n =? 13))%nat.

(** The value of a decimal digit. *)
Definition digit_val (c : ascii) : option Z :=
  let n := nat_of_ascii c in
  if ((48 <=? n) && (n <=? 57))%nat then Some (Z.of_nat n - 48) else None.

Fixpoint skip_ws (s : string) : string :=
  match s with
  | String c s' => if is_ws c then skip_ws s' else s
  | EmptyString => s
  end.

(** The longest prefix of decimal digits, as a number; [acc] is [NaN]
    until the first digit is read. *)
Fixpoint digits (s : string) (acc : number) : number :=
  match s with
  | String c s' =>
      match digit_val c with
      | Some d => digits s' (Int (10 * default 0 (number_to_option acc) + d))
      | None => acc
      end
  | EmptyString => acc
  end.

(** Unary minus. *)
Definition neg (n : number) : number :=
  match n with NaN => NaN | Int z => Int (- z) end.

(** [parseInt(s, 10)]: leading white space, an optional sign, then
    decimal digits; [NaN] when no digit follows.  The value is exact
    (the rounding of doubles above 2^53 is not modelled). *)
Definition parseInt (s : string) : number :=
  match skip_ws s with
  | String "-"%char s' => neg (digits s' NaN)
  | String "+"%char s' => digits s' NaN
  | s' => digits s' NaN
  end.

(** [ToIntegerOrInfinity] on an integer-or-NaN number. *)
Definition toInteger (n : number) : Z := default 0 (number_to_option n).

(** A relative index of [slice] clamped to [0, len]: a negative one
    counts from the end. *)
Definition clampIndex (len rel : Z) : Z :=
  if rel <? 0 then Z.max (len + rel) 0 else Z.min rel len.

(** [l.slice(start, end)]. *)
Definition slice {A} (l : list A) (start end_ : number) : list A :=
  let len := Z.of_nat (length l) in
  let k := clampIndex len (toInteger start) in
  let final := clampIndex len (toInteger end_) in
  take (Z.to_nat (Z.max (final - k) 0)) (drop (Z.to_nat k) l).

(** [Array.prototype.sort(cmp)] for a comparator of the form
    [(a, b) => key(b) - key(a)]: the specification requires a stable
    sort, and for such a comparator the stable result is unique; it is
    computed here by insertion from the right. *)
Section Sort.
Context {A : Type} (key : A → Z).

Fixpoint insertDesc (x : A) (l : list A) : list A :=
  match l with
  | [] => [x]
  | y :: l' => if key x <? key y then y :: insertDesc x l' else x :: l
  end.

Fixpoint sortDesc (l : list A) : list A :=
  match l with
  | [] => []
  | x :: l' => insertDesc x (sortDesc l')
  end.
End Sort.

End Js.

(** ** Types ([src/unnamed/part_000], second part) *)

Module Post.
Record t := mk {
  id : Z;
  userid : Z;
  content : string;
  timestamp : option Z   (* [timestamp?: number] *)
}.
#[global] Instance eq_dec : EqDecision t.
Proof. solve_decision. Defined.
End Post.

Module Comment.
Record t := mk {
  id : Z;
  postid : Z;
  content : string
}.
#[global] Instance eq_dec : EqDecision t.
Proof. solve_decision. Defined.
End Comment.

Module TopUser.
Record t := mk {
  id : string;
  name : string;
  postCount : nat
}.
#[global] Instance eq_dec : EqDecision t.
Proof. solve_decision. Defined.
End TopUser.

(** [Record<string, string>] as the list of its properties in the order
    [Object.keys] enumerates them.  A list with a repeated key stands
    for the object obtained by assigning its bindings in turn: the key
    stays where it first appeared and the last value wins. *)
Module Directory.
Definition t := list (string * string).

(** [Object.keys(o)]. *)
Definition keys (o : t) : list string := reverse (remove_dups (reverse (o.*1))).

(** [o[k]], for a key of [o] (the empty string stands for [undefined]). *)
Definition prop (o : t) (k : string) : string :=
  foldl (λ acc kv, if decide (kv.1 = k) then kv.2 else acc) "" o.
End Directory.

(** ** Requests, failures and the environment *)

(** The URLs the service requests. *)
Inductive Request :=
| GetUsers                       (* [${baseUrl}/users] *)
| GetUserPosts (userId : string) (* [${baseUrl}/users/${userId}/posts] *)
| GetPostComments (postId : Z)   (* [${baseUrl}/posts/${postId}/comments] *)
| GetPosts.                      (* [${baseUrl}/posts] *)

#[global] Instance Request_eq_dec : EqDecision Request.
Proof. solve_decision. Defined.

(** The [Error]s the service throws. *)
Inductive Error :=
| FailedToFetchUsers
| FailedToFetchPosts (userId : string)
| FailedToFetchComments (postId : Z)
| FailedToFetchData (req : Request).  (* what a failed request itself throws *)

(** The outcome of a call: a value, or a thrown [Error]. *)
Inductive Result (A : Type) :=
| Ok (a : A)
| Err (e : Error).
Arguments Ok {A} a.
Arguments Err {A} e.

(** What the outside world answers.  The [n]-th request sent (counting
    from 0) gets the answer of the matching endpoint at [n]; [None] is a
    transport failure ([makeAuthorizedRequest] throws).  [sched n] is the
    order in which the requests of the [Promise.all] that started when
    [n] requests had been sent complete. *)
Record Env := {
  clock : nat → Z;
  usersEndpoint : nat → option Directory.t;
  postsEndpoint : nat → string → option (list Post.t);
  commentsEndpoint : nat → Z → option (list Comment.t);
  allPostsEndpoint : nat → bool;
  sched : nat → list nat
}.

(** ** The service's state *)

(** The private fields of the class (lines 9-26). *)
Record DataService := {
  baseUrl : string;
  token : string;
  usersCache : Directory.t;
  postsCache : gmap Js.number (list Post.t);
  commentsCache : gmap Z (list Comment.t);
  userPostCountCache : gmap string nat;
  postCommentCountCache : gmap Z nat;
  allPostsCache : list Post.t;
  lastUsersFetch : Z;
  lastPostsFetch : gmap Js.number Z;
  lastCommentsFetch : gmap Z Z
}.

(** [cacheTTL] (line 26), in milliseconds. *)
Definition cacheTTL : Z := 30 * 1000.

(** The state the constructor leaves. *)
Definition initial (url tok : string) : DataService := {|
  baseUrl := url; token := tok;
  usersCache := [];
  postsCache := ∅; commentsCache := ∅;
  userPostCountCache := ∅; postCommentCountCache := ∅;
  allPostsCache := [];
  lastUsersFetch := 0;
  lastPostsFetch := ∅; lastCommentsFetch := ∅
|}.

(** [v || d] for an environment variable [v]: unset and empty both give
    [d]. *)
Definition orDefault (v : option string) (d : string) : string :=
  match v with
  | None => d
  | Some "" => d
  | Some s => s
  end.

(** The constructor (lines 28-39), from [process.env.TEST_SERVER_URL]
    and [process.env.BEARER_TOKEN]; the fields keep their initialisers
    of lines 13-26. *)
Definition construct (TEST_SERVER_URL BEARER_TOKEN : option string) : DataService :=
  initial (orDefault TEST_SERVER_URL "http://20.244.56.144/test")
          (orDefault BEARER_TOKEN "").

(** What a call threads through: the service, the clock reads and the
    requests sent. *)
Record World := {
  svc : DataService;
  ticks : nat;             (* [Date.now()] reads so far *)
  log : list Request       (* requests sent so far, oldest first *)
}.

(** The world with the service replaced. *)
Definition withSvc (s : DataService) (w : World) : World :=
  {| svc := s; ticks := ticks w; log := log w |}.

(** [Date.now()]. *)
Definition dateNow (e : Env) (w : World) : Z * World :=
  (clock e (ticks w), {| svc := svc w; ticks := S (ticks w); log := log w |}).

(** Sending a request: it is appended to the log. *)
Definition send (r : Request) (w : World) : World :=
  {| svc := svc w; ticks := ticks w; log := log w ++ [r] |}.

(** ** Asynchronous calls

    An [async] method runs synchronously up to its first [await] of a
    request.  [Settled r] is a call that finished without sending
    anything; [Pending req k] is a call that sent [req] and will run [k]
    on the state it finds when the answer arrives ([k] already holds the
    answer). *)
Inductive Started (Σ A : Type) :=
| Settled (r : Result A)
| Pending (req : Request) (k : Σ → Result A * Σ).
Arguments Settled {Σ A} r.
Arguments Pending {Σ A} req k.

(** [await] of one call with nothing else in flight. *)
Definition await {A} (st : Started DataService A * World) : Result A * World :=
  match st with
  | (Settled r, w) => (r, w)
  | (Pending _ k, w) => let '(r, s') := k (svc w) in (r, withSvc s' w)
  end.

(** ** The three cached lookups *)

(** [Object.keys(o).length > 0]. *)
Definition nonEmpty (o : Directory.t) : bool :=
  bool_decide (0 < length (Directory.keys o))%nat.

(** Lines 65-66: [usersCache = response.users; lastUsersFetch = currentTime]. *)
Definition storeUsers (users : Directory.t) (currentTime : Z) (s : DataService)
  : DataService := {|
  baseUrl := baseUrl s; token := token s;
  usersCache := users;
  postsCache := postsCache s; commentsCache := commentsCache s;
  userPostCountCache := userPostCountCache s;
  postCommentCountCache := postCommentCountCache s;
  allPostsCache := allPostsCache s;
  lastUsersFetch := currentTime;
  lastPostsFetch := lastPostsFetch s; lastCommentsFetch := lastCommentsFetch s
|}.

(** Lines 63-75: what [getUsers] does once its request is answered. *)
Definition getUsers_resume (currentTime : Z) (response : option Directory.t)
    (s : DataService) : Result Directory.t * DataService :=
  match response with
  | Some users =>
      let s' := storeUsers users currentTime s in (Ok (usersCache s'), s')
  | None =>
      if nonEmpty (usersCache s) then (Ok (usersCache s), s)
      else (Err FailedToFetchUsers, s)
  end.

(** Lines 56-64: [getUsers] up to the answer to its request. *)
Definition getUsers_start (e : Env) (w0 : World)
  : Started DataService Directory.t * World :=
  let '(currentTime, w) := dateNow e w0 in
  let s := svc w in
  if nonEmpty (usersCache s)
     && bool_decide (currentTime - lastUsersFetch s < cacheTTL)
  then (Settled (Ok (usersCache s)), w)
  else
    let response := usersEndpoint e (length (log w)) in
    (Pending GetUsers (getUsers_resume currentTime response), send GetUsers w).

(** [getUsers()] (lines 55-76). *)
Definition getUsers (e : Env) (w : World) : Result Directory.t * World :=
  await (getUsers_start e w).

(** [{...post, timestamp: currentTime}]. *)
Definition stamp (currentTime : Z) (post : Post.t) : Post.t :=
  Post.mk (Post.id post) (Post.userid post) (Post.content post) (Some currentTime).

(** Lines 98-105. *)
Definition storePosts (userId : string) (userIdNum : Js.number)
    (postsWithTimestamp : list Post.t) (currentTime : Z) (s : DataService)
  : DataService := {|
  baseUrl := baseUrl s; token := token s;
  usersCache := usersCache s;
  postsCache := <[userIdNum := postsWithTimestamp]> (postsCache s);
  commentsCache := commentsCache s;
  userPostCountCache :=
    <[userId := length postsWithTimestamp]> (userPostCountCache s);
  postCommentCountCache := postCommentCountCache s;
  allPostsCache :=
    filter (λ p, Js.strict_ne (Js.Int (Post.userid p)) userIdNum = true)
           (allPostsCache s)
    ++ postsWithTimestamp;
  lastUsersFetch := lastUsersFetch s;
  lastPostsFetch := <[userIdNum := currentTime]> (lastPostsFetch s);
  lastCommentsFetch := lastCommentsFetch s
|}.

(** [m.has(k)]. *)
Definition has `{Countable K} {V} (m : gmap K V) (k : K) : bool :=
  bool_decide (is_Some (m !! k)).

(** Lines 89-115: what [getUserPosts] does once its request is answered. *)
Definition getUserPosts_resume (userId : string) (userIdNum : Js.number)
    (currentTime : Z) (response : option (list Post.t)) (s : DataService)
  : Result (list Post.t) * DataService :=
  match response with
  | Some posts =>
      let postsWithTimestamp := stamp currentTime <$> posts in
      (Ok postsWithTimestamp,
       storePosts userId userIdNum postsWithTimestamp currentTime s)
  | None =>
      if has (postsCache s) userIdNum
      then (Ok (default [] (postsCache s !! userIdNum)), s)
      else (Err (FailedToFetchPosts userId), s)
  end.

(** Lines 79-90: [getUserPosts] up to the answer to its request. *)
Definition getUserPosts_start (userId : string) (e : Env) (w0 : World)
  : Started DataService (list Post.t) * World :=
  let userIdNum := Js.parseInt userId in
  let '(currentTime, w) := dateNow e w0 in
  let s := svc w in
  if has (postsCache s) userIdNum
     && has (lastPostsFetch s) userIdNum
     && bool_decide (currentTime - default 0 (lastPostsFetch s !! userIdNum) < cacheTTL)
  then (Settled (Ok (default [] (postsCache s !! userIdNum))), w)
  else
    let response := postsEndpoint e (length (log w)) userId in
    (Pending (GetUserPosts userId)
             (getUserPosts_resume userId userIdNum currentTime response),
     send (GetUserPosts userId) w).

(** [getUserPosts(userId)] (lines 78-116). *)
Definition getUserPosts (userId : string) (e : Env) (w : World)
  : Result (list Post.t) * World :=
  await (getUserPosts_start userId e w).

(** Lines 130-134. *)
Definition storeComments (postId : Z) (comments : list Comment.t)
    (currentTime : Z) (s : DataService) : DataService := {|
  baseUrl := baseUrl s; token := token s;
  usersCache := usersCache s;
  postsCache := postsCache s;
  commentsCache := <[postId := comments]> (commentsCache s);
  userPostCountCache := userPostCountCache s;
  postCommentCountCache := <[postId := length comments]> (postCommentCountCache s);
  allPostsCache := allPostsCache s;
  lastUsersFetch := lastUsersFetch s;
  lastPostsFetch := lastPostsFetch s;
  lastCommentsFetch := <[postId := currentTime]> (lastCommentsFetch s)
|}.

(** Lines 128-144: what [getPostComments] does once its request is
    answered. *)
Definition getPostComments_resume (postId : Z) (currentTime : Z)
    (response : option (list Comment.t)) (s : DataService)
  : Result (list Comment.t) * DataService :=
  match response with
  | Some comments =>
      (Ok comments, storeComments postId comments currentTime s)
  | None =>
      if has (commentsCache s) postId
      then (Ok (default [] (commentsCache s !! postId)), s)
      else (Err (FailedToFetchComments postId), s)
  end.

(** Lines 119-129: [getPostComments] up to the answer to its request. *)
Definition getPostComments_start (postId : Z) (e : Env) (w0 : World)
  : Started DataService (list Comment.t) * World :=
  let '(currentTime, w) := dateNow e w0 in
  let s := svc w in
  if has (commentsCache s) postId
     && has (lastCommentsFetch s) postId
     && bool_decide (currentTime - default 0 (lastCommentsFetch s !! postId) < cacheTTL)
  then (Settled (Ok (default [] (commentsCache s !! postId))), w)
  else
    let response := commentsEndpoint e (length (log w)) postId in
    (Pending (GetPostComments postId)
             (getPostComments_resume postId currentTime response),
     send (GetPostComments postId) w).

(** [getPostComments(postId)] (lines 118-145). *)
Definition getPostComments (postId : Z) (e : Env) (w : World)
  : Result (list Comment.t) * World :=
  await (getPostComments_start postId e w).

(** ** [Promise.all]

    The callbacks of one [Promise.all] share the service and the local
    variables [L] they close over.  Every callback first runs up to its
    request, in array order ([startAll]); the answers then arrive in the
    order the environment chooses ([settle]), each continuation running
    on the state the earlier ones left.  The first rejection rejects the
    whole [Promise.all]: the caller resumes there, and what the calls
    still in flight would do later is outside the call. *)

(** A callback given to [Promise.all]: its synchronous part, which may
    read the clock, send a request and assign the local variables. *)
Definition Task (L A : Type) : Type :=
  Env → World → L → Started (DataService * L) A * World * L.

(** The synchronous parts of the callbacks, in array order. *)
Fixpoint startAll {L A} (tasks : list (Task L A)) (e : Env) (w : World) (l : L)
  : list (Started (DataService * L) A) * World * L :=
  match tasks with
  | [] => ([], w, l)
  | t :: ts =>
      let '(st, w1, l1) := t e w l in
      let '(sts, w2, l2) := startAll ts e w1 l1 in
      (st :: sts, w2, l2)
  end.

(** The answers arriving in [order]: the continuation of a pending slot
    runs when its index comes up; an index that is out of range or
    already settled is skipped. *)
Fixpoint settle {Σ A} (order : list nat) (slots : list (Started Σ A)) (σ : Σ)
  : option Error * list (Started Σ A) * Σ :=
  match order with
  | [] => (None, slots, σ)
  | i :: order' =>
      match slots !! i with
      | Some (Pending _ k) =>
          let '(r, σ') := k σ in
          match r with
          | Err m => (Some m, <[i := Settled r]> slots, σ')
          | Ok _ => settle order' (<[i := Settled r]> slots) σ'
          end
      | _ => settle order' slots σ
      end
  end.

(** A callback that threw before its first request. *)
Fixpoint firstRejected {Σ A} (slots : list (Started Σ A)) : option Error :=
  match slots with
  | [] => None
  | Settled (Err m) :: _ => Some m
  | _ :: slots' => firstRejected slots'
  end.

(** The values the [Promise.all] resolves with. *)
Fixpoint fulfilled {Σ A} (slots : list (Started Σ A)) : list A :=
  match slots with
  | [] => []
  | Settled (Ok a) :: slots' => a :: fulfilled slots'
  | _ :: slots' => fulfilled slots'
  end.

(** [await Promise.all(tasks)].  Every pending slot completes: the order
    the environment gives is followed by all the indices in turn. *)
Definition promiseAll {L A} (tasks : list (Task L A)) (e : Env) (w : World) (l : L)
  : Result (list A) * World * L :=
  let '(slots, w1, l1) := startAll tasks e w l in
  match firstRejected slots with
  | Some m => (Err m, w1, l1)
  | None =>
      let order := sched e (length (log w)) ++ seq 0 (length slots) in
      let '(rejected, slots', (s', l')) := settle order slots (svc w1, l1) in
      match rejected with
      | Some m => (Err m, withSvc s' w1, l')
      | None => (Ok (fulfilled slots'), withSvc s' w1, l')
      end
  end.

(** A continuation of the service run by a callback that has local
    variables and does nothing else. *)
Definition onService {L A} (k : DataService → Result A * DataService)
  : DataService * L → Result A * (DataService * L) :=
  λ '(s, l), let '(r, s') := k s in (r, (s', l)).

(** A service call used directly as a callback. *)
Definition plain {A} (call : Env → World → Started DataService A * World)
  : Task () A := λ e w l,
  match call e w with
  | (Settled r, w') => (Settled r, w', l)
  | (Pending req k, w') => (Pending req (onService k), w', l)
  end.

(** The rest of a callback of the shape
    [try { const x = await call; record(x) } catch { record(failure) }]:
    it never throws. *)
Definition thenRecord {L A} (record : Result A → L → L)
    (k : DataService → Result A * DataService)
  : DataService * L → Result () * (DataService * L) :=
  λ '(s, l), let '(r, s') := k s in (Ok (), (s', record r l)).

(** ** [getTopUsers] *)

(** The body of the callbacks of lines 161-169 and 177-185 after the
    [await]: [postCounts.set(userId, posts.length)], or
    [postCounts.set(userId, 0)] in the [catch]. *)
Definition recordCount (userId : string) (r : Result (list Post.t))
    (postCounts : gmap string nat) : gmap string nat :=
  match r with
  | Ok posts => <[userId := length posts]> postCounts
  | Err _ => <[userId := 0%nat]> postCounts
  end.

(** The callback of lines 161-169 and 177-185. *)
Definition countPosts (userId : string) : Task (gmap string nat) () :=
  λ e w postCounts,
  match getUserPosts_start userId e w with
  | (Settled r, w') => (Settled (Ok ()), w', recordCount userId r postCounts)
  | (Pending req k, w') =>
      (Pending req (thenRecord (recordCount userId) k), w', postCounts)
  end.

(** Lines 190-194. *)
Definition toTopUser (users : Directory.t) (postCounts : gmap string nat)
    (id : string) : TopUser.t :=
  TopUser.mk id (Directory.prop users id) (default 0%nat (postCounts !! id)).

(** The key of the comparator of line 195. *)
Definition postCountKey (u : TopUser.t) : Z := Z.of_nat (TopUser.postCount u).

(** Lines 153-186: the [postCounts] map the ranking is computed from. *)
Definition collectPostCounts (userIds : list string) (e : Env) (w : World)
  : Result (gmap string nat) * World :=
  let postCounts : gmap string nat := ∅ in
  if bool_decide (0 < size (userPostCountCache (svc w)))%nat then
    let missingUsers :=
      filter (λ id, has (userPostCountCache (svc w)) id = false) userIds in
    match promiseAll (countPosts <$> missingUsers) e w postCounts with
    | (Err m, w', _) => (Err m, w')
    | (Ok _, w', postCounts) =>
        (Ok (map_fold (λ userId count postCounts, <[userId := count]> postCounts)
                      postCounts (userPostCountCache (svc w'))),
         w')
    end
  else
    match promiseAll (countPosts <$> userIds) e w postCounts with
    | (Err m, w', _) => (Err m, w')
    | (Ok _, w', postCounts) => (Ok postCounts, w')
    end.

(** [getTopUsers(limit)] (lines 147-199). *)
Definition getTopUsers (limit : Js.number) (e : Env) (w : World)
  : Result (list TopUser.t) * World :=
  match getUsers e w with
  | (Err m, w1) => (Err m, w1)
  | (Ok users, w1) =>
      let userIds := Directory.keys users in
      match collectPostCounts userIds e w1 with
      | (Err m, w2) => (Err m, w2)
      | (Ok postCounts, w2) =>
          let topUsers :=
            Js.slice
              (Js.sortDesc postCountKey (toTopUser users postCounts <$> userIds))
              (Js.Int 0) limit in
          (Ok topUsers, w2)
      end
  end.

(** The default value of the parameter [limit] of [getTopUsers] and
    [getLatestPosts]. *)
Definition defaultLimit : Js.number := Js.Int 5.

(** ** [getPopularPosts] and [getLatestPosts] *)

(** Lines 207-209 and 259-261. *)
Definition ensureAllPosts (userIds : list string) (e : Env) (w : World)
  : Result () * World :=
  if bool_decide (length (allPostsCache (svc w)) = 0%nat) then
    match promiseAll (plain ∘ getUserPosts_start <$> userIds) e w () with
    | (Err m, w', _) => (Err m, w')
    | (Ok _, w', _) => (Ok (), w')
    end
  else (Ok (), w).

(** [postCommentCounts.set(post.id, comments.length)], or
    [postCommentCounts.set(post.id, 0)] in the [catch]. *)
Definition recordComments (postId : Z) (r : Result (list Comment.t))
    (postCommentCounts : gmap Z nat) : gmap Z nat :=
  match r with
  | Ok comments => <[postId := length comments]> postCommentCounts
  | Err _ => <[postId := 0%nat]> postCommentCounts
  end.

(** The callback of lines 221-234. *)
Definition countComments (post : Post.t) : Task (gmap Z nat) () :=
  λ e w postCommentCounts,
  let postId := Post.id post in
  if has (postCommentCountCache (svc w)) postId then
    (Settled (Ok ()), w,
     <[postId := default 0%nat (postCommentCountCache (svc w) !! postId)]>
       postCommentCounts)
  else
    match getPostComments_start postId e w with
    | (Settled r, w') =>
        (Settled (Ok ()), w', recordComments postId r postCommentCounts)
    | (Pending req k, w') =>
        (Pending req (thenRecord (recordComments postId) k), w', postCommentCounts)
    end.

(** Line 215. *)
Definition batchSize : nat := 10.

(** The loop of lines 219-235; [fuel] bounds the number of iterations
    ([batches_fuel] shows that [length allPosts] is always enough). *)
Fixpoint batches (fuel : nat) (i : nat) (allPosts : list Post.t)
    (e : Env) (w : World) (postCommentCounts : gmap Z nat)
  : Result () * World * gmap Z nat :=
  match fuel with
  | O => (Ok (), w, postCommentCounts)
  | S fuel' =>
      if bool_decide (i < length allPosts)%nat then
        let batch :=
          Js.slice allPosts (Js.Int (Z.of_nat i)) (Js.Int (Z.of_nat (i + batchSize))) in
        match promiseAll (countComments <$> batch) e w postCommentCounts with
        | (Err m, w', postCommentCounts) => (Err m, w', postCommentCounts)
        | (Ok _, w', postCommentCounts) =>
            batches fuel' (i + batchSize) allPosts e w' postCommentCounts
        end
      else (Ok (), w, postCommentCounts)
  end.

(** Lines 238-243. *)
Definition maxCount (postCommentCounts : gmap Z nat) : nat :=
  map_fold (λ _ count maxCommentCount,
              if bool_decide (maxCommentCount < count)%nat then count
              else maxCommentCount)
           0%nat postCommentCounts.

(** Lines 212-248, from the merged view on. *)
Definition popularAmong (e : Env) (w : World)
  : Result (gmap Z nat * list Post.t) * World :=
  let allPosts := allPostsCache (svc w) in
  match batches (length allPosts) 0 allPosts e w ∅ with
  | (Err m, w', _) => (Err m, w')
  | (Ok _, w', postCommentCounts) =>
      let maxCommentCount := maxCount postCommentCounts in
      let popularPosts :=
        filter (λ post, postCommentCounts !! Post.id post = Some maxCommentCount)
               (allPostsCache (svc w')) in
      (Ok (postCommentCounts, popularPosts), w')
  end.

(** [getPopularPosts()] (lines 201-251). *)
Definition getPopularPosts (e : Env) (w : World) : Result (list Post.t) * World :=
  match getUsers e w with
  | (Err m, w1) => (Err m, w1)
  | (Ok users, w1) =>
      let userIds := Directory.keys users in
      match ensureAllPosts userIds e w1 with
      | (Err m, w2) => (Err m, w2)
      | (Ok _, w2) =>
          match popularAmong e w2 with
          | (Err m, w3) => (Err m, w3)
          | (Ok (_, popularPosts), w3) => (Ok popularPosts, w3)
          end
      end
  end.

(** [(post.timestamp || 0)]. *)
Definition timestampKey (post : Post.t) : Z := default 0 (Post.timestamp post).

(** [getLatestPosts(limit)] (lines 253-269). *)
Definition getLatestPosts (limit : Js.number) (e : Env) (w : World)
  : Result (list Post.t) * World :=
  match getUsers e w with
  | (Err m, w1) => (Err m, w1)
  | (Ok users, w1) =>
      let userIds := Directory.keys users in
      match ensureAllPosts userIds e w1 with
      | (Err m, w2) => (Err m, w2)
      | (Ok _, w2) =>
          let latestPosts :=
            Js.slice (Js.sortDesc timestampKey (allPostsCache (svc w2)))
                     (Js.Int 0) limit in
          (Ok latestPosts, w2)
      end
  end.

(** ** [updateCache] *)

(** The [try] block of lines 272-304; [axios.get] is called directly and
    what it returns is not used. *)
Definition updateCacheBody (e : Env) (w : World) : Result () * World :=
  if bool_decide (baseUrl (svc w) = "") then (Ok (), w)
  else
    let w1 := send GetUsers w in
    match usersEndpoint e (length (log w)) with
    | None => (Err (FailedToFetchData GetUsers), w1)
    | Some usersResponse =>
        let w2 := send GetPosts w1 in
        if allPostsEndpoint e (length (log w1)) then (Ok (), w2)
        else (Err (FailedToFetchData GetPosts), w2)
    end.

(** [try { ... } catch (error) { console.error(...) }]. *)
Definition updateCache (e : Env) (w : World) : Result () * World :=
  match updateCacheBody e w with
  | (Ok _, w') => (Ok (), w')
  | (Err _, w') => (Ok (), w')
  end.

(** ** The handlers of the controller *)

Module Controller.

(** What the handler sends. *)
Inductive Response :=
| Users200 (users : list TopUser.t)   (* [res.status(200).json({users})] *)
| Error500 (error : string).          (* [res.status(500).json({error})] *)

(** [req.query.limit ? parseInt(req.query.limit, 10) : 5]; the query
    parameter is absent ([None]) or a string. *)
Definition limitOf (queryLimit : option string) : Js.number :=
  match queryLimit with
  | None => Js.Int 5
  | Some "" => Js.Int 5
  | Some s => Js.parseInt s
  end.

(** Lines 4-14. *)
Definition getTopUsers (queryLimit : option string) (e : Env) (w : World)
  : Response * World :=
  match getTopUsers (limitOf queryLimit) e w with
  | (Ok topUsers, w') => (Users200 topUsers, w')
  | (Err _, w') => (Error500 "Failed to fetch top users", w')
  end.

(** What [getPosts] sends. *)
Inductive PostsResponse :=
| Posts200 (posts : list Post.t)      (* [res.status(200).json({posts})] *)
| Invalid400 (error : string)         (* [res.status(400).json({error})] *)
| PostsError500 (error : string).     (* [res.status(500).json({error})] *)

(** A word between double quotes. *)
Definition quoted (s : string) : string :=
  String (ascii_of_nat 34) (s +:+ String (ascii_of_nat 34) EmptyString).

(** The message of line 27. *)
Definition invalidTypeMessage : string :=
  "Invalid post type. Use " +:+ quoted "popular" +:+ " or "
  +:+ quoted "latest" +:+ ".".

(** [req.query.type as string || 'latest']. *)
Definition typeOf (queryType : option string) : string :=
  match queryType with
  | None => "latest"
  | Some "" => "latest"
  | Some s => s
  end.

(** Lines 16-33; [getLatestPosts] is called without an argument. *)
Definition getPosts (queryType : option string) (e : Env) (w : World)
  : PostsResponse * World :=
  let type := typeOf queryType in
  if decide (type = "popular") then
    match getPopularPosts e w with
    | (Ok popularPosts, w') => (Posts200 popularPosts, w')
    | (Err _, w') => (PostsError500 "Failed to fetch posts", w')
    end
  else if decide (type = "latest") then
    match getLatestPosts defaultLimit e w with
    | (Ok latestPosts, w') => (Posts200 latestPosts, w')
    | (Err _, w') => (PostsError500 "Failed to fetch posts", w')
    end
  else (Invalid400 invalidTypeMessage, w).

End Controller.

(** ** Start-up ([src/question-1/src/index.ts]) *)

(** The world in which the service singleton has just been constructed
    (line 311 of [dataService.ts]). *)
Definition boot (TEST_SERVER_URL BEARER_TOKEN : option string) : World :=
  {| svc := construct TEST_SERVER_URL BEARER_TOKEN; ticks := 0; log := [] |}.

(** The callback of [app.listen] (lines 46-53): [updateCache()], whose
    outcome is only logged. *)
Definition listenCallback (e : Env) (w : World) : World :=
  match updateCache e w with
  | (Ok _, w') => w'
  | (Err _, w') => w'
  end.

(** * Vocabulary of the properties *)

(** ** Readings of the state and of the server *)

(** The world after one read of the clock and nothing else. *)
Definition tick (w : World) : World :=
  {| svc := svc w; ticks := S (ticks w); log := log w |}.

(** [now - storedAt < cacheTTL]. *)
Definition fresh (now storedAt : Z) : Prop := now - storedAt < cacheTTL.

(** The world a freshly constructed service starts in. *)
Definition start : World :=
  {| svc := initial "http://20.244.56.144/test" "secret"; ticks := 0; log := [] |}.

(** [b] may follow [a] in a list sorted by descending [key]. *)
Definition descending {A} (key : A → Z) (a b : A) : Prop := key b ≤ key a.

(** The server's answer to every request for the posts of [id]. *)
Definition answered (e : Env) (id : string) (posts : list Post.t) : Prop :=
  ∀ n, postsEndpoint e n id = Some posts.

(** Every request for the posts of [id] fails. *)
Definition unanswered (e : Env) (id : string) : Prop :=
  ∀ n, postsEndpoint e n id = None.

(** No other id of the list parses to the same number. *)
Definition numericallyUnique (ids : list string) (id : string) : Prop :=
  ∀ id', id' ∈ ids → Js.parseInt id' = Js.parseInt id → id' = id.

(** The ranking before it is cut: the directory's entries with their
    counts, sorted by descending count. *)
Definition ranking (users : Directory.t) (postCounts : gmap string nat)
  : list TopUser.t :=
  Js.sortDesc postCountKey (toTopUser users postCounts <$> Directory.keys users).

(** The number of posts of [id] as the service knows it in state [s]:
    the cached count, or, when nothing is cached for the id, the number
    of posts the server answers with. *)
Definition countOf (e : Env) (s : DataService) (id : string) (c : nat) : Prop :=
  userPostCountCache s !! id = Some c ∨
  (userPostCountCache s !! id = None ∧
   postsCache s !! Js.parseInt id = None ∧
   ∃ posts, answered e id posts ∧ c = length posts).

(** The largest value of [f] over a list, 0 for the empty list. *)
Definition maxOver {A} (f : A → nat) (l : list A) : nat :=
  foldr (λ a m, f a `max` m)%nat 0%nat l.

(** The count of a post in the local map, 0 when it has none. *)
Definition countIn (counts : gmap Z nat) (post : Post.t) : nat :=
  default 0%nat (counts !! Post.id post).

(** The posts of largest count. *)
Definition mostCommented (counts : gmap Z nat) (merged : list Post.t)
  : list Post.t :=
  filter (λ p, countIn counts p = maxOver (countIn counts) merged) merged.

(** The number of comments of a post as the service knows it in state
    [s]: the cached count, or, when nothing is cached for the post, the
    number of comments the server answers with, and 0 when the request
    fails. *)
Definition tertiaryCount (e : Env) (s : DataService) (postId : Z) (c : nat) : Prop :=
  postCommentCountCache s !! postId = Some c ∨
  (postCommentCountCache s !! postId = None ∧
   commentsCache s !! postId = None ∧
   ((∃ comments, (∀ n, commentsEndpoint e n postId = Some comments) ∧
                 c = length comments) ∨
    ((∀ n, commentsEndpoint e n postId = None) ∧ c = 0%nat))).

(** What identifies an entry of the merged view: its id and its owner. *)
Definition entryKey (p : Post.t) : Z * Z := (Post.id p, Post.userid p).

(** No two entries of the merged view have the same id and owner. *)
Definition noDuplicates (merged : list Post.t) : Prop :=
  NoDup (entryKey <$> merged).

(** The lookup of [id] that reads [now] on the clock is answered from
    the cache of [s]: the key of the id holds posts and a fetch time,
    and at [now] less than the TTL has passed since that time. *)
Definition servedFresh (now : Z) (s : DataService) (id : string) : Prop :=
  ∃ posts t,
    postsCache s !! Js.parseInt id = Some posts ∧
    lastPostsFetch s !! Js.parseInt id = Some t ∧
    fresh now t.

(** Merging an answer into the merged view: the entries whose owner is
    the number [n] are removed and the stamped posts are appended. *)
Definition mergeAnswer (n : Js.number) (stamped merged : list Post.t)
  : list Post.t :=
  filter (λ p, Js.Int (Post.userid p) ≠ n) merged ++ stamped.

(** What the arrival of the answer to the request of the lookup number
    [i] does to the merged view: an answer with posts is merged, stamped
    with the reading [t0 + i] of the clock that the lookup took; a failed
    request changes nothing. *)
Definition mergeArrival (e : Env) (ids : list string) (t0 : nat)
    (responses : nat → option (list Post.t)) (merged : list Post.t) (i : nat)
  : list Post.t :=
  match ids !! i with
  | Some id =>
      match responses i with
      | Some posts =>
          mergeAnswer (Js.parseInt id) (stamp (clock e (t0 + i)) <$> posts) merged
      | None => merged
      end
  | None => merged
  end.

(** What the arrival of the answer to the request of slot [i] does to
    the shared state. *)
Definition resumeAt {Σ A} (slots : list (Started Σ A)) (σ : Σ) (i : nat) : Σ :=
  match slots !! i with
  | Some (Pending _ k) => (k σ).2
  | _ => σ
  end.

(** A [limit] the specification accepts. *)
Definition positiveInteger (limit : Js.number) : Prop :=
  ∃ z, limit = Js.Int z ∧ 0 < z.

(** ** The slots of a [Promise.all] *)

(** The slot the callback of [userId] occupies after its synchronous
    part: settled from a cached value, or waiting for its request. *)
Definition postsSlot (e : Env) (s : DataService) (userId : string)
    (st : Started (DataService * gmap string nat) ()) : Prop :=
  (st = Settled (Ok ()) ∧ is_Some (postsCache s !! Js.parseInt userId)) ∨
  (∃ n t, st = Pending (GetUserPosts userId)
                 (thenRecord (recordCount userId)
                    (getUserPosts_resume userId (Js.parseInt userId) t
                       (postsEndpoint e n userId)))).

(** What a callback of [countComments] records without a request: the
    cached count, or the size of the cached comments. *)
Definition syncValue (s : DataService) (postId : Z) : nat :=
  match postCommentCountCache s !! postId with
  | Some c => c
  | None => length (default [] (commentsCache s !! postId))
  end.

(** The slot the callback of [post] occupies after its synchronous
    part. *)
Definition commentsSlot (e : Env) (s : DataService) (post : Post.t)
    (st : Started (DataService * gmap Z nat) ()) : Prop :=
  (st = Settled (Ok ()) ∧
   (is_Some (postCommentCountCache s !! Post.id post) ∨
    is_Some (commentsCache s !! Post.id post))) ∨
  (∃ n t, postCommentCountCache s !! Post.id post = None ∧
          st = Pending (GetPostComments (Post.id post))
                 (thenRecord (recordComments (Post.id post))
                    (getPostComments_resume (Post.id post) t
                       (commentsEndpoint e n (Post.id post))))).

(** The local map after the synchronous part of a batch. *)
Definition afterSync (s : DataService) (batch : list Post.t)
    (slots : list (Started (DataService * gmap Z nat) ()))
    (before after : gmap Z nat) : Prop :=
  (∀ j p, batch !! j = Some p → slots !! j = Some (Settled (Ok ())) →
          after !! Post.id p = Some (syncValue s (Post.id p))) ∧
  (∀ postId, after !! postId = before !! postId ∨
             (postId ∈ Post.id <$> batch ∧
              after !! postId = Some (syncValue s postId))).

(** ** Sample servers and worlds *)

(** The posts and the comments of the sample server: user 1 has three
    posts, user 2 has two, and four of these posts have comments. *)
Definition samplePosts (userId : string) : list Post.t :=
  if decide (userId = "1") then
    [Post.mk 11 1 "a" None; Post.mk 12 1 "b" None; Post.mk 13 1 "c" None]
  else if decide (userId = "2") then
    [Post.mk 21 2 "d" None; Post.mk 22 2 "e" None]
  else [].

Definition sampleComments (postId : Z) : list Comment.t :=
  if decide (postId = 12) then [Comment.mk 1 12 "x"; Comment.mk 2 12 "y"]
  else if decide (postId = 21) then [Comment.mk 3 21 "z"; Comment.mk 4 21 "t"]
  else if decide (postId = 11) then [Comment.mk 5 11 "u"]
  else [].

(** A server with three users, and a clock that advances by one
    millisecond per read; the answers arrive in the order of the
    requests. *)
Definition sampleEnv : Env := {|
  clock := λ n, 1000 + Z.of_nat n;
  usersEndpoint := λ _, Some [("1", "Alice"); ("2", "Bob"); ("3", "Carol")];
  postsEndpoint := λ _ userId, Some (samplePosts userId);
  commentsEndpoint := λ _ postId, Some (sampleComments postId);
  allPostsEndpoint := λ _, true;
  sched := λ _, []
|}.

(** A server that is down, a minute and a half later. *)
Definition downEnv : Env := {|
  clock := λ n, 100000 + Z.of_nat n;
  usersEndpoint := λ _, None;
  postsEndpoint := λ _ _, None;
  commentsEndpoint := λ _ _, None;
  allPostsEndpoint := λ _, false;
  sched := λ _, []
|}.

(** The sample server with the posts of user 2 and the comments of post
    12 unavailable. *)
Definition partialEnv : Env := {|
  clock := λ n, 1000 + Z.of_nat n;
  usersEndpoint := λ _, Some [("1", "Alice"); ("2", "Bob"); ("3", "Carol")];
  postsEndpoint := λ _ userId,
    if decide (userId = "2") then None else Some (samplePosts userId);
  commentsEndpoint := λ _ postId,
    if decide (postId = 12) then None else Some (sampleComments postId);
  allPostsEndpoint := λ _, true;
  sched := λ _, [1; 0]%nat
|}.

(** A server whose directory is empty, and a clock that advances by one
    millisecond per read. *)
Definition emptyDirectoryEnv : Env := {|
  clock := λ n, 1000 + Z.of_nat n;
  usersEndpoint := λ _, Some [];
  postsEndpoint := λ _ _, Some [];
  commentsEndpoint := λ _ _, Some [];
  allPostsEndpoint := λ _, true;
  sched := λ _, []
|}.

(** A server that answers the first request with an empty directory and
    then goes down. *)
Definition emptyThenDownEnv : Env := {|
  clock := λ n, 1000 + Z.of_nat n;
  usersEndpoint := λ n, match n with O => Some [] | S _ => None end;
  postsEndpoint := λ _ _, None;
  commentsEndpoint := λ _ _, None;
  allPostsEndpoint := λ _, false;
  sched := λ _, []
|}.

(** The server of the example: three users A, B and C with 3, 5 and 5
    posts. *)
Definition abcPosts (userId : string) : option (list Post.t) :=
  if decide (userId = "A") then Some (replicate 3 (Post.mk 1 1 "a" None))
  else if decide (userId = "B") then Some (replicate 5 (Post.mk 2 2 "b" None))
  else if decide (userId = "C") then Some (replicate 5 (Post.mk 3 3 "c" None))
  else None.

(** The answers arrive in the order C, A, B. *)
Definition abcEnv : Env := {|
  clock := λ n, 1000 + Z.of_nat n;
  usersEndpoint := λ _, Some [("A", "Alice"); ("B", "Bob"); ("C", "Carol")];
  postsEndpoint := λ _ userId, abcPosts userId;
  commentsEndpoint := λ _ _, None;
  allPostsEndpoint := λ _, true;
  sched := λ _, [2; 0; 1]%nat
|}.

(** The server of the example of C3, with the posts of B unavailable;
    the answers arrive in the order of the requests. *)
Definition abcDownEnv : Env := {|
  clock := λ n, 1000 + Z.of_nat n;
  usersEndpoint := λ _, Some [("A", "Alice"); ("B", "Bob"); ("C", "Carol")];
  postsEndpoint := λ _ userId, if decide (userId = "B") then None else abcPosts userId;
  commentsEndpoint := λ _ _, None;
  allPostsEndpoint := λ _, true;
  sched := λ _, []
|}.

(** A server with one user whose three posts have 2, 5 and 5 comments. *)
Definition popularEnv : Env := {|
  clock := λ n, 1000 + Z.of_nat n;
  usersEndpoint := λ _, Some [("1", "Alice")];
  postsEndpoint := λ _ _,
    Some [Post.mk 1 1 "a" None; Post.mk 2 1 "b" None; Post.mk 3 1 "c" None];
  commentsEndpoint := λ _ postId,
    Some (replicate (if decide (postId = 1) then 2 else 5)
                    (Comment.mk 0 postId "x"));
  allPostsEndpoint := λ _, true;
  sched := λ _, [2; 1; 0]%nat
|}.

(** A server that answers every request for posts with [posts userId],
    read by a clock that advances by 50 seconds per read. *)
Definition serverWith (posts : string → list Post.t) : Env := {|
  clock := λ n, 1000 + 50000 * Z.of_nat n;
  usersEndpoint := λ _, Some [("A", "Alice")];
  postsEndpoint := λ _ userId, Some (posts userId);
  commentsEndpoint := λ _ _, None;
  allPostsEndpoint := λ _, true;
  sched := λ _, []
|}.

(** The world after the directory, the posts of user 1 and the comments
    of post 12 have been looked up once against [sampleEnv]. *)
Definition warm : World :=
  (getPostComments 12 sampleEnv
     (getUserPosts "1" sampleEnv (getUsers sampleEnv start).2).2).2.

(** The world after the directory and the posts of user 1 have been
    looked up against the sample server. *)
Definition oneOwner : World :=
  (getUserPosts "1" sampleEnv (getUsers sampleEnv start).2).2.

(** The world after the directory and the posts of every user have been
    looked up against the sample server. *)
Definition allOwners : World :=
  (ensureAllPosts ["1"; "2"; "3"] sampleEnv (getUsers sampleEnv start).2).2.

(** The merged view of [latestWorld] holds three posts stamped 100, 300
    and 200, and its directory is fresh. *)
Definition latestWorld : World := {|
  svc := {|
    baseUrl := "http://20.244.56.144/test"; token := "secret";
    usersCache := [("1", "Alice")];
    postsCache := ∅; commentsCache := ∅;
    userPostCountCache := ∅; postCommentCountCache := ∅;
    allPostsCache :=
      [Post.mk 1 1 "a" (Some 100); Post.mk 2 1 "b" (Some 300);
       Post.mk 3 1 "c" (Some 200)];
    lastUsersFetch := 990;
    lastPostsFetch := ∅; lastCommentsFetch := ∅
  |};
  ticks := 0; log := []
|}.

(** ** The claims that fail, as they are stated *)

(** C1 as the claim states it, for the user directory: once a lookup
    has returned a directory and less than [cacheTTL] has passed since
    it was stored, the next lookup returns it without a request. *)
Definition directory_freshness_as_stated : Prop :=
  ∀ (e : Env) (w w1 : World) (users : Directory.t),
    getUsers e w = (Ok users, w1) →
    fresh (clock e (ticks w1)) (lastUsersFetch (svc w1)) →
    getUsers e w1 = (Ok users, tick w1).

(** C2 as the claim states it, for the user directory: once a lookup
    has returned a directory, a later lookup whose request fails returns
    that directory. *)
Definition directory_fallback_as_stated : Prop :=
  ∀ (e : Env) (w w1 : World) (users : Directory.t),
    getUsers e w = (Ok users, w1) →
    usersEndpoint e (length (log w1)) = None →
    (getUsers e w1).1 = Ok users.

(** C6 as the claim states it: a successful lookup of the posts of an
    owner keeps the merged view free of duplicates. *)
Definition merge_never_duplicates_as_stated : Prop :=
  ∀ e w userId result w',
    noDuplicates (allPostsCache (svc w)) →
    getUserPosts userId e w = (Ok result, w') →
    noDuplicates (allPostsCache (svc w')).

(** C7 as the claim states it, for [getLatestPosts]: after the call,
    the posts of every owner of the directory have been requested
    during the call or are in the cache. *)
Definition every_owner_ensured_as_stated : Prop :=
  ∀ e w limit latestPosts w',
    getLatestPosts limit e w = (Ok latestPosts, w') →
    ∀ id, id ∈ Directory.keys (usersCache (svc w')) →
      GetUserPosts id ∈ drop (length (log w)) (log w') ∨
      is_Some (postsCache (svc w') !! Js.parseInt id).

(** C8 as the claim states it, for [getTopUsers]: an id whose request
    was sent during the call and failed appears with count 0. *)
Definition failed_fetch_counts_zero_as_stated : Prop :=
  ∀ e w limit topUsers w2 id,
    getTopUsers limit e w = (Ok topUsers, w2) →
    GetUserPosts id ∉ log w → GetUserPosts id ∈ log w2 →
    unanswered e id →
    ∀ u, u ∈ topUsers → TopUser.id u = id → TopUser.postCount u = 0%nat.

(** C9 as the claim states it: a [limit] that is not a positive integer
    makes the operation fail. *)
Definition limit_validated_as_stated : Prop :=
  ∀ limit e w, ¬ positiveInteger limit →
    ∃ m w', getTopUsers limit e w = (Err m, w').

(** ** Calls, reachable worlds and what the stores keep *)

(** A call of a public method of the service, of a handler, or of the
    start-up callback. *)
Inductive Call :=
| CallGetUsers
| CallGetUserPosts (userId : string)
| CallGetPostComments (postId : Z)
| CallGetTopUsers (limit : Js.number)
| CallGetPopularPosts
| CallGetLatestPosts (limit : Js.number)
| CallUpdateCache
| HandleTopUsers (queryLimit : option string)
| HandlePosts (queryType : option string)
| Listen.

(** The world a call leaves, whatever it returns. *)
Definition perform (c : Call) (e : Env) (w : World) : World :=
  match c with
  | CallGetUsers => (getUsers e w).2
  | CallGetUserPosts userId => (getUserPosts userId e w).2
  | CallGetPostComments postId => (getPostComments postId e w).2
  | CallGetTopUsers limit => (getTopUsers limit e w).2
  | CallGetPopularPosts => (getPopularPosts e w).2
  | CallGetLatestPosts limit => (getLatestPosts limit e w).2
  | CallUpdateCache => (updateCache e w).2
  | HandleTopUsers queryLimit => (Controller.getTopUsers queryLimit e w).2
  | HandlePosts queryType => (Controller.getPosts queryType e w).2
  | Listen => listenCallback e w
  end.

(** The worlds reached from construction by calls made one after the
    other, each against any environment. *)
Inductive reachable : World → Prop :=
| reachable_boot url tok : reachable (boot url tok)
| reachable_call c e w : reachable w → reachable (perform c e w).

(** A predicate on the service kept by each of the three assignments
    through which the service changes its fields. *)
Definition closedUsers (I : DataService → Prop) : Prop :=
  ∀ users t s, I s → I (storeUsers users t s).

Definition closedPosts (I : DataService → Prop) : Prop :=
  ∀ userId posts t s,
    I s → I (storePosts userId (Js.parseInt userId) (stamp t <$> posts) t s).

Definition closedComments (I : DataService → Prop) : Prop :=
  ∀ postId comments t s, I s → I (storeComments postId comments t s).

(** A slot whose continuation keeps [I]. *)
Definition keeps {L A} (I : DataService → Prop)
    (st : Started (DataService * L) A) : Prop :=
  match st with
  | Settled _ => True
  | Pending _ k => ∀ σ, I σ.1 → I (k σ).2.1
  end.

(** A callback whose synchronous part leaves the service alone and
    sends at most one request, and whose continuation keeps [I]. *)
Definition tame {L A} (I : DataService → Prop) (t : Task L A) : Prop :=
  ∀ e w l,
    svc (t e w l).1.2 = svc w ∧ keeps I (t e w l).1.1 ∧
    ∃ reqs, log (t e w l).1.2 = log w ++ reqs ∧ (length reqs ≤ 1)%nat.

(** ** Readings of the service used by the further properties *)

(** The cached count of the comments of a post is the number of its
    cached comments, and a post has a fetch time exactly when it has
    cached comments. *)
Definition commentsAligned (s : DataService) : Prop :=
  postCommentCountCache s = length <$> commentsCache s ∧
  (dom (lastCommentsFetch s) : gset Z) = dom (commentsCache s).

(** A key of the posts cache has a fetch time exactly when it has
    cached posts, and an id with a cached count has cached posts under
    the number it parses to. *)
Definition postsAligned (s : DataService) : Prop :=
  (dom (lastPostsFetch s) : gset Js.number) = dom (postsCache s) ∧
  ∀ id, is_Some (userPostCountCache s !! id) →
        is_Some (postsCache s !! Js.parseInt id).

(** A post that carries a timestamp. *)
Definition stamped (p : Post.t) : Prop := is_Some (Post.timestamp p).

(** Every cached post carries a timestamp. *)
Definition allStamped (s : DataService) : Prop :=
  Forall stamped (allPostsCache s) ∧
  ∀ n posts, postsCache s !! n = Some posts → Forall stamped posts.

(** Every key of [m0] is a key of [m]. *)
Definition keysKept `{Countable K} {V} (m0 m : gmap K V) : Prop :=
  ∀ k, is_Some (m0 !! k) → is_Some (m !! k).


(** The fields of the directory, of the posts and of the comments are
    those of [s0]. *)
Definition sameUsers (s0 s : DataService) : Prop :=
  usersCache s = usersCache s0 ∧ lastUsersFetch s = lastUsersFetch s0.

Definition samePosts (s0 s : DataService) : Prop :=
  postsCache s = postsCache s0 ∧ lastPostsFetch s = lastPostsFetch s0 ∧
  userPostCountCache s = userPostCountCache s0 ∧
  allPostsCache s = allPostsCache s0.

Definition sameComments (s0 s : DataService) : Prop :=
  commentsCache s = commentsCache s0 ∧
  lastCommentsFetch s = lastCommentsFetch s0 ∧
  postCommentCountCache s = postCommentCountCache s0.

(** The sample server read by a clock stopped at [now]. *)
Definition stoppedAt (now : Z) : Env := {|
  clock := λ _, now;
  usersEndpoint := usersEndpoint sampleEnv;
  postsEndpoint := postsEndpoint sampleEnv;
  commentsEndpoint := commentsEndpoint sampleEnv;
  allPostsEndpoint := allPostsEndpoint sampleEnv;
  sched := sched sampleEnv
|}.

(** A slot that rejects, if it does, with an error of [E]. *)
Definition throwsOnly {L A} (E : Error → Prop)
    (st : Started (DataService * L) A) : Prop :=
  match st with
  | Settled (Ok _) => True
  | Settled (Err m) => E m
  | Pending _ k => ∀ σ m, (k σ).1 = Err m → E m
  end.

(** The posts the server answers with for [id], stamped with the
    reading of the clock number [t0 + i]. *)
Definition fetchedAt (e : Env) (posts : string → list Post.t) (t0 i : nat)
    (id : string) : list Post.t :=
  stamp (clock e (t0 + i)) <$> posts id.

(** The merged view holds posts of the owners [ids] only, and those of
    the owner number [i] are the posts fetched for it, in the order of
    the answer. *)
Definition mergedByOwner (e : Env) (posts : string → list Post.t) (t0 : nat)
    (ids : list string) (merged : list Post.t) : Prop :=
  (∀ p, p ∈ merged → Js.Int (Post.userid p) ∈ Js.parseInt <$> ids) ∧
  ∀ i id, ids !! i = Some id →
    filter (λ p, Js.Int (Post.userid p) = Js.parseInt id) merged
    = fetchedAt e posts t0 i id.

(** The environment with another order of arrival of the answers. *)
Definition withSched (sch : nat → list nat) (e : Env) : Env := {|
  clock := clock e;
  usersEndpoint := usersEndpoint e;
  postsEndpoint := postsEndpoint e;
  commentsEndpoint := commentsEndpoint e;
  allPostsEndpoint := allPostsEndpoint e;
  sched := sch
|}.

(** A callback whose synchronous part, started in a state of [I], sends
    requests of [R] only. *)
Definition sends {L A} (I : DataService → Prop) (R : Request → Prop)
    (t : Task L A) : Prop :=
  ∀ e w l, I (svc w) →
    ∃ reqs, log (t e w l).1.2 = log w ++ reqs ∧ Forall R reqs.

(** The requests an aggregation may send: for the directory, for the
    posts of a user of [users] when [forPosts] allows it, and for the
    comments of a post of [merged] when [forComments] allows it. *)
Definition allowedRequest (users : Directory.t) (merged : list Post.t)
    (forPosts : string → Prop) (forComments : Z → Prop) (r : Request) : Prop :=
  match r with
  | GetUsers => True
  | GetUserPosts id => id ∈ Directory.keys users ∧ forPosts id
  | GetPostComments postId => postId ∈ Post.id <$> merged ∧ forComments postId
  | GetPosts => False
  end.

(** * Properties *)

Lemma has_true `{Countable K} {V} (m : gmap K V) k :
  has m k = true ↔ is_Some (m !! k).
Proof. unfold has. by rewrite bool_decide_eq_true. Qed.

Lemma has_false `{Countable K} {V} (m : gmap K V) k :
  has m k = false ↔ m !! k = None.
Proof. unfold has. by rewrite bool_decide_eq_false, eq_None_not_Some. Qed.

(** ** Freshness (C1) *)

Section Freshness.
Context (e : Env) (w : World).
Let s := svc w.
Let now := clock e (ticks w).

Lemma getUsers_fresh :
  nonEmpty (usersCache s) = true → fresh now (lastUsersFetch s) →
  getUsers e w = (Ok (usersCache s), tick w).
Proof.
  intros Hne Hf. unfold getUsers, getUsers_start, getUsers_resume, dateNow. simpl.
  fold s. rewrite Hne. rewrite bool_decide_eq_true_2 by exact Hf. done.
Qed.

Lemma getUserPosts_fresh userId posts storedAt :
  postsCache s !! Js.parseInt userId = Some posts →
  lastPostsFetch s !! Js.parseInt userId = Some storedAt →
  fresh now storedAt →
  getUserPosts userId e w = (Ok posts, tick w).
Proof.
  intros Hp Ht Hf. unfold getUserPosts, getUserPosts_start, getUserPosts_resume, dateNow. simpl.
  fold s. rewrite (proj2 (has_true _ _)) by (rewrite Hp; eauto).
  rewrite (proj2 (has_true _ _)) by (rewrite Ht; eauto).
  rewrite Ht, Hp. simpl. rewrite bool_decide_eq_true_2 by exact Hf. done.
Qed.

Lemma getPostComments_fresh postId comments storedAt :
  commentsCache s !! postId = Some comments →
  lastCommentsFetch s !! postId = Some storedAt →
  fresh now storedAt →
  getPostComments postId e w = (Ok comments, tick w).
Proof.
  intros Hp Ht Hf. unfold getPostComments, getPostComments_start, getPostComments_resume,
    dateNow. simpl.
  fold s. rewrite (proj2 (has_true _ _)) by (rewrite Hp; eauto).
  rewrite (proj2 (has_true _ _)) by (rewrite Ht; eauto).
  rewrite Ht, Hp. simpl. rewrite bool_decide_eq_true_2 by exact Hf. done.
Qed.
End Freshness.

(** C1, as amended.  A lookup whose key holds a value stored less than
    [cacheTTL] = 30000 ms ago returns that value, leaves the service as
    it is and sends no request (the world only records the clock read):
    for a per-owner collection of posts and a per-post collection of
    comments always, for the user directory when the stored directory
    has at least one user. *)
Theorem C1_fresh_value_is_served_from_cache (e : Env) (w : World) :
  cacheTTL = 30000 ∧
  (nonEmpty (usersCache (svc w)) = true →
   fresh (clock e (ticks w)) (lastUsersFetch (svc w)) →
   getUsers e w = (Ok (usersCache (svc w)), tick w)) ∧
  (∀ userId posts storedAt,
     postsCache (svc w) !! Js.parseInt userId = Some posts →
     lastPostsFetch (svc w) !! Js.parseInt userId = Some storedAt →
     fresh (clock e (ticks w)) storedAt →
     getUserPosts userId e w = (Ok posts, tick w)) ∧
  (∀ postId comments storedAt,
     commentsCache (svc w) !! postId = Some comments →
     lastCommentsFetch (svc w) !! postId = Some storedAt →
     fresh (clock e (ticks w)) storedAt →
     getPostComments postId e w = (Ok comments, tick w)).
Proof.
  split; [done|]. split; [apply getUsers_fresh|].
  split; [apply getUserPosts_fresh | apply getPostComments_fresh].
Qed.

(** The empty directory stored at time 1000 is fetched again at time
    1001: the log of the second lookup holds a second request. *)
Lemma C1_counterexample : ¬ directory_freshness_as_stated.
Proof.
  intros H.
  specialize (H emptyDirectoryEnv start (getUsers emptyDirectoryEnv start).2 []).
  assert (Hlog : log (getUsers emptyDirectoryEnv (getUsers emptyDirectoryEnv start).2).2
                 = [GetUsers; GetUsers]) by reflexivity.
  rewrite H in Hlog; [discriminate Hlog | reflexivity | unfold fresh; vm_compute; reflexivity].
Qed.

Lemma C1_witness :
  getUsers sampleEnv warm = (Ok (usersCache (svc warm)), tick warm) ∧
  getUserPosts "1" sampleEnv warm
    = (Ok (stamp 1001 <$> samplePosts "1"), tick warm) ∧
  getPostComments 12 sampleEnv warm = (Ok (sampleComments 12), tick warm).
Proof.
  destruct (C1_fresh_value_is_served_from_cache sampleEnv warm)
    as (_ & Hu & Hp & Hc).
  split; [apply Hu; vm_compute; reflexivity|].
  split; [apply (Hp "1" _ 1001); vm_compute; reflexivity|].
  apply (Hc 12 _ 1002); vm_compute; reflexivity.
Defined.

(** ** Failure of the refetch (C2) *)

Section Fallback.
Context (e : Env) (w : World).
Let s := svc w.

Lemma getUsers_down_cached :
  usersEndpoint e (length (log w)) = None →
  nonEmpty (usersCache s) = true →
  ∃ w', getUsers e w = (Ok (usersCache s), w') ∧ svc w' = s.
Proof.
  intros Hdown Hne. unfold getUsers, getUsers_start, getUsers_resume, dateNow. simpl.
  fold s. rewrite Hne. simpl. case_bool_decide; simpl; [by eexists|].
  rewrite Hdown. fold s. rewrite Hne. by eexists.
Qed.

Lemma getUsers_down_empty :
  usersEndpoint e (length (log w)) = None →
  nonEmpty (usersCache s) = false →
  getUsers e w = (Err FailedToFetchUsers, send GetUsers (tick w)).
Proof.
  intros Hdown Hne. unfold getUsers, getUsers_start, getUsers_resume, dateNow. simpl.
  fold s. rewrite Hne. simpl. rewrite Hdown. fold s. rewrite Hne.
  by destruct w.
Qed.

Lemma getUserPosts_down_cached userId posts :
  postsEndpoint e (length (log w)) userId = None →
  postsCache s !! Js.parseInt userId = Some posts →
  ∃ w', getUserPosts userId e w = (Ok posts, w') ∧ svc w' = s.
Proof.
  intros Hdown Hp. unfold getUserPosts, getUserPosts_start, getUserPosts_resume, dateNow. simpl.
  fold s. rewrite (proj2 (has_true _ _)) by (rewrite Hp; eauto). rewrite Hp.
  simpl. destruct (_ && _); simpl; [by eexists|].
  rewrite Hdown. fold s.
  rewrite (proj2 (has_true _ _)) by (rewrite Hp; eauto). rewrite Hp.
  by eexists.
Qed.

Lemma getUserPosts_down_absent userId :
  postsEndpoint e (length (log w)) userId = None →
  postsCache s !! Js.parseInt userId = None →
  getUserPosts userId e w
    = (Err (FailedToFetchPosts userId), send (GetUserPosts userId) (tick w)).
Proof.
  intros Hdown Hp. unfold getUserPosts, getUserPosts_start, getUserPosts_resume, dateNow. simpl.
  fold s. rewrite (proj2 (has_false _ _)) by done. simpl.
  rewrite Hdown. fold s. rewrite (proj2 (has_false _ _)) by done.
  by destruct w.
Qed.

Lemma getPostComments_down_cached postId comments :
  commentsEndpoint e (length (log w)) postId = None →
  commentsCache s !! postId = Some comments →
  ∃ w', getPostComments postId e w = (Ok comments, w') ∧ svc w' = s.
Proof.
  intros Hdown Hp. unfold getPostComments, getPostComments_start, getPostComments_resume,
    dateNow.
  simpl. fold s. rewrite (proj2 (has_true _ _)) by (rewrite Hp; eauto).
  rewrite Hp. simpl. destruct (_ && _); simpl; [by eexists|].
  rewrite Hdown. fold s.
  rewrite (proj2 (has_true _ _)) by (rewrite Hp; eauto). rewrite Hp.
  by eexists.
Qed.

Lemma getPostComments_down_absent postId :
  commentsEndpoint e (length (log w)) postId = None →
  commentsCache s !! postId = None →
  getPostComments postId e w
    = (Err (FailedToFetchComments postId),
       send (GetPostComments postId) (tick w)).
Proof.
  intros Hdown Hp. unfold getPostComments, getPostComments_start, getPostComments_resume,
    dateNow.
  simpl. fold s. rewrite (proj2 (has_false _ _)) by done. simpl.
  rewrite Hdown. fold s. rewrite (proj2 (has_false _ _)) by done.
  by destruct w.
Qed.
End Fallback.

(** C2, as amended.  When the request a lookup would send fails: a
    lookup of posts or comments returns the value its key holds, however
    old, and fails with [FailedToFetchPosts] / [FailedToFetchComments]
    when the key holds none; the lookup of the directory returns the
    cached directory when it has at least one user, and fails with
    [FailedToFetchUsers] when it has none (never stored, or stored
    empty).  The service is left as it was in every case. *)
Theorem C2_failed_refetch_falls_back_or_fails (e : Env) (w : World) :
  (usersEndpoint e (length (log w)) = None →
     (nonEmpty (usersCache (svc w)) = true →
        ∃ w', getUsers e w = (Ok (usersCache (svc w)), w') ∧ svc w' = svc w) ∧
     (nonEmpty (usersCache (svc w)) = false →
        getUsers e w = (Err FailedToFetchUsers, send GetUsers (tick w)))) ∧
  (∀ userId, postsEndpoint e (length (log w)) userId = None →
     (∀ posts, postsCache (svc w) !! Js.parseInt userId = Some posts →
        ∃ w', getUserPosts userId e w = (Ok posts, w') ∧ svc w' = svc w) ∧
     (postsCache (svc w) !! Js.parseInt userId = None →
        getUserPosts userId e w
          = (Err (FailedToFetchPosts userId),
             send (GetUserPosts userId) (tick w)))) ∧
  (∀ postId, commentsEndpoint e (length (log w)) postId = None →
     (∀ comments, commentsCache (svc w) !! postId = Some comments →
        ∃ w', getPostComments postId e w = (Ok comments, w') ∧ svc w' = svc w) ∧
     (commentsCache (svc w) !! postId = None →
        getPostComments postId e w
          = (Err (FailedToFetchComments postId),
             send (GetPostComments postId) (tick w)))).
Proof.
  split; [|split].
  - intros Hdown. split; intros; [by apply getUsers_down_cached|].
    by apply getUsers_down_empty.
  - intros userId Hdown. split; intros; [by apply getUserPosts_down_cached|].
    by apply getUserPosts_down_absent.
  - intros postId Hdown. split; intros; [by apply getPostComments_down_cached|].
    by apply getPostComments_down_absent.
Qed.

Lemma C2_witness :
  (∃ w', getUsers downEnv warm
           = (Ok (usersCache (svc warm)), w') ∧ svc w' = svc warm) ∧
  (∃ w', getUserPosts "1" downEnv warm
           = (Ok (stamp 1001 <$> samplePosts "1"), w') ∧ svc w' = svc warm) ∧
  getUserPosts "2" downEnv warm
    = (Err (FailedToFetchPosts "2"), send (GetUserPosts "2") (tick warm)) ∧
  getPostComments 11 downEnv warm
    = (Err (FailedToFetchComments 11), send (GetPostComments 11) (tick warm)).
Proof.
  split; [|split; [|split]].
  - apply (proj1 (C2_failed_refetch_falls_back_or_fails downEnv warm));
      vm_compute; reflexivity.
  - apply (proj1 (proj2 (C2_failed_refetch_falls_back_or_fails downEnv
                           warm)) "1");
      vm_compute; reflexivity.
  - apply (proj1 (proj2 (C2_failed_refetch_falls_back_or_fails downEnv warm)) "2");
      vm_compute; reflexivity.
  - apply (proj2 (proj2 (C2_failed_refetch_falls_back_or_fails downEnv warm)) 11);
      vm_compute; reflexivity.
Defined.

(** The empty directory was stored by the first lookup; the second one
    throws instead of returning it. *)
Lemma C2_counterexample : ¬ directory_fallback_as_stated.
Proof.
  intros H.
  specialize (H emptyThenDownEnv start (getUsers emptyThenDownEnv start).2 []).
  assert (Hr : (getUsers emptyThenDownEnv (getUsers emptyThenDownEnv start).2).1
               = Err FailedToFetchUsers) by reflexivity.
  rewrite H in Hr; [discriminate Hr | reflexivity | reflexivity].
Qed.

(** ** [updateCache] (C10) *)

(** C10.  [updateCache] returns normally whatever the two requests it
    sends answer, and every field of the service (the six caches and the
    three fetch timestamps) is the same after the call as before. *)
Theorem C10_updateCache_changes_nothing (e : Env) (w : World) :
  ∃ w', updateCache e w = (Ok (), w') ∧ svc w' = svc w.
Proof.
  unfold updateCache, updateCacheBody.
  case_bool_decide; [by eexists|].
  destruct (usersEndpoint e _); [|by eexists].
  destruct (allPostsEndpoint e _); by eexists.
Qed.

(** ** [sort] and [slice] *)

Section SortFacts.
Context {A : Type} (key : A → Z).

Lemma insertDesc_perm x l : Js.insertDesc key x l ≡ₚ x :: l.
Proof.
  induction l as [|y l IH]; simpl; [done|].
  destruct (key x <? key y); [|done].
  rewrite IH. apply Permutation_swap.
Qed.

Lemma sortDesc_perm l : Js.sortDesc key l ≡ₚ l.
Proof.
  induction l as [|x l IH]; simpl; [done|].
  by rewrite insertDesc_perm, IH.
Qed.

Lemma insertDesc_sorted x l :
  Sorted (descending key) l → Sorted (descending key) (Js.insertDesc key x l).
Proof.
  induction 1 as [|y l Hs IH Hhd]; simpl.
  - repeat constructor.
  - destruct (Z.ltb_spec (key x) (key y)) as [Hlt|Hge].
    + constructor; [done|].
      destruct Hhd as [|z l Hz]; simpl.
      * constructor. unfold descending. lia.
      * destruct (key x <? key z); constructor; unfold descending in *; lia.
    + constructor; [by constructor|]. constructor. unfold descending. lia.
Qed.

Lemma sortDesc_sorted l : Sorted (descending key) (Js.sortDesc key l).
Proof.
  induction l; simpl; [constructor|]. by apply insertDesc_sorted.
Qed.

#[local] Instance descending_trans : Transitive (descending key).
Proof. unfold descending. intros a b c. lia. Qed.

(** Every element is followed only by elements of a key that is not
    larger. *)
Lemma sortDesc_strongly_sorted l :
  StronglySorted (descending key) (Js.sortDesc key l).
Proof. apply Sorted_StronglySorted; [apply _ | apply sortDesc_sorted]. Qed.

(** The elements of one key keep the order they had. *)
Lemma insertDesc_stable k x l :
  filter (λ a, key a = k) (Js.insertDesc key x l)
  = filter (λ a, key a = k) (x :: l).
Proof.
  induction l as [|y l IH]; simpl; [done|].
  destruct (Z.ltb_spec (key x) (key y)) as [Hlt|Hge]; [|done].
  rewrite filter_cons, IH, !filter_cons.
  repeat case_decide; try done; lia.
Qed.

Lemma sortDesc_stable k l :
  filter (λ a, key a = k) (Js.sortDesc key l) = filter (λ a, key a = k) l.
Proof.
  induction l as [|x l IH]; simpl; [done|].
  by rewrite insertDesc_stable, !filter_cons, IH.
Qed.
End SortFacts.

Section SliceFacts.
Context {A : Type}.
Implicit Types l : list A.

Lemma slice_take l (n : nat) :
  Js.slice l (Js.Int 0) (Js.Int (Z.of_nat n)) = take n l.
Proof.
  unfold Js.slice, Js.clampIndex, Js.toInteger. simpl.
  destruct (Z.ltb_spec (Z.of_nat n) 0) as [?|_]; [lia|].
  replace (Z.min 0 (Z.of_nat (length l))) with 0 by lia.
  change (Z.to_nat 0) with 0%nat. rewrite drop_0.
  destruct (decide (n ≤ length l)%nat).
  - f_equal. lia.
  - rewrite !take_ge by lia. done.
Qed.

Lemma slice_zero l : Js.slice l (Js.Int 0) (Js.Int 0) = [].
Proof. exact (slice_take l 0). Qed.

Lemma slice_NaN l : Js.slice l (Js.Int 0) Js.NaN = [].
Proof. apply slice_zero. Qed.

(** A negative end counts from the end of the array. *)
Lemma slice_negative l (k : nat) :
  (0 < k)%nat →
  Js.slice l (Js.Int 0) (Js.Int (- Z.of_nat k)) = take (length l - k) l.
Proof.
  intros Hk. unfold Js.slice, Js.clampIndex, Js.toInteger. simpl.
  destruct (Z.ltb_spec (- Z.of_nat k) 0) as [_|?]; [|lia].
  replace (Z.min 0 (Z.of_nat (length l))) with 0 by lia.
  change (Z.to_nat 0) with 0%nat. rewrite drop_0. f_equal. lia.
Qed.
End SliceFacts.

(** ** What the lookups leave alone *)

Lemma getUsers_allPosts e w :
  allPostsCache (svc (getUsers e w).2) = allPostsCache (svc w).
Proof.
  unfold getUsers, getUsers_start, getUsers_resume, dateNow. simpl.
  destruct (_ && _); simpl; [done|].
  destruct (usersEndpoint e _); simpl; [done|].
  by destruct (nonEmpty _).
Qed.

Lemma ensureAllPosts_nonempty userIds e w :
  allPostsCache (svc w) ≠ [] → ensureAllPosts userIds e w = (Ok (), w).
Proof.
  intros Hne. unfold ensureAllPosts.
  rewrite bool_decide_eq_false_2; [done|].
  by destruct (allPostsCache (svc w)).
Qed.

(** ** [getLatestPosts] (C5) *)

Lemma getLatestPosts_ok limit e w users w1 w2 :
  getUsers e w = (Ok users, w1) →
  ensureAllPosts (Directory.keys users) e w1 = (Ok (), w2) →
  getLatestPosts limit e w
  = (Ok (Js.slice (Js.sortDesc timestampKey (allPostsCache (svc w2)))
                  (Js.Int 0) limit), w2).
Proof. intros Hu He. unfold getLatestPosts. by rewrite Hu, He. Qed.

(** C5.  Once the directory is obtained and the merged view is in place,
    [getLatestPosts limit] returns the first [limit] posts of the merged
    view sorted by descending [timestamp] (5 by default); the sort is a
    stable descending rearrangement of the merged view.  With a merged
    view of three posts stamped 100, 300 and 200 and [limit] 2, the
    result is the post stamped 300 followed by the post stamped 200. *)
Theorem C5_latest_posts_sorted_and_truncated (e : Env) (w : World) :
  (∀ (limit : nat) users w1 w2,
     getUsers e w = (Ok users, w1) →
     ensureAllPosts (Directory.keys users) e w1 = (Ok (), w2) →
     getLatestPosts (Js.Int (Z.of_nat limit)) e w
     = (Ok (take limit (Js.sortDesc timestampKey (allPostsCache (svc w2)))), w2)) ∧
  defaultLimit = Js.Int 5 ∧
  (∀ merged,
     Js.sortDesc timestampKey merged ≡ₚ merged ∧
     StronglySorted (descending timestampKey) (Js.sortDesc timestampKey merged) ∧
     ∀ t, filter (λ p, timestampKey p = t) (Js.sortDesc timestampKey merged)
          = filter (λ p, timestampKey p = t) merged) ∧
  (∀ p1 p2 p3 users w1,
     getUsers e w = (Ok users, w1) →
     allPostsCache (svc w) = [p1; p2; p3] →
     Post.timestamp p1 = Some 100 →
     Post.timestamp p2 = Some 300 →
     Post.timestamp p3 = Some 200 →
     getLatestPosts (Js.Int 2) e w = (Ok [p2; p3], w1)).
Proof.
  split; [|split; [done|split]].
  - intros limit users w1 w2 Hu He.
    rewrite (getLatestPosts_ok _ _ _ _ _ _ Hu He). by rewrite slice_take.
  - intros merged. split; [apply sortDesc_perm|].
    split; [apply sortDesc_strongly_sorted | intros t; apply sortDesc_stable].
  - intros p1 p2 p3 users w1 Hu Hall H1 H2 H3.
    assert (Hall1 : allPostsCache (svc w1) = [p1; p2; p3]).
    { rewrite <- Hall, <- (getUsers_allPosts e w). by rewrite Hu. }
    rewrite (getLatestPosts_ok _ _ _ _ _ w1 Hu).
    + rewrite Hall1.
      assert (K1 : timestampKey p1 = 100) by (unfold timestampKey; by rewrite H1).
      assert (K2 : timestampKey p2 = 300) by (unfold timestampKey; by rewrite H2).
      assert (K3 : timestampKey p3 = 200) by (unfold timestampKey; by rewrite H3).
      cbn [Js.sortDesc Js.insertDesc]. rewrite K2, K3.
      change (300 <? 200) with false. cbn [Js.insertDesc]. rewrite K1, K2.
      change (100 <? 300) with true. cbn [Js.insertDesc]. rewrite K3.
      reflexivity.
    + apply ensureAllPosts_nonempty. by rewrite Hall1.
Qed.

Lemma C5_witness :
  getLatestPosts (Js.Int 2) sampleEnv latestWorld
    = (Ok [Post.mk 2 1 "b" (Some 300); Post.mk 3 1 "c" (Some 200)],
       tick latestWorld) ∧
  getLatestPosts (Js.Int 2) sampleEnv start
    = (Ok (take 2 (Js.sortDesc timestampKey (allPostsCache (svc allOwners)))),
       allOwners).
Proof.
  split.
  - apply (proj2 (proj2 (proj2
             (C5_latest_posts_sorted_and_truncated sampleEnv latestWorld)))
             (Post.mk 1 1 "a" (Some 100)) _ _ [("1", "Alice")]);
      reflexivity.
  - apply (proj1 (C5_latest_posts_sorted_and_truncated sampleEnv start) 2%nat
             [("1", "Alice"); ("2", "Bob"); ("3", "Carol")]
             (getUsers sampleEnv start).2);
      reflexivity.
Defined.

(** ** Reasoning about [Promise.all]

    A rely-guarantee rule for [settle]: every pending slot [i] has a
    precondition [P i] and a postcondition [Q i]; its continuation,
    started where [P i] and the global invariant [I] hold, returns
    normally, keeps [I], establishes [Q i], and keeps the pre- and
    postconditions of the other slots.  Then, whatever the order of
    completion, nothing is rejected and every slot reached satisfies its
    postcondition. *)

Section Settle.
Context {Σ A : Type}.
Implicit Types (slots : list (Started Σ A)) (σ : Σ).
Variables (I : Σ → Prop) (P Q : nat → Σ → Prop).
Variable slots0 : list (Started Σ A).

Definition slotInv (i : nat) (st : Started Σ A) σ : Prop :=
  match st with
  | Settled (Ok _) => Q i σ
  | Settled (Err _) => False
  | Pending req k => slots0 !! i = Some (Pending req k) ∧ P i σ
  end.

Definition settleInv slots σ : Prop :=
  I σ ∧ length slots = length slots0 ∧
  ∀ i st, slots !! i = Some st → slotInv i st σ.

Definition settledAt slots (i : nat) : Prop :=
  ∃ r, slots !! i = Some (Settled r).

Hypothesis step : ∀ i req k σ,
  slots0 !! i = Some (Pending req k) → I σ → P i σ →
  ∃ a σ', k σ = (Ok a, σ') ∧ I σ' ∧ Q i σ' ∧
          ∀ j, j ≠ i → (P j σ → P j σ') ∧ (Q j σ → Q j σ').

Lemma settle_inv order : ∀ slots σ,
  settleInv slots σ →
  ∃ slots' σ',
    settle order slots σ = (None, slots', σ') ∧ settleInv slots' σ' ∧
    ∀ i, (i ∈ order ∨ settledAt slots i) → (i < length slots)%nat →
         settledAt slots' i.
Proof.
  induction order as [|i order IH]; intros slots σ Hinv.
  - exists slots, σ. split; [done|]. split; [done|].
    intros i [Hin|Hs] _; [by apply elem_of_nil in Hin | done].
  - simpl. destruct (slots !! i) as [[r|req k]|] eqn:Hi.
    + destruct (IH slots σ Hinv) as (slots' & σ' & Hrun & Hinv' & Hset).
      exists slots', σ'. split; [done|]. split; [done|].
      intros j [Hin|Hs] Hlt; [|by apply Hset; [right|]].
      apply elem_of_cons in Hin as [->|Hin]; apply Hset; try done.
      * right. by exists r.
      * by left.
    + destruct Hinv as (HI & Hlen & Hslots).
      destruct (Hslots i _ Hi) as [H0 HP].
      destruct (step i req k σ H0 HI HP) as (a & σ1 & Hk & HI1 & HQ & Hst).
      rewrite Hk.
      destruct (IH (<[i := Settled (Ok a)]> slots) σ1)
        as (slots' & σ' & Hrun & Hinv' & Hset).
      { split; [done|]. split; [by rewrite length_insert|].
        intros j st Hj. destruct (decide (j = i)) as [->|Hne].
        - rewrite list_lookup_insert_eq in Hj
            by (by eapply lookup_lt_Some). by inversion Hj; subst.
        - rewrite list_lookup_insert_ne in Hj by done.
          specialize (Hslots j st Hj). destruct (Hst j Hne) as [HPj HQj].
          destruct st as [[b|m]|req' k']; simpl in *; [by apply HQj|done|].
          destruct Hslots. split; [done|]. by apply HPj. }
      exists slots', σ'. split; [done|]. split; [done|].
      intros j Hj Hlt. apply Hset; [|by rewrite length_insert].
      destruct (decide (j = i)) as [->|Hne].
      * right. exists (Ok a). by rewrite list_lookup_insert_eq.
      * destruct Hj as [Hin|[r Hr]].
        -- apply elem_of_cons in Hin as [->|Hin]; [done|by left].
        -- right. exists r. by rewrite list_lookup_insert_ne.
    + destruct (IH slots σ Hinv) as (slots' & σ' & Hrun & Hinv' & Hset).
      exists slots', σ'. split; [done|]. split; [done|].
      intros j [Hin|Hs] Hlt; [|by apply Hset; [right|]].
      apply elem_of_cons in Hin as [->|Hin]; [|by apply Hset; [left|]].
      apply lookup_ge_None in Hi. lia.
Qed.

(** With an order that reaches every index. *)
Lemma settle_all order σ :
  settleInv slots0 σ →
  ∃ slots' σ',
    settle (order ++ seq 0 (length slots0)) slots0 σ = (None, slots', σ') ∧
    I σ' ∧ ∀ i, (i < length slots0)%nat → Q i σ'.
Proof.
  intros Hinv.
  destruct (settle_inv (order ++ seq 0 (length slots0)) slots0 σ Hinv)
    as (slots' & σ' & Hrun & (HI & Hlen & Hslots) & Hset).
  exists slots', σ'. split; [done|]. split; [done|].
  intros i Hi. destruct (Hset i) as [r Hr]; [|done|].
  - left. apply elem_of_app. right. apply elem_of_seq. lia.
  - specialize (Hslots i _ Hr). by destruct r.
Qed.
End Settle.

Lemma firstRejected_none {Σ A} (slots : list (Started Σ A)) :
  (∀ i m, slots !! i ≠ Some (Settled (Err m))) → firstRejected slots = None.
Proof.
  induction slots as [|st slots IH]; intros H; [done|].
  simpl. destruct st as [[a|m]|req k].
  - apply IH. intros i m. apply (H (S i)).
  - by destruct (H 0%nat m).
  - apply IH. intros i m. apply (H (S i)).
Qed.

(** The rule for a whole [Promise.all]. *)
Lemma promiseAll_inv {L A} (I : DataService * L → Prop)
    (P Q : nat → DataService * L → Prop) (tasks : list (Task L A))
    e w l slots0 w1 l1 :
  startAll tasks e w l = (slots0, w1, l1) →
  (∀ i req k σ,
     slots0 !! i = Some (Pending req k) → I σ → P i σ →
     ∃ a σ', k σ = (Ok a, σ') ∧ I σ' ∧ Q i σ' ∧
             ∀ j, j ≠ i → (P j σ → P j σ') ∧ (Q j σ → Q j σ')) →
  settleInv I P Q slots0 slots0 (svc w1, l1) →
  ∃ rs s' l',
    promiseAll tasks e w l = (Ok rs, withSvc s' w1, l') ∧
    I (s', l') ∧ ∀ i, (i < length slots0)%nat → Q i (s', l').
Proof.
  intros Hstart Hstep Hinv. unfold promiseAll. rewrite Hstart.
  rewrite firstRejected_none.
  - destruct (settle_all I P Q slots0 Hstep (sched e (length (log w))) _ Hinv)
      as (slots' & [s' l'] & Hrun & HI & HQ).
    rewrite Hrun. by exists (fulfilled slots'), s', l'.
  - intros i m Hi. destruct Hinv as (_ & _ & Hslots).
    apply (Hslots i _ Hi).
Qed.

(** ** The post counts of [getTopUsers] *)

Lemma startAll_countPosts e ids : ∀ w postCounts,
  ∃ slots w1 postCounts1,
    startAll (countPosts <$> ids) e w postCounts = (slots, w1, postCounts1) ∧
    svc w1 = svc w ∧ Forall2 (postsSlot e (svc w)) ids slots.
Proof.
  induction ids as [|id ids IH]; intros w pc; simpl.
  - by exists [], w, pc.
  - unfold countPosts at 1. unfold getUserPosts_start, dateNow. simpl.
    destruct (has (postsCache (svc w)) (Js.parseInt id)) eqn:Hhas; simpl.
    + destruct (_ && _); simpl.
      * edestruct IH as (slots & w1 & pc1 & -> & Hsvc & Hall).
        eexists _, _, _. split; [done|]. split; [by rewrite Hsvc|].
        constructor; [|exact Hall].
        left. split; [done|]. by apply has_true.
      * edestruct IH as (slots & w1 & pc1 & -> & Hsvc & Hall).
        eexists _, _, _. split; [done|]. split; [by rewrite Hsvc|].
        constructor; [|exact Hall]. right. by eexists _, _.
    + edestruct IH as (slots & w1 & pc1 & -> & Hsvc & Hall).
      eexists _, _, _. split; [done|]. split; [by rewrite Hsvc|].
      constructor; [|exact Hall]. right. by eexists _, _.
Qed.

Section CountPosts.
Context (e : Env) (s0 : DataService) (ids : list string).
Hypothesis ids_nodup : NoDup ids.

Let uncached (id : string) : Prop := postsCache s0 !! Js.parseInt id = None.
Let failing (id : string) : Prop :=
  uncached id ∧ unanswered e id ∧ numericallyUnique ids id.

Let I (σ : DataService * gmap string nat) : Prop :=
  ∀ id, id ∉ ids → userPostCountCache σ.1 !! id = userPostCountCache s0 !! id.

Let P (i : nat) (σ : DataService * gmap string nat) : Prop :=
  ∀ id, ids !! i = Some id →
    userPostCountCache σ.1 !! id = userPostCountCache s0 !! id ∧
    (failing id → postsCache σ.1 !! Js.parseInt id = None).

Let Q (i : nat) (σ : DataService * gmap string nat) : Prop :=
  ∀ id, ids !! i = Some id →
    (∀ posts, uncached id → answered e id posts →
       σ.2 !! id = Some (length posts) ∧
       userPostCountCache σ.1 !! id = Some (length posts)) ∧
    (failing id →
       σ.2 !! id = Some 0%nat ∧
       userPostCountCache σ.1 !! id = userPostCountCache s0 !! id).

Lemma countPosts_step slots0 i req k σ :
  Forall2 (postsSlot e s0) ids slots0 →
  slots0 !! i = Some (Pending req k) → I σ → P i σ →
  ∃ a σ', k σ = (Ok a, σ') ∧ I σ' ∧ Q i σ' ∧
          ∀ j, j ≠ i → (P j σ → P j σ') ∧ (Q j σ → Q j σ').
Proof.
  intros Hall Hi HI HP.
  destruct (Forall2_lookup_r _ _ _ _ _ Hall Hi) as (id & Hid & Hslot).
  destruct Hslot as [[? _]|(n & t & Hk)]; [done|].
  inversion Hk; subst req k; clear Hk.
  destruct σ as [s pc]. destruct (HP id Hid) as [Hcnt Hfail].
  assert (Hother : ∀ j id', j ≠ i → ids !! j = Some id' → id' ≠ id).
  { intros j id' Hne Hj ->. by apply Hne, (NoDup_lookup ids j i id). }
  unfold thenRecord, getUserPosts_resume.
  destruct (postsEndpoint e n id) as [posts|] eqn:Hresp.
  - eexists (), _. split; [done|]. simpl. split; [|split].
    + intros id' Hnot. simpl. rewrite lookup_insert_ne; [by apply HI|].
      intros ->. apply Hnot. by eapply list_elem_of_lookup_2.
    + intros id' Hid'. assert (id' = id) as -> by congruence. simpl. split.
      * intros posts' _ Hans. specialize (Hans n).
        assert (posts' = posts) as -> by congruence.
        rewrite !lookup_insert_eq, length_fmap. done.
      * intros (_ & Hun & _). specialize (Hun n). congruence.
    + intros j Hne. split.
      * intros HPj id' Hj. specialize (Hother j id' Hne Hj).
        destruct (HPj id' Hj) as [Hc Hf]. simpl in *. split.
        -- by rewrite lookup_insert_ne.
        -- intros Hfailing. rewrite lookup_insert_ne; [by apply Hf|].
           intros Heq. destruct Hfailing as (_ & _ & Huniq).
           apply Hother. symmetry. apply Huniq; [|done].
           by eapply list_elem_of_lookup_2.
      * intros HQj id' Hj. specialize (Hother j id' Hne Hj).
        destruct (HQj id' Hj) as [Hg Hb]. simpl in *.
        rewrite !lookup_insert_ne by done. done.
  - assert (Hframe : ∀ r,
      I (s, recordCount id r pc) ∧
      ∀ j, j ≠ i → (P j (s, pc) → P j (s, recordCount id r pc)) ∧
                   (Q j (s, pc) → Q j (s, recordCount id r pc))).
    { intros r. split; [done|]. intros j Hne. split; [done|].
      intros HQj id' Hj. specialize (Hother j id' Hne Hj).
      destruct (HQj id' Hj) as [Hg Hb]. simpl in *.
      destruct r; simpl; rewrite !lookup_insert_ne by done; done. }
    destruct (has (postsCache s) (Js.parseInt id)) eqn:Hhas.
    + eexists (), _. split; [done|].
      destruct (Hframe (Ok (default [] (postsCache s !! Js.parseInt id))))
        as [HI' Hst].
      split; [done|]. split; [|done].
      intros id' Hid'. assert (id' = id) as -> by congruence. split.
      * intros posts' _ Hans. specialize (Hans n). congruence.
      * intros Hfailing. apply Hfail in Hfailing. simpl in Hfailing.
        apply has_true in Hhas. rewrite Hfailing in Hhas. by destruct Hhas.
    + eexists (), _. split; [done|].
      destruct (Hframe (Err (FailedToFetchPosts id))) as [HI' Hst].
      split; [done|]. split; [|done].
      intros id' Hid'. assert (id' = id) as -> by congruence. split.
      * intros posts' _ Hans. specialize (Hans n). congruence.
      * intros _. simpl. by rewrite lookup_insert_eq.
Qed.

(** What the callbacks leave in [postCounts] and in the service's
    count cache, whatever the order of completion. *)
Lemma countPosts_all w postCounts :
  svc w = s0 →
  ∃ rs s' postCounts' w1,
    promiseAll (countPosts <$> ids) e w postCounts
      = (Ok rs, withSvc s' w1, postCounts') ∧
    (∀ id, id ∉ ids →
       userPostCountCache s' !! id = userPostCountCache s0 !! id) ∧
    (∀ id, id ∈ ids →
       (∀ posts, uncached id → answered e id posts →
          postCounts' !! id = Some (length posts) ∧
          userPostCountCache s' !! id = Some (length posts)) ∧
       (failing id →
          postCounts' !! id = Some 0%nat ∧
          userPostCountCache s' !! id = userPostCountCache s0 !! id)).
Proof.
  intros Hs.
  destruct (startAll_countPosts e ids w postCounts)
    as (slots0 & w1 & pc1 & Hstart & Hsvc & Hall).
  rewrite Hs in Hall.
  destruct (promiseAll_inv I P Q _ _ _ _ _ _ _ Hstart) as (rs & s' & pc' & Hrun & HI & HQ).
  - intros i req k σ. by apply countPosts_step.
  - split; [by rewrite Hsvc, Hs|]. split; [done|].
    intros i st Hi.
    destruct (Forall2_lookup_r _ _ _ _ _ Hall Hi) as (id & Hid & Hslot).
    destruct Hslot as [[-> Hsome]|(n & t & ->)]; simpl.
    + intros id' Hid'. assert (id' = id) as -> by congruence.
      split.
      * intros posts Hun _. unfold uncached in Hun. rewrite Hun in Hsome.
        by destruct Hsome.
      * intros (Hun & _). unfold uncached in Hun. rewrite Hun in Hsome.
        by destruct Hsome.
    + split; [done|]. intros id' Hid'.
      assert (id' = id) as -> by congruence. rewrite Hsvc, Hs.
      split; [done|]. by intros (Hun & _).
  - exists rs, s', pc', w1. split; [done|]. split; [exact HI|].
    intros id Hin. apply list_elem_of_lookup in Hin as [i Hi].
    apply (HQ i); [|done]. rewrite <- (Forall2_length _ _ _ Hall).
    by eapply lookup_lt_Some.
Qed.
End CountPosts.

(** Lines 172-174: the entries of the count cache override [postCounts]. *)
Lemma combine_lookup (cache postCounts : gmap string nat) (id : string) :
  map_fold (λ userId count postCounts, <[userId := count]> postCounts)
           postCounts cache !! id
  = match cache !! id with Some c => Some c | None => postCounts !! id end.
Proof.
  apply (map_fold_weak_ind
           (λ r (m : gmap string nat),
              r !! id = match m !! id with Some c => Some c | None => postCounts !! id end)).
  - by rewrite lookup_empty.
  - intros i x m r Hi IH. destruct (decide (i = id)) as [->|Hne].
    + by rewrite !lookup_insert_eq.
    + by rewrite !lookup_insert_ne.
Qed.

(** The post counts that [getTopUsers] ranks by: [collectPostCounts]
    never fails, and for an id of the directory
    - the count is the cached one when the count cache has the id;
    - otherwise, when nothing is cached under the number the id parses
      to, it is the number of posts the server answers with, and 0 if
      the request fails and no other id parses to the same number. *)
Lemma collectPostCounts_spec (ids : list string) e w :
  NoDup ids →
  ∃ postCounts w',
    collectPostCounts ids e w = (Ok postCounts, w') ∧
    ∀ id, id ∈ ids →
      (∀ c, userPostCountCache (svc w) !! id = Some c →
            postCounts !! id = Some c) ∧
      (userPostCountCache (svc w) !! id = None →
       postsCache (svc w) !! Js.parseInt id = None →
         (∀ posts, answered e id posts → postCounts !! id = Some (length posts)) ∧
         (unanswered e id → numericallyUnique ids id →
            postCounts !! id = Some 0%nat)).
Proof.
  intros Hnd. unfold collectPostCounts. case_bool_decide as Hsize.
  - set (missing := filter (λ id, has (userPostCountCache (svc w)) id = false) ids).
    assert (Hndm : NoDup missing) by by apply NoDup_filter.
    destruct (countPosts_all e (svc w) missing Hndm w ∅ eq_refl)
      as (rs & s' & pc' & w1 & Hrun & Hframe & Hids).
    rewrite Hrun. eexists _, _. split; [done|].
    intros id Hin. simpl. rewrite combine_lookup. split.
    + intros c Hc. rewrite Hframe, Hc; [done|].
      intros Hm. apply list_elem_of_filter in Hm as [Hm _].
      apply has_false in Hm. congruence.
    + intros Hnone Hun.
      assert (Hm : id ∈ missing).
      { apply list_elem_of_filter. split; [by apply has_false|done]. }
      destruct (Hids id Hm) as [Hgood Hbad]. split.
      * intros posts Hans. destruct (Hgood posts Hun Hans) as [_ ->]. done.
      * intros Hdown Huniq. destruct Hbad as [Hpc Hcache].
        { split; [done|]. split; [done|]. intros id' Hin'. apply Huniq.
          by apply list_elem_of_filter in Hin' as [_ ?]. }
        by rewrite Hcache, Hnone.
  - destruct (countPosts_all e (svc w) ids Hnd w ∅ eq_refl)
      as (rs & s' & pc' & w1 & Hrun & Hframe & Hids).
    rewrite Hrun. eexists _, _. split; [done|].
    intros id Hin. destruct (Hids id Hin) as [Hgood Hbad]. split.
    + intros c Hc. exfalso. apply Hsize.
      destruct (decide (userPostCountCache (svc w) = ∅)) as [Hemp|Hne].
      * rewrite Hemp in Hc. by rewrite lookup_empty in Hc.
      * apply map_size_non_empty_iff in Hne. lia.
    + intros Hnone Hun. split.
      * intros posts Hans. by destruct (Hgood posts Hun Hans).
      * intros Hdown Huniq. by destruct Hbad.
Qed.

Lemma keys_nodup (users : Directory.t) : NoDup (Directory.keys users).
Proof.
  unfold Directory.keys. rewrite reverse_Permutation. apply NoDup_remove_dups.
Qed.

(** [getTopUsers] fails when the directory cannot be obtained. *)
Lemma getTopUsers_err limit e w m w1 :
  getUsers e w = (Err m, w1) → getTopUsers limit e w = (Err m, w1).
Proof. intros Hu. unfold getTopUsers. by rewrite Hu. Qed.

Lemma getUsers_frame e w r w1 :
  getUsers e w = (r, w1) →
  svc w1 = svc w ∨ ∃ users t, svc w1 = storeUsers users t (svc w).
Proof.
  unfold getUsers, getUsers_start, getUsers_resume, dateNow. simpl.
  destruct (_ && _); simpl.
  - intros [= _ <-]. by left.
  - destruct (usersEndpoint e _); simpl.
    + intros [= _ <-]. right. by eexists _, _.
    + destruct (nonEmpty _); intros [= _ <-]; by left.
Qed.

Lemma getUsers_counts e w r w1 :
  getUsers e w = (r, w1) →
  userPostCountCache (svc w1) = userPostCountCache (svc w) ∧
  postsCache (svc w1) = postsCache (svc w) ∧
  allPostsCache (svc w1) = allPostsCache (svc w).
Proof.
  intros H. destruct (getUsers_frame _ _ _ _ H) as [->|(users & t & ->)]; done.
Qed.

(** ** [getTopUsers] (C3) *)

Lemma getTopUsers_counts limit e w users w1 :
  getUsers e w = (Ok users, w1) →
  ∃ postCounts w2,
    getTopUsers limit e w
      = (Ok (Js.slice (ranking users postCounts) (Js.Int 0) limit), w2) ∧
    ∀ id c, id ∈ Directory.keys users → countOf e (svc w) id c →
            postCounts !! id = Some c.
Proof.
  intros Hu.
  destruct (collectPostCounts_spec (Directory.keys users) e w1 (keys_nodup _))
    as (pc & w2 & Hc & Hids).
  exists pc, w2. split; [unfold getTopUsers; by rewrite Hu, Hc|].
  destruct (getUsers_counts _ _ _ _ Hu) as (Hcnt & Hposts & _).
  intros id c Hin [Hcached|(Hnone & Hun & posts & Hans & ->)].
  - apply (Hids id Hin). by rewrite Hcnt.
  - apply (Hids id Hin); [by rewrite Hcnt | by rewrite Hposts | done].
Qed.



(** ** The [limit] of [getTopUsers] (C9) *)

Lemma getUsers_error e w m w1 :
  getUsers e w = (Err m, w1) → m = FailedToFetchUsers.
Proof.
  unfold getUsers, getUsers_start, getUsers_resume, dateNow. simpl.
  destruct (_ && _); simpl; [done|].
  destruct (usersEndpoint e _); simpl; [done|].
  destruct (nonEmpty _); [done|]. by intros [= <- _].
Qed.

(** With [limit] 0 the service returns the empty list, and the handler
    answers 200 to [?limit=0]. *)
Lemma C9_counterexample :
  ¬ limit_validated_as_stated ∧
  (Controller.getTopUsers (Some "0") sampleEnv start).1 = Controller.Users200 [].
Proof.
  split; [|reflexivity]. intros H.
  destruct (H (Js.Int 0) sampleEnv start) as (m & w' & Hrun).
  - intros (z & [= <-] & Hz). lia.
  - vm_compute in Hrun. discriminate Hrun.
Qed.

(** C9, as amended.  Neither [getTopUsers] nor its handler validates
    [limit]: the call fails only when the directory cannot be obtained
    (with [FailedToFetchUsers]); otherwise, for every [limit], it
    returns [ranking.slice(0, limit)], which is empty for 0 and for
    [NaN] and is the ranking without its last [k] entries for [-k]; the
    handler then answers 200 whatever the query parameter is. *)
Theorem C9_limit_is_not_validated (e : Env) (w : World) (limit : Js.number) :
  (∀ m w1, getUsers e w = (Err m, w1) →
     m = FailedToFetchUsers ∧ getTopUsers limit e w = (Err m, w1)) ∧
  (∀ users w1, getUsers e w = (Ok users, w1) →
     ∃ postCounts w2,
       getTopUsers limit e w
         = (Ok (Js.slice (ranking users postCounts) (Js.Int 0) limit), w2) ∧
       (limit = Js.Int 0 ∨ limit = Js.NaN →
          Js.slice (ranking users postCounts) (Js.Int 0) limit = []) ∧
       (∀ k : nat, (0 < k)%nat → limit = Js.Int (- Z.of_nat k) →
          Js.slice (ranking users postCounts) (Js.Int 0) limit
          = take (length (ranking users postCounts) - k)
                 (ranking users postCounts))) ∧
  (∀ queryLimit users w1, getUsers e w = (Ok users, w1) →
     ∃ topUsers w2,
       Controller.getTopUsers queryLimit e w = (Controller.Users200 topUsers, w2)).
Proof.
  split; [|split].
  - intros m w1 Hu. split; [by eapply getUsers_error|].
    by apply getTopUsers_err.
  - intros users w1 Hu.
    destruct (getTopUsers_counts limit _ _ _ _ Hu) as (pc & w2 & Hrun & _).
    exists pc, w2. split; [done|]. split.
    + intros [->| ->]; [apply slice_zero | apply slice_NaN].
    + intros k Hk ->. by apply slice_negative.
  - intros q users w1 Hu.
    destruct (getTopUsers_counts (Controller.limitOf q) _ _ _ _ Hu)
      as (pc & w2 & Hrun & _).
    eexists _, w2. unfold Controller.getTopUsers. by rewrite Hrun.
Qed.

Lemma C9_witness :
  (∃ postCounts w2,
     getTopUsers (Js.Int (-1)) sampleEnv start
       = (Ok (Js.slice (ranking (usersCache (svc warm)) postCounts)
                       (Js.Int 0) (Js.Int (-1))), w2)) ∧
  (getTopUsers Js.NaN downEnv start).1 = Err FailedToFetchUsers.
Proof.
  split.
  - destruct (proj1 (proj2 (C9_limit_is_not_validated sampleEnv start (Js.Int (-1))))
                (usersCache (svc warm)) (getUsers sampleEnv start).2 eq_refl)
      as (pc & w2 & Hrun & _).
    by exists pc, w2.
  - destruct (proj1 (C9_limit_is_not_validated downEnv start Js.NaN)
                FailedToFetchUsers (getUsers downEnv start).2 eq_refl)
      as [_ ->].
    reflexivity.
Defined.

(** ** The comment counts of [getPopularPosts] *)

Lemma slice_range {A} (l : list A) (i n : nat) :
  Js.slice l (Js.Int (Z.of_nat i)) (Js.Int (Z.of_nat (i + n))) = take n (drop i l).
Proof.
  unfold Js.slice, Js.clampIndex, Js.toInteger. simpl.
  destruct (Z.ltb_spec (Z.of_nat i) 0) as [?|_]; [lia|].
  destruct (Z.ltb_spec (Z.of_nat (i + n)) 0) as [?|_]; [lia|].
  destruct (decide (i ≤ length l)%nat) as [Hle|Hgt].
  - replace (Z.to_nat (Z.min (Z.of_nat i) (Z.of_nat (length l)))) with i by lia.
    destruct (decide (i + n ≤ length l)%nat).
    + f_equal. lia.
    + rewrite !take_ge; [done|rewrite length_drop; lia..].
  - rewrite !drop_ge by lia. by rewrite !take_nil.
Qed.

Lemma maxOver_ge {A} (f : A → nat) l a : a ∈ l → (f a ≤ maxOver f l)%nat.
Proof.
  induction l as [|b l IH]; intros Hin; [by apply elem_of_nil in Hin|].
  simpl. apply elem_of_cons in Hin as [->|Hin]; [lia|].
  specialize (IH Hin). lia.
Qed.

Lemma maxOver_attained {A} (f : A → nat) l :
  l ≠ [] → ∃ a, a ∈ l ∧ f a = maxOver f l.
Proof.
  induction l as [|b l IH]; intros Hne; [done|]. simpl.
  destruct l as [|c l].
  - exists b. split; [set_solver|]. simpl. lia.
  - destruct IH as (a & Hin & Ha); [done|].
    destruct (decide (f b ≤ maxOver f (c :: l))%nat).
    + exists a. split; [by apply elem_of_cons; right|]. lia.
    + exists b. split; [by apply elem_of_cons; left|]. lia.
Qed.

Lemma maxCount_spec (counts : gmap Z nat) :
  (∀ k c, counts !! k = Some c → (c ≤ maxCount counts)%nat) ∧
  (maxCount counts = 0%nat ∨ ∃ k, counts !! k = Some (maxCount counts)).
Proof.
  unfold maxCount.
  apply (map_fold_weak_ind
           (λ r (m : gmap Z nat),
              (∀ k c, m !! k = Some c → (c ≤ r)%nat) ∧
              (r = 0%nat ∨ ∃ k, m !! k = Some r))).
  - split; [|by left]. intros k c. by rewrite lookup_empty.
  - intros i x m r Hi [Hub Hat]. case_bool_decide as Hlt.
    + split.
      * intros k c. destruct (decide (i = k)) as [->|Hne].
        -- rewrite lookup_insert_eq. intros [= <-]. lia.
        -- rewrite lookup_insert_ne by done. intros Hk.
           specialize (Hub k c Hk). lia.
      * right. exists i. by rewrite lookup_insert_eq.
    + split.
      * intros k c. destruct (decide (i = k)) as [->|Hne].
        -- rewrite lookup_insert_eq. intros [= <-]. lia.
        -- rewrite lookup_insert_ne by done. apply Hub.
      * destruct Hat as [->|[k Hk]]; [by left|]. right. exists k.
        rewrite lookup_insert_ne; [done|]. intros ->. congruence.
Qed.

(** When the keys of the map are exactly the ids of the posts, the
    maximum found by the loop is the maximum over the posts. *)
Lemma maxCount_maxOver (counts : gmap Z nat) (posts : list Post.t) :
  (∀ p, p ∈ posts → is_Some (counts !! Post.id p)) →
  (∀ k, is_Some (counts !! k) → k ∈ Post.id <$> posts) →
  maxCount counts = maxOver (countIn counts) posts.
Proof.
  intros Hcov Hkeys. destruct (maxCount_spec counts) as [Hub Hat].
  apply Nat.le_antisymm.
  - destruct Hat as [->|[k Hk]]; [lia|].
    assert (Hin : k ∈ Post.id <$> posts) by (apply Hkeys; by eexists).
    apply list_elem_of_fmap in Hin as (p & -> & Hp).
    etrans; [|by apply (maxOver_ge (countIn counts) posts p)].
    unfold countIn. by rewrite Hk.
  - destruct posts as [|p posts]; [simpl; lia|].
    destruct (maxOver_attained (countIn counts) (p :: posts)) as (a & Hin & <-);
      [done|].
    destruct (Hcov a Hin) as [c Hc]. unfold countIn. rewrite Hc. simpl.
    by eapply Hub.
Qed.

Lemma afterSync_settled s p batch slots v before after :
  v = syncValue s (Post.id p) →
  afterSync s batch slots (<[Post.id p := v]> before) after →
  afterSync s (p :: batch) (Settled (Ok ()) :: slots) before after.
Proof.
  intros -> [Ha Hb]. split.
  - intros [|j] q Hq Hs; simpl in *; [|by eapply Ha].
    inversion Hq; subst q.
    destruct (Hb (Post.id p)) as [->|[_ ->]]; [|done].
    by rewrite lookup_insert_eq.
  - intros postId. rewrite fmap_cons.
    destruct (Hb postId) as [Heq|[Hin Heq]].
    + destruct (decide (postId = Post.id p)) as [->|Hne].
      * right. rewrite Heq, lookup_insert_eq. split; [|done].
        apply elem_of_cons. by left.
      * left. by rewrite Heq, lookup_insert_ne.
    + right. split; [|done]. apply elem_of_cons. by right.
Qed.

Lemma afterSync_pending s p batch slots req k before after :
  afterSync s batch slots before after →
  afterSync s (p :: batch) (Pending req k :: slots) before after.
Proof.
  intros [Ha Hb]. split.
  - intros [|j] q Hq Hs; simpl in *; [done|by eapply Ha].
  - intros postId. rewrite fmap_cons.
    destruct (Hb postId) as [Heq|[Hin Heq]]; [by left|].
    right. split; [|done]. apply elem_of_cons. by right.
Qed.

Lemma startAll_countComments e batch : ∀ w counts,
  ∃ slots w1 counts1,
    startAll (countComments <$> batch) e w counts = (slots, w1, counts1) ∧
    svc w1 = svc w ∧
    Forall2 (commentsSlot e (svc w)) batch slots ∧
    afterSync (svc w) batch slots counts counts1.
Proof.
  induction batch as [|p batch IH]; intros w counts; simpl.
  - exists [], w, counts. split; [done|]. split; [done|].
    split; [constructor|]. split; [by intros []|]. by left.
  - unfold countComments at 1.
    destruct (has (postCommentCountCache (svc w)) (Post.id p)) eqn:Hcount.
    + apply has_true in Hcount as Hsome.
      edestruct IH as (slots & w1 & c1 & -> & Hsvc & Hall & Hsync).
      eexists _, _, _. split; [done|]. split; [exact Hsvc|]. split.
      * constructor; [|exact Hall]. left. split; [done|]. by left.
      * eapply afterSync_settled; [|exact Hsync].
        unfold syncValue. by destruct Hsome as [c ->].
    + apply has_false in Hcount.
      unfold getPostComments_start, dateNow. simpl.
      destruct (has (commentsCache (svc w)) (Post.id p)) eqn:Hcomments; simpl.
      * destruct (_ && _); simpl.
        -- edestruct IH as (slots & w1 & c1 & -> & Hsvc & Hall & Hsync).
           eexists _, _, _. split; [done|]. split; [exact Hsvc|]. split.
           ++ constructor; [|exact Hall]. left. split; [done|]. right.
              by apply has_true.
           ++ eapply afterSync_settled; [|exact Hsync].
              unfold syncValue. by rewrite Hcount.
        -- edestruct IH as (slots & w1 & c1 & -> & Hsvc & Hall & Hsync).
           eexists _, _, _. split; [done|]. split; [exact Hsvc|]. split.
           ++ constructor; [|exact Hall]. right. by eexists _, _.
           ++ by apply afterSync_pending.
      * edestruct IH as (slots & w1 & c1 & -> & Hsvc & Hall & Hsync).
        eexists _, _, _. split; [done|]. split; [exact Hsvc|]. split.
        -- constructor; [|exact Hall]. right. by eexists _, _.
        -- by apply afterSync_pending.
Qed.

(** The rest of a callback of [countComments]: it records one count for
    its post and touches the caches of that post only. *)
Lemma countComments_resume_shape postId t response s counts :
  ∃ v s',
    thenRecord (recordComments postId)
               (getPostComments_resume postId t response) (s, counts)
      = (Ok (), (s', <[postId := v]> counts)) ∧
    allPostsCache s' = allPostsCache s ∧
    (∀ postId', postId' ≠ postId →
       postCommentCountCache s' !! postId' = postCommentCountCache s !! postId' ∧
       commentsCache s' !! postId' = commentsCache s !! postId') ∧
    (commentsCache s !! postId = None →
       match response with
       | Some comments => v = length comments
       | None => v = 0%nat
       end).
Proof.
  unfold thenRecord, getPostComments_resume.
  destruct response as [comments|].
  - eexists _, _. split; [done|]. split; [done|]. split; [|done].
    intros postId' Hne. simpl. by rewrite !lookup_insert_ne.
  - destruct (has (commentsCache s) postId) eqn:Hhas.
    + eexists _, _. split; [done|]. split; [done|]. split; [done|].
      intros Hnone. apply has_true in Hhas. rewrite Hnone in Hhas.
      by destruct Hhas.
    + eexists _, _. split; [done|]. done.
Qed.

Lemma NoDup_ids_split (before batch rest : list Post.t) :
  NoDup (Post.id <$> before ++ batch ++ rest) →
  (∀ p q, p ∈ before → q ∈ batch → Post.id p ≠ Post.id q) ∧
  (∀ p q, p ∈ rest → q ∈ batch → Post.id p ≠ Post.id q) ∧
  (∀ j j' p q, batch !! j = Some p → batch !! j' = Some q → j ≠ j' →
               Post.id p ≠ Post.id q).
Proof.
  rewrite !fmap_app. intros Hnd.
  apply NoDup_app in Hnd as (_ & Hdisj & Hnd).
  apply NoDup_app in Hnd as (Hb & Hdisj' & _).
  split; [|split].
  - intros p q Hp Hq Heq. apply (Hdisj (Post.id p)).
    + apply list_elem_of_fmap. by exists p.
    + apply elem_of_app. left. rewrite Heq. apply list_elem_of_fmap. by exists q.
  - intros p q Hp Hq Heq. apply (Hdisj' (Post.id q)).
    + apply list_elem_of_fmap. by exists q.
    + rewrite <- Heq. apply list_elem_of_fmap. by exists p.
  - intros j j' p q Hj Hj' Hne Heq. apply Hne.
    apply (NoDup_lookup (Post.id <$> batch) j j' (Post.id p)); [done|..].
    + by rewrite list_lookup_fmap, Hj.
    + by rewrite list_lookup_fmap, Hj', Heq.
Qed.

Section CountComments.
Context (e : Env) (s0 : DataService).
Let allPosts := allPostsCache s0.
Let distinct : Prop := NoDup (Post.id <$> allPosts).

(** The caches of a post are as they were when the loop started. *)
Let untouched (s : DataService) (postId : Z) : Prop :=
  postCommentCountCache s !! postId = postCommentCountCache s0 !! postId ∧
  commentsCache s !! postId = commentsCache s0 !! postId.

(** The invariant of the loop of lines 219-235, when the posts before
    index [i] have been counted. *)
Definition loopInv (i : nat) (σ : DataService * gmap Z nat) : Prop :=
  allPostsCache σ.1 = allPosts ∧
  (∀ postId, is_Some (σ.2 !! postId) → postId ∈ Post.id <$> take i allPosts) ∧
  (∀ p, p ∈ take i allPosts → is_Some (σ.2 !! Post.id p)) ∧
  (distinct →
     (∀ p c, p ∈ take i allPosts → tertiaryCount e s0 (Post.id p) c →
             σ.2 !! Post.id p = Some c) ∧
     (∀ p, p ∈ drop i allPosts → untouched σ.1 (Post.id p))).

Lemma loopInv_start : loopInv 0 (s0, ∅).
Proof.
  split; [done|]. split; [|split; [|split]]; simpl.
  - intros postId. rewrite lookup_empty. by intros [].
  - intros p Hp. by apply elem_of_nil in Hp.
  - intros p c Hp. by apply elem_of_nil in Hp.
  - by intros p _.
Qed.

Lemma batch_spec (i : nat) w counts :
  loopInv i (svc w, counts) →
  ∃ rs s' counts' w1,
    promiseAll (countComments <$> take batchSize (drop i allPosts)) e w counts
      = (Ok rs, withSvc s' w1, counts') ∧
    loopInv (i + batchSize) (s', counts').
Proof.
  intros (Hall & Hkeys & Hcov & Hdist).
  set (batch := take batchSize (drop i allPosts)).
  assert (Htake : take (i + batchSize) allPosts = take i allPosts ++ batch).
  { symmetry. apply take_take_drop. }
  assert (Hdrop : drop i allPosts = batch ++ drop (i + batchSize) allPosts).
  { unfold batch. rewrite <- (take_drop batchSize (drop i allPosts)) at 1.
    by rewrite drop_drop. }
  assert (Hsplit : allPosts
                   = take i allPosts ++ batch ++ drop (i + batchSize) allPosts).
  { by rewrite <- Hdrop, take_drop. }
  assert (Hsep : distinct →
            (∀ p q, p ∈ take i allPosts → q ∈ batch → Post.id p ≠ Post.id q) ∧
            (∀ p q, p ∈ drop (i + batchSize) allPosts → q ∈ batch →
                    Post.id p ≠ Post.id q) ∧
            (∀ j j' p q, batch !! j = Some p → batch !! j' = Some q → j ≠ j' →
                         Post.id p ≠ Post.id q)).
  { intros Hd. apply NoDup_ids_split. by rewrite <- Hsplit. }
  destruct (startAll_countComments e batch w counts)
    as (slots0 & w1 & counts1 & Hstart & Hsvc & Hslots & Hafter & Hframe).
  set (I := λ σ : DataService * gmap Z nat,
         allPostsCache σ.1 = allPosts ∧
         (∀ postId, is_Some (σ.2 !! postId) →
                    postId ∈ Post.id <$> take (i + batchSize) allPosts) ∧
         (∀ p, p ∈ take i allPosts → is_Some (σ.2 !! Post.id p)) ∧
         (distinct →
            (∀ p c, p ∈ take i allPosts → tertiaryCount e s0 (Post.id p) c →
                    σ.2 !! Post.id p = Some c) ∧
            (∀ p, p ∈ drop (i + batchSize) allPosts → untouched σ.1 (Post.id p)))).
  set (P := λ (j : nat) (σ : DataService * gmap Z nat),
         distinct → ∀ p, batch !! j = Some p → untouched σ.1 (Post.id p)).
  set (Q := λ (j : nat) (σ : DataService * gmap Z nat),
         ∀ p, batch !! j = Some p →
           is_Some (σ.2 !! Post.id p) ∧
           (distinct → ∀ c, tertiaryCount e s0 (Post.id p) c →
                            σ.2 !! Post.id p = Some c)).
  assert (Hbatch_start : distinct → ∀ p, p ∈ batch → untouched (svc w) (Post.id p)).
  { intros Hd p Hp. apply (Hdist Hd). rewrite Hdrop. apply elem_of_app. by left. }
  destruct (promiseAll_inv I P Q _ _ _ _ _ _ _ Hstart)
    as (rs & s' & counts' & Hrun & HI & HQ).
  - (* every continuation keeps the invariants *)
    intros j req k [s c] Hj (HIa & HIk & HIc & HId) HP.
    destruct (Forall2_lookup_r _ _ _ _ _ Hslots Hj) as (p & Hp & Hslot).
    destruct Hslot as [[? _]|(n & t & Hnone & Hk)]; [done|].
    inversion Hk; subst req k; clear Hk.
    assert (Hpin : p ∈ batch) by by eapply list_elem_of_lookup_2.
    destruct (countComments_resume_shape (Post.id p) t
                (commentsEndpoint e n (Post.id p)) s c)
      as (v & s1 & Hk & Hposts & Hothers & Hvalue).
    exists (), (s1, <[Post.id p := v]> c). split; [done|].
    unfold I, P, Q, untouched in *. simpl in *. split; [|split].
    + split; [by rewrite Hposts|]. split; [|split].
      * intros postId. destruct (decide (postId = Post.id p)) as [->|Hne].
        -- intros _. rewrite Htake, fmap_app. apply elem_of_app. right.
           apply list_elem_of_fmap. by exists p.
        -- rewrite lookup_insert_ne by done. apply HIk.
      * intros q Hq. destruct (decide (Post.id q = Post.id p)) as [->|Hne].
        -- by rewrite lookup_insert_eq.
        -- rewrite lookup_insert_ne by done. by apply HIc.
      * intros Hd. destruct (HId Hd) as [Hdone Hrest].
        destruct (Hsep Hd) as (Hs1 & Hs2 & _). split.
        -- intros q c' Hq Hc'. rewrite lookup_insert_ne; [by apply Hdone|].
           intros Heq. by apply (Hs1 q p).
        -- intros q Hq. destruct (Hrest q Hq) as [Hr1 Hr2].
           destruct (Hothers (Post.id q)) as [-> ->]; [by apply Hs2|done].
    + intros q Hq. assert (q = p) as -> by congruence.
      split; [by rewrite lookup_insert_eq|].
      intros Hd c' Hc'. rewrite lookup_insert_eq. f_equal.
      destruct (HP Hd p Hp) as [Hu1 Hu2].
      destruct (Hbatch_start Hd p Hpin) as [Hb1 Hb2].
      rewrite Hb1 in Hnone.
      destruct Hc' as [Hc'|(_ & Hcn & Hc')]; [congruence|].
      rewrite Hcn in Hu2. specialize (Hvalue Hu2).
      destruct Hc' as [(comments & Hans & ->)|[Hdown ->]].
      * by rewrite (Hans n) in Hvalue.
      * by rewrite (Hdown n) in Hvalue.
    + intros j' Hne. split.
      * intros HPj Hd q Hq. destruct (HPj Hd q Hq) as [Hu1 Hu2].
        destruct (Hsep Hd) as (_ & _ & Hs3).
        destruct (Hothers (Post.id q)) as [-> ->]; [|done].
        by apply (Hs3 j' j q p).
      * intros HQj q Hq. destruct (HQj q Hq) as [Hq1 Hq2]. split.
        -- destruct (decide (Post.id q = Post.id p)) as [->|Hneq].
           ++ by rewrite lookup_insert_eq.
           ++ by rewrite lookup_insert_ne.
        -- intros Hd c' Hc'. destruct (Hsep Hd) as (_ & _ & Hs3).
           rewrite lookup_insert_ne; [by apply Hq2|].
           intros Heq. by apply (Hs3 j j' p q).
  - (* the invariants hold after the synchronous part *)
    split; [|split; [done|]].
    + unfold I, untouched in *. rewrite Hsvc. simpl. split; [done|].
      split; [|split].
      * intros postId Hsome.
        destruct (Hframe postId) as [Heq|[Hin _]].
        -- rewrite Heq in Hsome. rewrite Htake, fmap_app.
           apply elem_of_app. left. by apply Hkeys.
        -- rewrite Htake, fmap_app. apply elem_of_app. by right.
      * intros p Hp. destruct (Hframe (Post.id p)) as [->|[_ ->]]; [|done].
        by apply Hcov.
      * intros Hd. destruct (Hdist Hd) as [Hdone Hrest].
        destruct (Hsep Hd) as (Hs1 & _ & _). split.
        -- intros p c Hp Hc.
           destruct (Hframe (Post.id p)) as [->|[Hin _]]; [by apply Hdone|].
           apply list_elem_of_fmap in Hin as (q & Heq & Hq).
           by destruct (Hs1 p q).
        -- intros p Hp. apply Hrest. rewrite Hdrop. apply elem_of_app. by right.
    + intros j st Hj.
      destruct (Forall2_lookup_r _ _ _ _ _ Hslots Hj) as (p & Hp & Hslot).
      assert (Hpin : p ∈ batch) by by eapply list_elem_of_lookup_2.
      destruct Hslot as [[-> Hcached]|(n & t & Hnone & ->)];
        unfold P, Q, untouched in *; simpl.
      * intros q Hq. assert (q = p) as -> by congruence.
        rewrite (Hafter j p Hp Hj). split; [done|].
        intros Hd c Hc. f_equal.
        destruct (Hbatch_start Hd p Hpin) as [Hb1 Hb2].
        unfold syncValue. rewrite Hb1.
        destruct Hc as [->|(Hc1 & Hc2 & _)]; [done|].
        rewrite Hb1, Hb2, Hc1, Hc2 in Hcached.
        destruct Hcached as [[? ?]|[? ?]]; done.
      * split; [done|]. intros Hd q Hq. assert (q = p) as -> by congruence.
        rewrite Hsvc. by apply Hbatch_start.
  - exists rs, s', counts', w1. split; [done|].
    destruct HI as (HIa & HIk & HIc & HId).
    assert (Hlen : length slots0 = length batch)
      by (symmetry; by eapply Forall2_length).
    split; [done|]. split; [done|]. split; [|].
    + intros p. rewrite Htake. intros Hp.
      apply elem_of_app in Hp as [Hp|Hp]; [by apply HIc|].
      apply list_elem_of_lookup in Hp as [j Hj].
      apply (HQ j); [|done]. rewrite Hlen. by eapply lookup_lt_Some.
    + intros Hd. destruct (HId Hd) as [Hdone Hrest]. split; [|done].
      intros p c. rewrite Htake. intros Hp Hc.
      apply elem_of_app in Hp as [Hp|Hp]; [by apply Hdone|].
      apply list_elem_of_lookup in Hp as [j Hj].
      apply (HQ j); [|done..]. rewrite Hlen. by eapply lookup_lt_Some.
Qed.
End CountComments.

Lemma loopInv_end e s0 i σ :
  (length (allPostsCache s0) ≤ i)%nat →
  loopInv e s0 i σ → loopInv e s0 (length (allPostsCache s0)) σ.
Proof.
  intros Hle. unfold loopInv.
  by rewrite (take_ge _ i), (drop_ge _ i), firstn_all, drop_all by lia.
Qed.

(** The loop counts every post, whatever the answers and the orders of
    completion are. *)
Lemma batches_spec e s0 : ∀ fuel i w counts,
  (length (allPostsCache s0) ≤ i + fuel * batchSize)%nat →
  loopInv e s0 i (svc w, counts) →
  ∃ w' counts',
    batches fuel i (allPostsCache s0) e w counts = (Ok (), w', counts') ∧
    loopInv e s0 (length (allPostsCache s0)) (svc w', counts').
Proof.
  induction fuel as [|fuel IH]; intros i w counts Hfuel Hinv; simpl.
  - exists w, counts. split; [done|]. apply (loopInv_end e s0 i); [lia|done].
  - case_bool_decide as Hlt.
    + rewrite slice_range.
      destruct (batch_spec e s0 i w counts Hinv)
        as (rs & s' & counts' & w1 & -> & Hinv').
      apply IH; [lia|done].
    + exists w, counts. split; [done|]. apply (loopInv_end e s0 i); [lia|done].
Qed.

(** More fuel than the number of posts changes nothing. *)
Lemma batches_fuel allPosts e : ∀ fuel fuel' i w counts,
  (length allPosts ≤ i + fuel * batchSize)%nat →
  (length allPosts ≤ i + fuel' * batchSize)%nat →
  batches fuel i allPosts e w counts = batches fuel' i allPosts e w counts.
Proof.
  induction fuel as [|fuel IH]; intros [|fuel'] i w counts H H'; simpl; try done.
  - by rewrite bool_decide_eq_false_2 by lia.
  - by rewrite bool_decide_eq_false_2 by lia.
  - case_bool_decide; [|done].
    destruct (promiseAll _ e w counts) as [[[rs|m] w1] counts1]; [|done].
    apply IH; lia.
Qed.

Lemma filter_ext_in {A} (P1 P2 : A → Prop)
    `{!∀ x, Decision (P1 x)} `{!∀ x, Decision (P2 x)} (l : list A) :
  (∀ x, x ∈ l → P1 x ↔ P2 x) → filter P1 l = filter P2 l.
Proof.
  induction l as [|a l IH]; intros Hext; [done|].
  rewrite !filter_cons, IH.
  - destruct (Hext a) as [Ha1 Ha2]; [by apply elem_of_cons; left|].
    repeat case_decide; try done; tauto.
  - intros x Hx. apply Hext. apply elem_of_cons. by right.
Qed.

(** From the merged view on, [getPopularPosts] cannot fail: it computes
    a count for every post and returns the posts of largest count. *)
Lemma popularAmong_spec e w :
  ∃ counts w',
    popularAmong e w
      = (Ok (counts, mostCommented counts (allPostsCache (svc w))), w') ∧
    (∀ p, p ∈ allPostsCache (svc w) → is_Some (counts !! Post.id p)) ∧
    (NoDup (Post.id <$> allPostsCache (svc w)) →
     ∀ p c, p ∈ allPostsCache (svc w) → tertiaryCount e (svc w) (Post.id p) c →
            counts !! Post.id p = Some c).
Proof.
  unfold popularAmong. cbv zeta.
  destruct (batches_spec e (svc w) (length (allPostsCache (svc w))) 0 w ∅)
    as (w' & counts & Hrun & Hall & Hkeys & Hcov & Hdist).
  { unfold batchSize. lia. }
  { apply loopInv_start. }
  rewrite firstn_all in Hkeys, Hcov, Hdist.
  rewrite Hrun. simpl in *. exists counts, w'. split; [|split; [done|]].
  - do 3 f_equal. rewrite Hall. unfold mostCommented.
    rewrite (maxCount_maxOver counts _ Hcov Hkeys).
    apply filter_ext_in. intros p Hp. unfold countIn.
    destruct (Hcov p Hp) as [c ->]. simpl. split; congruence.
  - intros Hd. by apply Hdist.
Qed.

Lemma getPopularPosts_ok e w users w1 w2 :
  getUsers e w = (Ok users, w1) →
  ensureAllPosts (Directory.keys users) e w1 = (Ok (), w2) →
  ∃ counts w3,
    getPopularPosts e w
      = (Ok (mostCommented counts (allPostsCache (svc w2))), w3) ∧
    (∀ p, p ∈ allPostsCache (svc w2) → is_Some (counts !! Post.id p)) ∧
    (NoDup (Post.id <$> allPostsCache (svc w2)) →
     ∀ p c, p ∈ allPostsCache (svc w2) →
            tertiaryCount e (svc w2) (Post.id p) c →
            counts !! Post.id p = Some c).
Proof.
  intros Hu He.
  destruct (popularAmong_spec e w2) as (counts & w3 & Hrun & Hcov & Hdist).
  exists counts, w3. split; [|done].
  unfold getPopularPosts. by rewrite Hu, He, Hrun.
Qed.

Lemma mostCommented_elem counts merged p :
  p ∈ mostCommented counts merged ↔
  p ∈ merged ∧ ∀ q, q ∈ merged → (countIn counts q ≤ countIn counts p)%nat.
Proof.
  unfold mostCommented. rewrite list_elem_of_filter. split.
  - intros [Heq Hp]. split; [done|]. intros q Hq. rewrite Heq.
    by apply maxOver_ge.
  - intros [Hp Hmax]. split; [|done].
    destruct (maxOver_attained (countIn counts) merged) as (a & Ha & Hamax).
    { intros ->. by apply elem_of_nil in Hp. }
    pose proof (maxOver_ge (countIn counts) merged p Hp).
    pose proof (Hmax a Ha). lia.
Qed.

Lemma filter_all_in {A} (P : A → Prop) `{!∀ x, Decision (P x)} (l : list A) :
  (∀ x, x ∈ l → P x) → filter P l = l.
Proof.
  induction l as [|a l IH]; intros Hall; [done|].
  rewrite filter_cons_True by (apply Hall, elem_of_cons; by left).
  rewrite IH; [done|]. intros x Hx. apply Hall, elem_of_cons. by right.
Qed.

Lemma mostCommented_all_equal counts merged :
  (∀ p q, p ∈ merged → q ∈ merged → countIn counts p = countIn counts q) →
  mostCommented counts merged = merged.
Proof.
  intros Heq. unfold mostCommented. apply filter_all_in. intros p Hp.
  destruct (maxOver_attained (countIn counts) merged) as (b & Hb & <-).
  - intros ->. by apply elem_of_nil in Hp.
  - by apply Heq.
Qed.

(** ** [getPopularPosts] (C4) *)

(** C4.  Once the directory is obtained and the merged view is in place,
    [getPopularPosts] returns the posts of the merged view whose comment
    count equals the largest comment count of the merged view, in the
    order of the merged view: every post has a count (the cached one, or
    the number of comments fetched, or 0 when the fetch fails), the
    maximum is 0 for an empty merged view, whose result is empty, every
    post tied at the maximum is returned, and all posts are returned
    when all counts are equal.  For three posts with counts 2, 5 and 5
    the result is the second and the third. *)
Theorem C4_popular_posts_are_the_most_commented (e : Env) (w : World) :
  (∀ users w1 w2,
     getUsers e w = (Ok users, w1) →
     ensureAllPosts (Directory.keys users) e w1 = (Ok (), w2) →
     ∃ counts w3,
       getPopularPosts e w
         = (Ok (mostCommented counts (allPostsCache (svc w2))), w3) ∧
       (∀ p, p ∈ allPostsCache (svc w2) → is_Some (counts !! Post.id p)) ∧
       (NoDup (Post.id <$> allPostsCache (svc w2)) →
        ∀ p c, p ∈ allPostsCache (svc w2) →
               tertiaryCount e (svc w2) (Post.id p) c →
               counts !! Post.id p = Some c)) ∧
  (∀ counts merged,
     mostCommented counts merged
       = filter (λ p, countIn counts p = maxOver (countIn counts) merged) merged ∧
     (∀ p, p ∈ mostCommented counts merged ↔
           p ∈ merged ∧
           ∀ q, q ∈ merged → (countIn counts q ≤ countIn counts p)%nat) ∧
     maxOver (countIn counts) [] = 0%nat ∧
     mostCommented counts [] = [] ∧
     ((∀ p q, p ∈ merged → q ∈ merged → countIn counts p = countIn counts q) →
      mostCommented counts merged = merged)) ∧
  (∀ users w1 w2 p1 p2 p3,
     getUsers e w = (Ok users, w1) →
     ensureAllPosts (Directory.keys users) e w1 = (Ok (), w2) →
     allPostsCache (svc w2) = [p1; p2; p3] →
     NoDup [Post.id p1; Post.id p2; Post.id p3] →
     tertiaryCount e (svc w2) (Post.id p1) 2 →
     tertiaryCount e (svc w2) (Post.id p2) 5 →
     tertiaryCount e (svc w2) (Post.id p3) 5 →
     ∃ w3, getPopularPosts e w = (Ok [p2; p3], w3)).
Proof.
  split; [|split].
  - intros users w1 w2. apply getPopularPosts_ok.
  - intros counts merged. split; [done|].
    split; [apply mostCommented_elem|]. split; [done|]. split; [done|].
    apply mostCommented_all_equal.
  - intros users w1 w2 p1 p2 p3 Hu He Hall Hnd H1 H2 H3.
    destruct (getPopularPosts_ok e w users w1 w2 Hu He)
      as (counts & w3 & Hrun & _ & Hcounts).
    rewrite Hall in Hrun, Hcounts. specialize (Hcounts Hnd).
    exists w3. rewrite Hrun. do 2 f_equal.
    assert (K1 : countIn counts p1 = 2%nat).
    { unfold countIn. rewrite (Hcounts p1 2%nat); [done|set_solver|done]. }
    assert (K2 : countIn counts p2 = 5%nat).
    { unfold countIn. rewrite (Hcounts p2 5%nat); [done|set_solver|done]. }
    assert (K3 : countIn counts p3 = 5%nat).
    { unfold countIn. rewrite (Hcounts p3 5%nat); [done|set_solver|done]. }
    unfold mostCommented. simpl maxOver. rewrite K1, K2, K3.
    rewrite !filter_cons, filter_nil, K1, K2, K3. reflexivity.
Qed.

Lemma C4_witness :
  (∃ w3, getPopularPosts popularEnv start
         = (Ok [Post.mk 2 1 "b" (Some 1001); Post.mk 3 1 "c" (Some 1001)], w3)) ∧
  (∃ counts w3,
     getPopularPosts sampleEnv start
       = (Ok (mostCommented counts (allPostsCache (svc allOwners))), w3) ∧
     counts !! 12 = Some 2%nat).
Proof.
  split.
  - apply (proj2 (proj2 (C4_popular_posts_are_the_most_commented popularEnv start))
             [("1", "Alice")] (getUsers popularEnv start).2
             (ensureAllPosts ["1"] popularEnv (getUsers popularEnv start).2).2
             (Post.mk 1 1 "a" (Some 1001)));
      [reflexivity | reflexivity | reflexivity
      | apply (bool_decide_unpack _); vm_compute; exact Logic.I | ..];
      (right; split; [reflexivity|]; split; [reflexivity|]; left;
       eexists; split; [intros n; reflexivity|reflexivity]).
  - destruct (proj1 (C4_popular_posts_are_the_most_commented sampleEnv start)
                [("1", "Alice"); ("2", "Bob"); ("3", "Carol")]
                (getUsers sampleEnv start).2 allOwners eq_refl eq_refl)
      as (counts & w3 & Hrun & _ & Hcounts).
    exists counts, w3. split; [exact Hrun|].
    apply (λ Hnd, Hcounts Hnd (Post.mk 12 1 "b" (Some 1001)) 2%nat).
    + apply (bool_decide_unpack _). vm_compute. exact Logic.I.
    + apply (bool_decide_unpack _). vm_compute. exact Logic.I.
    + right. split; [reflexivity|]. split; [reflexivity|]. left.
      exists (sampleComments 12). split; [intros n; reflexivity|reflexivity].
Defined.

(** ** Failed fetches of individual ids (C8) *)

Lemma getTopUsers_degrades limit e w users w1 :
  getUsers e w = (Ok users, w1) →
  ∃ postCounts w2,
    getTopUsers limit e w
      = (Ok (Js.slice (ranking users postCounts) (Js.Int 0) limit), w2) ∧
    ∀ id, id ∈ Directory.keys users →
          userPostCountCache (svc w) !! id = None →
          postsCache (svc w) !! Js.parseInt id = None →
          unanswered e id → numericallyUnique (Directory.keys users) id →
          postCounts !! id = Some 0%nat.
Proof.
  intros Hu.
  destruct (collectPostCounts_spec (Directory.keys users) e w1 (keys_nodup _))
    as (pc & w2 & Hc & Hids).
  exists pc, w2. split; [unfold getTopUsers; by rewrite Hu, Hc|].
  destruct (getUsers_counts _ _ _ _ Hu) as (Hcnt & Hposts & _).
  intros id Hin Hnone Hun Hdown Huniq.
  apply (Hids id Hin); [by rewrite Hcnt | by rewrite Hposts | done..].
Qed.

(** A, B and C all parse to [NaN] and share one entry of [postsCache]:
    when the request for B fails, the posts just stored for A are found
    there, and B is ranked with 3 posts. *)
Lemma C8_counterexample : ¬ failed_fetch_counts_zero_as_stated.
Proof.
  intros H.
  assert (Hrun : getTopUsers (Js.Int 5) abcDownEnv start
                 = (Ok [TopUser.mk "C" "Carol" 5; TopUser.mk "A" "Alice" 3;
                        TopUser.mk "B" "Bob" 3],
                    snd (getTopUsers (Js.Int 5) abcDownEnv start)))
    by reflexivity.
  assert (H0 : TopUser.postCount (TopUser.mk "B" "Bob" 3) = 0%nat); [|done].
  eapply (H _ _ _ _ _ "B" Hrun).
  - apply (bool_decide_unpack _). vm_compute. exact Logic.I.
  - apply (bool_decide_unpack _). vm_compute. exact Logic.I.
  - intros n. reflexivity.
  - apply (bool_decide_unpack _). vm_compute. exact Logic.I.
  - reflexivity.
Qed.

(** C8, as amended.  Once the directory is obtained, [getTopUsers]
    returns normally whatever the requests for posts answer, and from
    the merged view on [getPopularPosts] returns normally whatever the
    requests for comments answer, every post of every batch getting a
    count.  The count recorded for an id whose request fails is 0 when
    nothing is cached for it: in [getTopUsers], no count for the id, no
    posts under the number the id parses to, and no other id of the
    directory parsing to the same number; in [getPopularPosts], no count
    and no comments for the post, the ids of the merged view being
    distinct. *)
Theorem C8_failed_fetches_degrade (e : Env) (w : World) :
  (∀ limit users w1,
     getUsers e w = (Ok users, w1) →
     ∃ postCounts w2,
       getTopUsers limit e w
         = (Ok (Js.slice (ranking users postCounts) (Js.Int 0) limit), w2) ∧
       ∀ id, id ∈ Directory.keys users →
             userPostCountCache (svc w) !! id = None →
             postsCache (svc w) !! Js.parseInt id = None →
             unanswered e id → numericallyUnique (Directory.keys users) id →
             postCounts !! id = Some 0%nat ∧
             toTopUser users postCounts id
               = TopUser.mk id (Directory.prop users id) 0) ∧
  (∃ counts w',
     popularAmong e w
       = (Ok (counts, mostCommented counts (allPostsCache (svc w))), w') ∧
     (∀ p, p ∈ allPostsCache (svc w) → is_Some (counts !! Post.id p)) ∧
     (NoDup (Post.id <$> allPostsCache (svc w)) →
      ∀ p, p ∈ allPostsCache (svc w) →
           postCommentCountCache (svc w) !! Post.id p = None →
           commentsCache (svc w) !! Post.id p = None →
           (∀ n, commentsEndpoint e n (Post.id p) = None) →
           counts !! Post.id p = Some 0%nat)) ∧
  (∀ users w1 w2,
     getUsers e w = (Ok users, w1) →
     ensureAllPosts (Directory.keys users) e w1 = (Ok (), w2) →
     ∃ popularPosts w3, getPopularPosts e w = (Ok popularPosts, w3)).
Proof.
  split; [|split].
  - intros limit users w1 Hu.
    destruct (getTopUsers_degrades limit _ _ _ _ Hu) as (pc & w2 & Hrun & Hzero).
    exists pc, w2. split; [done|].
    intros id Hin Hnone Hun Hdown Huniq.
    specialize (Hzero id Hin Hnone Hun Hdown Huniq). split; [done|].
    unfold toTopUser. by rewrite Hzero.
  - destruct (popularAmong_spec e w) as (counts & w' & Hrun & Hcov & Hdist).
    exists counts, w'. split; [done|]. split; [done|].
    intros Hnd p Hp Hnone Hnone' Hdown. apply (Hdist Hnd p 0%nat Hp).
    right. split; [done|]. split; [done|]. by right.
  - intros users w1 w2 Hu He.
    destruct (getPopularPosts_ok e w users w1 w2 Hu He) as (counts & w3 & Hrun & _).
    by eexists _, _.
Qed.

Lemma C8_witness :
  (∃ postCounts w2,
     getTopUsers defaultLimit partialEnv start
       = (Ok (Js.slice (ranking [("1", "Alice"); ("2", "Bob"); ("3", "Carol")]
                                postCounts) (Js.Int 0) defaultLimit), w2) ∧
     postCounts !! "2" = Some 0%nat) ∧
  (∃ counts w',
     popularAmong partialEnv oneOwner
       = (Ok (counts, mostCommented counts (allPostsCache (svc oneOwner))), w') ∧
     counts !! 12 = Some 0%nat).
Proof.
  split.
  - destruct (proj1 (C8_failed_fetches_degrade partialEnv start) defaultLimit
                [("1", "Alice"); ("2", "Bob"); ("3", "Carol")]
                (getUsers partialEnv start).2 eq_refl)
      as (pc & w2 & Hrun & Hzero).
    exists pc, w2. split; [exact Hrun|].
    apply (Hzero "2"); [| reflexivity | reflexivity | intros n; reflexivity |].
    + apply (bool_decide_unpack _). vm_compute. exact Logic.I.
    + intros id' Hin Hp. change (id' ∈ ["1"; "2"; "3"]) in Hin.
      repeat (apply elem_of_cons in Hin as [->|Hin]);
        try reflexivity; try discriminate Hp.
      by apply elem_of_nil in Hin.
  - destruct (proj1 (proj2 (C8_failed_fetches_degrade partialEnv oneOwner)))
      as (counts & w' & Hrun & _ & Hzero).
    exists counts, w'. split; [exact Hrun|].
    apply (λ Hnd, Hzero Hnd (Post.mk 12 1 "b" (Some 1001)));
      [| | reflexivity | reflexivity | intros n; reflexivity].
    + apply (bool_decide_unpack _). vm_compute. exact Logic.I.
    + apply (bool_decide_unpack _). vm_compute. exact Logic.I.
Defined.

(** ** The merged view (C6) *)

(** A lookup that went to the server and was answered. *)
Lemma getUserPosts_refreshed userId e w result w' posts :
  getUserPosts userId e w = (Ok result, w') →
  log w' = log w ++ [GetUserPosts userId] →
  postsEndpoint e (length (log w)) userId = Some posts →
  result = stamp (clock e (ticks w)) <$> posts ∧
  svc w' = storePosts userId (Js.parseInt userId) result (clock e (ticks w)) (svc w) ∧
  ticks w' = S (ticks w).
Proof.
  unfold getUserPosts, getUserPosts_start, getUserPosts_resume, dateNow. simpl.
  destruct (_ && _); simpl.
  - intros [= _ <-]. simpl. intros Hlog _.
    apply (f_equal length) in Hlog. rewrite length_app in Hlog. simpl in Hlog. lia.
  - intros Hrun _ Hresp. rewrite Hresp in Hrun. by inversion Hrun.
Qed.

Lemma stamp_key t p : entryKey (stamp t p) = entryKey p.
Proof. done. Qed.

(** The merge of line 105 keeps the merged view free of duplicates when
    the posts received are distinct and belong to the owner. *)
Lemma merge_noDuplicates (n : Z) (t : Z) (posts merged : list Post.t) :
  (∀ p, p ∈ posts → Post.userid p = n) →
  NoDup (Post.id <$> posts) →
  noDuplicates merged →
  noDuplicates
    (filter (λ p, Js.strict_ne (Js.Int (Post.userid p)) (Js.Int n) = true) merged
     ++ (stamp t <$> posts)).
Proof.
  intros Hown Hids Hnd. unfold noDuplicates in *. rewrite fmap_app.
  apply NoDup_app. split; [|split].
  - clear Hown Hids. induction merged as [|q merged IH]; [constructor|].
    rewrite fmap_cons in Hnd. apply NoDup_cons in Hnd as [Hq Hnd].
    rewrite filter_cons. case_decide; [|by apply IH].
    rewrite fmap_cons. apply NoDup_cons. split; [|by apply IH].
    intros Hin. apply Hq. apply list_elem_of_fmap in Hin as (q' & Hk & Hq').
    apply list_elem_of_filter in Hq' as [_ Hq'].
    apply list_elem_of_fmap. by exists q'.
  - intros k Hk Hk'.
    apply list_elem_of_fmap in Hk as (q & -> & Hq).
    apply list_elem_of_filter in Hq as [Hne _].
    apply list_elem_of_fmap in Hk' as (p' & Hkey & Hp').
    apply list_elem_of_fmap in Hp' as (p & -> & Hp).
    rewrite stamp_key in Hkey. unfold entryKey in Hkey.
    inversion Hkey as [[Hid Huid]]. rewrite Huid, (Hown p Hp) in Hne.
    simpl in Hne. by rewrite Z.eqb_refl in Hne.
  - assert (Heq : entryKey <$> (stamp t <$> posts) = entryKey <$> posts).
    { rewrite <- list_fmap_compose. by apply list_fmap_ext. }
    rewrite Heq. apply (NoDup_fmap_1 fst). rewrite <- list_fmap_compose.
    exact Hids.
Qed.

(** The owner "A" parses to [NaN], which [!==] tells apart from every
    [userid]: a second refresh, after the TTL, removes nothing and
    appends the post again.  The same happens for the owner "1" when the
    answer holds a post twice, and when it holds a post that another
    owner has contributed. *)
Lemma C6_counterexample :
  ¬ merge_never_duplicates_as_stated ∧
  ¬ noDuplicates
      (allPostsCache
         (svc (getUserPosts "1"
                 (serverWith (λ _, [Post.mk 7 1 "x" None; Post.mk 7 1 "x" None]))
                 start).2)) ∧
  ¬ noDuplicates
      (allPostsCache
         (svc (getUserPosts "1" (serverWith (λ _, [Post.mk 7 2 "x" None]))
                 (getUserPosts "2" (serverWith (λ _, [Post.mk 7 2 "x" None]))
                    start).2).2)).
Proof.
  split; [|split].
  - intros H.
    pose (e := serverWith (λ _, [Post.mk 1 1 "a" None])).
    specialize (H e (getUserPosts "A" e start).2 "A"
                  [Post.mk 1 1 "a" (Some 51000)]
                  (getUserPosts "A" e (getUserPosts "A" e start).2).2).
    assert (Hdup : ¬ noDuplicates
              (allPostsCache
                 (svc (getUserPosts "A" e (getUserPosts "A" e start).2).2))).
    { apply (bool_decide_unpack _). vm_compute. exact Logic.I. }
    apply Hdup, H; [|reflexivity].
    apply (bool_decide_unpack _). vm_compute. exact Logic.I.
  - apply (bool_decide_unpack _). vm_compute. exact Logic.I.
  - apply (bool_decide_unpack _). vm_compute. exact Logic.I.
Qed.

(** C6, as amended.  A lookup of the posts of [userId] that goes to the
    server and is answered replaces the merged view by its entries that
    are not [userId]'s (by [!==] against [parseInt(userId)]) followed by
    the posts received, stamped with the time of the call.  When
    [userId] is a number [n], this removes exactly the entries whose
    owner is [n]; when moreover the posts received all have owner [n]
    and distinct ids, a merged view without two entries of the same id
    and owner stays so.  A second lookup for the same owner before the
    TTL has passed returns the same posts, sends no request and changes
    nothing, so the merged view neither grows nor changes. *)
Theorem C6_refresh_replaces_owner_contribution
    (e : Env) (w w' : World) (userId : string) (posts result : list Post.t) :
  getUserPosts userId e w = (Ok result, w') →
  log w' = log w ++ [GetUserPosts userId] →
  postsEndpoint e (length (log w)) userId = Some posts →
  result = stamp (clock e (ticks w)) <$> posts ∧
  allPostsCache (svc w')
    = filter (λ p, Js.strict_ne (Js.Int (Post.userid p)) (Js.parseInt userId) = true)
             (allPostsCache (svc w))
      ++ result ∧
  (∀ n, Js.parseInt userId = Js.Int n →
     allPostsCache (svc w')
       = filter (λ p, Post.userid p ≠ n) (allPostsCache (svc w)) ++ result ∧
     ((∀ p, p ∈ posts → Post.userid p = n) →
      NoDup (Post.id <$> posts) →
      noDuplicates (allPostsCache (svc w)) →
      noDuplicates (allPostsCache (svc w')))) ∧
  (∀ e2, fresh (clock e2 (ticks w')) (clock e (ticks w)) →
     getUserPosts userId e2 w' = (Ok result, tick w')).
Proof.
  intros Hrun Hlog Hresp.
  destruct (getUserPosts_refreshed _ _ _ _ _ _ Hrun Hlog Hresp)
    as (Hres & Hsvc & Hticks).
  split; [done|]. split; [by rewrite Hsvc|]. split.
  - intros n Hn. rewrite Hsvc, Hn. simpl. split.
    + f_equal. apply filter_ext_in. intros p _.
      destruct (Z.eqb_spec (Post.userid p) n); simpl; split; congruence.
    + intros Hown Hids Hnd. rewrite Hres.
      by apply merge_noDuplicates.
  - intros e2 Hfresh.
    apply (getUserPosts_fresh e2 w' userId result (clock e (ticks w)));
      [| |done]; rewrite Hsvc; simpl; by rewrite lookup_insert_eq.
Qed.

Lemma C6_witness :
  noDuplicates (allPostsCache (svc oneOwner)) ∧
  getUserPosts "1" sampleEnv oneOwner
    = (Ok (stamp 1001 <$> samplePosts "1"), tick oneOwner).
Proof.
  destruct (C6_refresh_replaces_owner_contribution sampleEnv
              (getUsers sampleEnv start).2 oneOwner "1"
              (samplePosts "1") (stamp 1001 <$> samplePosts "1")
              eq_refl eq_refl eq_refl)
    as (_ & _ & Hnum & Hidem).
  split.
  - apply (Hnum 1 eq_refl).
    + intros p Hp. change (p ∈ samplePosts "1") in Hp.
      unfold samplePosts in Hp. simpl in Hp.
      repeat (apply elem_of_cons in Hp as [->|Hp]); try reflexivity.
      by apply elem_of_nil in Hp.
    + apply (bool_decide_unpack _). vm_compute. exact Logic.I.
    + apply (bool_decide_unpack _). vm_compute. exact Logic.I.
  - apply Hidem. unfold fresh. vm_compute. reflexivity.
Defined.

(** ** Which owners are fetched before an aggregation (C7) *)

(** The test of lines 83-85 holds exactly when the lookup is served
    fresh at the reading it took. *)
Lemma hit_servedFresh now (s : DataService) id :
  has (postsCache s) (Js.parseInt id) && has (lastPostsFetch s) (Js.parseInt id)
  && bool_decide (now - default 0 (lastPostsFetch s !! Js.parseInt id) < cacheTTL)
  = true
  ↔ servedFresh now s id.
Proof.
  rewrite !andb_true_iff, !has_true, bool_decide_eq_true. split.
  - intros [[[posts Hp] [t Ht]] Hf]. rewrite Ht in Hf. by exists posts, t.
  - intros (posts & t & Hp & Ht & Hf). rewrite Ht. by eauto.
Qed.

Lemma servedFresh_dec now (s : DataService) id :
  {servedFresh now s id} + {¬ servedFresh now s id}.
Proof.
  destruct (has (postsCache s) (Js.parseInt id)
            && has (lastPostsFetch s) (Js.parseInt id)
            && bool_decide (now - default 0 (lastPostsFetch s !! Js.parseInt id)
                            < cacheTTL)) eqn:Hhit.
  - left. by apply hit_servedFresh.
  - right. rewrite <- hit_servedFresh, Hhit. done.
Qed.

Lemma plain_hit e id w :
  servedFresh (clock e (ticks w)) (svc w) id →
  plain (getUserPosts_start id) e w ()
  = (Settled (Ok (default [] (postsCache (svc w) !! Js.parseInt id))), tick w, ()).
Proof.
  intros Hhit%hit_servedFresh.
  unfold plain, getUserPosts_start, dateNow. cbv zeta. simpl svc.
  by rewrite Hhit.
Qed.

Lemma plain_miss e id w :
  ¬ servedFresh (clock e (ticks w)) (svc w) id →
  plain (getUserPosts_start id) e w ()
  = (Pending (GetUserPosts id)
       (onService (getUserPosts_resume id (Js.parseInt id) (clock e (ticks w))
                     (postsEndpoint e (length (log w)) id))),
     send (GetUserPosts id) (tick w), ()).
Proof.
  intros Hmiss. rewrite <- hit_servedFresh in Hmiss.
  apply not_true_is_false in Hmiss.
  unfold plain, getUserPosts_start, dateNow. cbv zeta. simpl svc.
  by rewrite Hmiss.
Qed.

(** The synchronous parts of the lookups of [ensureAllPosts]: the
    lookup number [i] reads the clock for the [i]-th time; served fresh
    at that reading it is settled, and otherwise it sends its request,
    which is the request number [ρ] of the log ([plan] holds these
    numbers). *)
Lemma startAll_ensure e ids : ∀ w,
  ∃ slots w2 reqs (plan : list (option nat)),
    startAll (plain ∘ getUserPosts_start <$> ids) e w () = (slots, w2, ()) ∧
    svc w2 = svc w ∧ log w2 = log w ++ reqs ∧
    length slots = length ids ∧
    reqs `sublist_of` (GetUserPosts <$> ids) ∧
    (∀ req, req ∈ reqs →
       ∃ i id, req = GetUserPosts id ∧ ids !! i = Some id ∧
               ¬ servedFresh (clock e (ticks w + i)) (svc w) id) ∧
    ∀ i id, ids !! i = Some id →
      match plan !! i with
      | Some None =>
          servedFresh (clock e (ticks w + i)) (svc w) id ∧
          ∃ r, slots !! i = Some (Settled r)
      | Some (Some ρ) =>
          ¬ servedFresh (clock e (ticks w + i)) (svc w) id ∧
          (length (log w) ≤ ρ)%nat ∧
          log w2 !! ρ = Some (GetUserPosts id) ∧
          slots !! i
          = Some (Pending (GetUserPosts id)
                    (onService (getUserPosts_resume id (Js.parseInt id)
                                  (clock e (ticks w + i)) (postsEndpoint e ρ id))))
      | None => False
      end.
Proof.
  induction ids as [|id ids IH]; intros w.
  { exists [], w, [], []. simpl. rewrite app_nil_r.
    repeat split; try done. intros req Hreq. by apply elem_of_nil in Hreq. }
  rewrite fmap_cons. cbn [startAll].
  change ((plain ∘ getUserPosts_start) id) with (plain (getUserPosts_start id)).
  destruct (servedFresh_dec (clock e (ticks w)) (svc w) id) as [Hhit|Hmiss].
  - rewrite (plain_hit e id w Hhit).
    destruct (IH (tick w))
      as (slots & w2 & reqs & plan & Hstart & Hsvc & Hlog & Hlen & Hsub & Hreqs & Hplan).
    rewrite Hstart.
    exists (Settled (Ok (default [] (postsCache (svc w) !! Js.parseInt id))) :: slots),
           w2, reqs, (None :: plan).
    split; [done|]. split; [done|]. split; [done|]. split; [by simpl; rewrite Hlen|].
    split; [by apply sublist_cons|]. split.
    + intros req Hreq. destruct (Hreqs req Hreq) as (i & id' & -> & Hi & Hn).
      exists (S i), id'. split; [done|]. split; [done|].
      by rewrite Nat.add_succ_r.
    + intros [|i] id' Hi; simpl in Hi |- *.
      * injection Hi as <-. rewrite Nat.add_0_r. split; [done|]. eauto.
      * rewrite Nat.add_succ_r. apply (Hplan i id' Hi).
  - rewrite (plain_miss e id w Hmiss).
    destruct (IH (send (GetUserPosts id) (tick w)))
      as (slots & w2 & reqs & plan & Hstart & Hsvc & Hlog & Hlen & Hsub & Hreqs & Hplan).
    rewrite Hstart. simpl in Hlog.
    eexists (_ :: slots), w2, (GetUserPosts id :: reqs),
            (Some (length (log w)) :: plan).
    split; [done|]. split; [done|].
    split; [by rewrite Hlog, <- app_assoc|].
    split; [by simpl; rewrite Hlen|].
    split; [by apply sublist_skip|]. split.
    + intros req [->|Hreq]%elem_of_cons.
      * exists 0%nat, id. split; [done|]. split; [done|]. by rewrite Nat.add_0_r.
      * destruct (Hreqs req Hreq) as (i & id' & -> & Hi & Hn).
        exists (S i), id'. split; [done|]. split; [done|].
        by rewrite Nat.add_succ_r.
    + intros [|i] id' Hi; simpl in Hi |- *.
      * injection Hi as <-. rewrite Nat.add_0_r. split; [done|]. split; [done|].
        split; [|done]. rewrite Hlog, <- app_assoc. by apply list_lookup_middle.
      * rewrite Nat.add_succ_r. specialize (Hplan i id' Hi). simpl in Hplan.
        destruct (plan !! i) as [[ρ|]|]; [|done..].
        destruct Hplan as (Hn & Hle & Hat & Hslot).
        split; [done|]. split; [|done]. rewrite length_app in Hle. simpl in Hle. lia.
Qed.

(** A [Promise.all] sends exactly the requests of its synchronous part. *)
Lemma promiseAll_log {L A} (tasks : list (Task L A)) e w l r w' l' :
  promiseAll tasks e w l = (r, w', l') →
  log w' = log (startAll tasks e w l).1.2.
Proof.
  unfold promiseAll. destruct (startAll tasks e w l) as [[slots w1] l1]. simpl.
  destruct (firstRejected slots); [by intros [= _ <- _]|].
  destruct (settle _ slots _) as [[[m|] slots'] [s' l'']]; by intros [= _ <- _].
Qed.

Lemma foldl_ext_in {A B} (f g : A → B → A) (l : list B) : ∀ a,
  (∀ a b, b ∈ l → f a b = g a b) → foldl f a l = foldl g a l.
Proof.
  induction l as [|b l IH]; intros a Hext; [done|]. simpl.
  rewrite (Hext a b) by (apply elem_of_cons; by left).
  apply IH. intros a' b' Hb'. apply Hext, elem_of_cons. by right.
Qed.

(** When nothing is rejected, the continuations of the pending slots
    that [order] reaches have run once each, in the order in which
    [order] first names them. *)
Lemma settle_trace {Σ A} order : ∀ (slots slots' : list (Started Σ A)) σ σ',
  settle order slots σ = (None, slots', σ') →
  ∃ arrivals,
    NoDup arrivals ∧
    (∀ i, i ∈ arrivals → ∃ req k, slots !! i = Some (Pending req k)) ∧
    (∀ i req k, i ∈ order → slots !! i = Some (Pending req k) → i ∈ arrivals) ∧
    σ' = foldl (resumeAt slots) σ arrivals.
Proof.
  induction order as [|i order IH]; intros slots slots' σ σ' Hrun; simpl in Hrun.
  { injection Hrun as <- <-. exists []. split; [constructor|].
    split; [by intros i ?%elem_of_nil|]. split; [|done].
    by intros i req k ?%elem_of_nil. }
  destruct (slots !! i) as [[r|req k]|] eqn:Hi.
  - destruct (IH _ _ _ _ Hrun) as (arrivals & Hnd & Hpend & Hcov & Hfold).
    exists arrivals. split; [done|]. split; [done|]. split; [|done].
    intros j req k [->|Hj]%elem_of_cons Hpj; [congruence|by eapply Hcov].
  - destruct (k σ) as [[a|m] σ1] eqn:Hk; [|done].
    destruct (IH _ _ _ _ Hrun) as (arrivals & Hnd & Hpend & Hcov & Hfold).
    assert (Hlt : (i < length slots)%nat) by (by eapply lookup_lt_Some).
    assert (Hnew : i ∉ arrivals).
    { intros Hin. destruct (Hpend i Hin) as (req' & k' & Hl).
      by rewrite list_lookup_insert_eq in Hl. }
    assert (Hsame : ∀ j, j ∈ arrivals →
              <[i := Settled (Ok a)]> slots !! j = slots !! j).
    { intros j Hj. apply list_lookup_insert_ne. by intros ->. }
    exists (i :: arrivals). split; [by constructor|]. split; [|split].
    + intros j [->|Hj]%elem_of_cons; [by eauto|].
      rewrite <- (Hsame j Hj). by apply Hpend.
    + intros j req' k' Hj Hpj. apply elem_of_cons.
      destruct (decide (j = i)) as [->|Hne]; [by left|right].
      apply elem_of_cons in Hj as [?|Hj]; [done|].
      apply (Hcov j req' k' Hj). by rewrite list_lookup_insert_ne.
    + simpl. unfold resumeAt at 2. rewrite Hi, Hk. simpl. rewrite Hfold.
      apply foldl_ext_in. intros σ2 j Hj. unfold resumeAt. by rewrite (Hsame j Hj).
  - destruct (IH _ _ _ _ Hrun) as (arrivals & Hnd & Hpend & Hcov & Hfold).
    exists arrivals. split; [done|]. split; [done|]. split; [|done].
    intros j req k [->|Hj]%elem_of_cons Hpj; [congruence|by eapply Hcov].
Qed.

Lemma strict_ne_owner (p : Post.t) (k : Js.number) :
  Js.strict_ne (Js.Int (Post.userid p)) k = true ↔ Js.Int (Post.userid p) ≠ k.
Proof.
  destruct k as [|n]; simpl; [done|].
  rewrite negb_true_iff, Z.eqb_neq. split; [congruence|].
  intros Hne Heq. apply Hne. by rewrite Heq.
Qed.

(** What the answer to a lookup does to the merged view (lines 98-113). *)
Lemma resume_merges id t response s :
  allPostsCache (getUserPosts_resume id (Js.parseInt id) t response s).2
  = match response with
    | Some posts =>
        mergeAnswer (Js.parseInt id) (stamp t <$> posts) (allPostsCache s)
    | None => allPostsCache s
    end.
Proof.
  unfold getUserPosts_resume. destruct response as [posts|].
  - cbn [snd storePosts allPostsCache]. unfold mergeAnswer. f_equal.
    apply list_filter_iff. intros p. apply strict_ne_owner.
  - by destruct (has _ _).
Qed.

(** The ensure step on an empty merged view: which requests it sends,
    and, when nothing is rejected, the merged view it leaves. *)
Lemma ensureAllPosts_merges ids e w r w2 :
  NoDup ids →
  allPostsCache (svc w) = [] →
  ensureAllPosts ids e w = (r, w2) →
  ∃ reqs,
    log w2 = log w ++ reqs ∧
    reqs `sublist_of` (GetUserPosts <$> ids) ∧
    (∀ i id, ids !! i = Some id →
       GetUserPosts id ∈ reqs
       ↔ ¬ servedFresh (clock e (ticks w + i)) (svc w) id) ∧
    (r = Ok () →
     ∃ arrivals responses,
       NoDup arrivals ∧
       (∀ i, i ∈ arrivals ↔
             ∃ id, ids !! i = Some id
                   ∧ ¬ servedFresh (clock e (ticks w + i)) (svc w) id) ∧
       (∀ i id, i ∈ arrivals → ids !! i = Some id →
          ∃ ρ, (length (log w) ≤ ρ)%nat ∧
               log w2 !! ρ = Some (GetUserPosts id) ∧
               responses i = postsEndpoint e ρ id) ∧
       allPostsCache (svc w2)
       = foldl (mergeArrival e ids (ticks w) responses) [] arrivals).
Proof.
  intros Hnd Hempty. unfold ensureAllPosts.
  rewrite bool_decide_eq_true_2 by (by rewrite Hempty).
  destruct (startAll_ensure e ids w)
    as (slots & w1 & reqs & plan & Hstart & Hsvc & Hlog & Hlen & Hsub & Hreqs & Hplan).
  assert (Hrequests : ∀ i id, ids !! i = Some id →
            GetUserPosts id ∈ reqs
            ↔ ¬ servedFresh (clock e (ticks w + i)) (svc w) id).
  { intros i id Hi. split.
    - intros Hreq. destruct (Hreqs _ Hreq) as (j & id' & [= <-] & Hj & Hn).
      by rewrite (NoDup_lookup ids i j id Hnd Hi Hj).
    - intros Hn. specialize (Hplan i id Hi).
      destruct (plan !! i) as [[ρ|]|]; [| |done].
      + destruct Hplan as (_ & Hle & Hat & _).
        rewrite Hlog, lookup_app_r in Hat by done.
        by eapply list_elem_of_lookup_2.
      + by destruct Hplan. }
  unfold promiseAll. rewrite Hstart.
  destruct (firstRejected slots) as [m|] eqn:Hfirst.
  { intros [= <- <-]. exists reqs. split; [done|]. split; [done|]. by split. }
  destruct (settle _ slots (svc w1, ())) as [[rejected slots'] [s' u]] eqn:Hsettle.
  destruct rejected as [m|].
  { intros [= <- <-]. exists reqs. split; [done|]. split; [done|]. by split. }
  intros [= <- <-]. exists reqs. split; [done|]. split; [done|].
  split; [done|]. intros _.
  destruct (settle_trace _ _ _ _ _ Hsettle) as (arrivals & Hnda & Hpend & Hcov & Hfold).
  set (responses := λ i,
         match plan !! i, ids !! i with
         | Some (Some ρ), Some id => postsEndpoint e ρ id
         | _, _ => None
         end).
  assert (Hshape : ∀ i, i ∈ arrivals →
            ∃ id ρ, ids !! i = Some id ∧ plan !! i = Some (Some ρ) ∧
                    ¬ servedFresh (clock e (ticks w + i)) (svc w) id ∧
                    (length (log w) ≤ ρ)%nat ∧
                    log w1 !! ρ = Some (GetUserPosts id) ∧
                    slots !! i
                    = Some (Pending (GetUserPosts id)
                              (onService
                                 (getUserPosts_resume id (Js.parseInt id)
                                    (clock e (ticks w + i))
                                    (postsEndpoint e ρ id))))).
  { intros i Hi. destruct (Hpend i Hi) as (req & k & Hslot).
    assert (is_Some (ids !! i)) as [id Hid].
    { apply lookup_lt_is_Some. rewrite <- Hlen. by eapply lookup_lt_Some. }
    specialize (Hplan i id Hid). destruct (plan !! i) as [[ρ|]|]; [| |done].
    - destruct Hplan as (Hn & Hle & Hat & Hs). by exists id, ρ.
    - destruct Hplan as (_ & r0 & Hs). congruence. }
  exists arrivals, responses. split; [done|]. split; [|split].
  - intros i. split.
    + intros Hi. destruct (Hshape i Hi) as (id & ρ & Hid & _ & Hn & _). by exists id.
    + intros (id & Hid & Hn). specialize (Hplan i id Hid).
      destruct (plan !! i) as [[ρ|]|]; [| |done].
      * destruct Hplan as (_ & _ & _ & Hs). eapply Hcov; [|exact Hs].
        apply elem_of_app. right. apply elem_of_seq. split; [lia|].
        simpl. by eapply lookup_lt_Some.
      * by destruct Hplan.
  - intros i id Hi Hid.
    destruct (Hshape i Hi) as (id' & ρ & Hid' & Hp & _ & Hle & Hat & _).
    assert (id' = id) as -> by congruence.
    exists ρ. split; [done|]. split; [done|]. unfold responses. by rewrite Hp, Hid.
  - simpl. assert (s' = (foldl (resumeAt slots) (svc w1, ()) arrivals).1) as ->
      by (by rewrite <- Hfold).
    assert (Hstart0 : allPostsCache (svc w1, ()).1 = []) by (by simpl; rewrite Hsvc).
    rewrite <- Hstart0. clear Hfold Hcov Hnda Hstart0 Hsettle.
    generalize (svc w1, ()). induction arrivals as [|i arrivals IHa]; intros σ; [done|].
    simpl. rewrite IHa.
    + f_equal. destruct (Hshape i) as (id & ρ & Hid & Hp & _ & _ & _ & Hs);
        [apply elem_of_cons; by left|].
      unfold resumeAt, mergeArrival, responses. rewrite Hs, Hid, Hp.
      destruct σ as [s u0]. unfold onService.
      pose proof (resume_merges id (clock e (ticks w + i)) (postsEndpoint e ρ id) s)
        as Hmerge.
      destruct (getUserPosts_resume _ _ _ _ s) as [r0 s1]. simpl in *.
      rewrite Hmerge. by destruct (postsEndpoint e ρ id).
    + intros j Hj. apply Hpend, elem_of_cons. by right.
    + intros j Hj. apply Hshape, elem_of_cons. by right.
Qed.

(** After a [getTopUsers] during which the posts of user 2 could not be
    fetched, the merged view holds the posts of user 1; against the
    healthy server [getLatestPosts] then returns them without asking for
    the posts of user 2, which are not in the cache either. *)
Lemma C7_counterexample : ¬ every_owner_ensured_as_stated.
Proof.
  intros H.
  pose (w := (getTopUsers defaultLimit partialEnv start).2).
  destruct (H sampleEnv w defaultLimit
              (fmap (M:=list) (stamp 1001) (samplePosts "1"))
              (snd (getLatestPosts defaultLimit sampleEnv w))
              eq_refl "2") as [Hreq|Hcached].
  - apply (bool_decide_unpack _). vm_compute. exact Logic.I.
  - revert Hreq. apply (bool_decide_unpack _). vm_compute. exact Logic.I.
  - revert Hcached. apply (bool_decide_unpack _). vm_compute. exact Logic.I.
Qed.

(** C7, as amended.  Before computing the popular or the latest view the
    engine obtains the directory.  When the merged view already holds an
    entry, nothing more is fetched: no owner is looked up, fresh or not,
    and the view is computed on the merged view as it is.  Only when the
    merged view is empty is every owner of the directory looked up, in
    the order of the directory: the lookup number [i] reads the clock
    for the [i]-th time and sends a request exactly when, at that
    reading, its cache entry is not fresh (absent, or stored the TTL or
    more before); the requests are sent in the order of the directory.
    When none of these lookups throws, the merged view they leave is
    obtained from the empty view by merging the answers to these
    requests in their order of arrival: an answer with posts removes
    the entries whose owner is the number its id parses to and appends
    the posts stamped with the reading of its lookup, and a failed
    request changes nothing.  The view is computed on that merged
    view. *)
Theorem C7_owners_fetched_only_when_view_empty
    (e : Env) (w w1 : World) (users : Directory.t) :
  getUsers e w = (Ok users, w1) →
  (allPostsCache (svc w) ≠ [] →
     ensureAllPosts (Directory.keys users) e w1 = (Ok (), w1) ∧
     (∀ limit,
        getLatestPosts limit e w
        = (Ok (Js.slice (Js.sortDesc timestampKey (allPostsCache (svc w)))
                        (Js.Int 0) limit), w1)) ∧
     ∃ counts w3,
       getPopularPosts e w
       = (Ok (mostCommented counts (allPostsCache (svc w))), w3)) ∧
  (allPostsCache (svc w) = [] →
     ∀ r w2, ensureAllPosts (Directory.keys users) e w1 = (r, w2) →
       ∃ reqs,
         log w2 = log w1 ++ reqs ∧
         reqs `sublist_of` (GetUserPosts <$> Directory.keys users) ∧
         (∀ i id, Directory.keys users !! i = Some id →
            GetUserPosts id ∈ reqs
            ↔ ¬ servedFresh (clock e (ticks w1 + i)) (svc w1) id) ∧
         (r = Ok () →
          ∃ arrivals responses,
            NoDup arrivals ∧
            (∀ i, i ∈ arrivals ↔
                  ∃ id, Directory.keys users !! i = Some id
                        ∧ ¬ servedFresh (clock e (ticks w1 + i)) (svc w1) id) ∧
            (∀ i id, i ∈ arrivals → Directory.keys users !! i = Some id →
               ∃ ρ, (length (log w1) ≤ ρ)%nat ∧
                    log w2 !! ρ = Some (GetUserPosts id) ∧
                    responses i = postsEndpoint e ρ id) ∧
            allPostsCache (svc w2)
            = foldl (mergeArrival e (Directory.keys users) (ticks w1) responses)
                    [] arrivals)) ∧
  (∀ w2, ensureAllPosts (Directory.keys users) e w1 = (Ok (), w2) →
     (∀ limit,
        getLatestPosts limit e w
        = (Ok (Js.slice (Js.sortDesc timestampKey (allPostsCache (svc w2)))
                        (Js.Int 0) limit), w2)) ∧
     ∃ counts w3,
       getPopularPosts e w
       = (Ok (mostCommented counts (allPostsCache (svc w2))), w3)).
Proof.
  intros Hu.
  assert (Hsame : allPostsCache (svc w1) = allPostsCache (svc w)).
  { rewrite <- (getUsers_allPosts e w). by rewrite Hu. }
  assert (Hthen : ∀ w2, ensureAllPosts (Directory.keys users) e w1 = (Ok (), w2) →
     (∀ limit,
        getLatestPosts limit e w
        = (Ok (Js.slice (Js.sortDesc timestampKey (allPostsCache (svc w2)))
                        (Js.Int 0) limit), w2)) ∧
     ∃ counts w3,
       getPopularPosts e w
       = (Ok (mostCommented counts (allPostsCache (svc w2))), w3)).
  { intros w2 He. split; [intros limit; by apply (getLatestPosts_ok limit e w users w1)|].
    destruct (getPopularPosts_ok e w users w1 w2 Hu He) as (counts & w3 & Hrun & _).
    by exists counts, w3. }
  split; [|split; [|done]].
  - intros Hne.
    assert (He : ensureAllPosts (Directory.keys users) e w1 = (Ok (), w1)).
    { apply ensureAllPosts_nonempty. by rewrite Hsame. }
    split; [done|]. rewrite <- Hsame. by apply Hthen.
  - intros Hempty r w2 He.
    apply (ensureAllPosts_merges _ e w1 r w2); [apply keys_nodup| |done].
    by rewrite Hsame.
Qed.

Lemma C7_witness :
  getLatestPosts (Js.Int 2) sampleEnv oneOwner
    = (Ok [Post.mk 11 1 "a" (Some 1001); Post.mk 12 1 "b" (Some 1001)],
       tick oneOwner) ∧
  ∃ reqs arrivals responses,
    log allOwners = [GetUsers] ++ reqs ∧
    GetUserPosts "2" ∈ reqs ∧
    allPostsCache (svc allOwners)
    = foldl (mergeArrival sampleEnv ["1"; "2"; "3"] 1 responses) [] arrivals.
Proof.
  split.
  - destruct (C7_owners_fetched_only_when_view_empty sampleEnv oneOwner
                (tick oneOwner) (usersCache (svc oneOwner)) eq_refl)
      as (Hnonempty & _ & _).
    destruct Hnonempty as (_ & Hlatest & _); [discriminate|].
    apply (Hlatest (Js.Int 2)).
  - destruct (C7_owners_fetched_only_when_view_empty sampleEnv start
                (getUsers sampleEnv start).2
                [("1", "Alice"); ("2", "Bob"); ("3", "Carol")] eq_refl)
      as (_ & Hempty & _).
    destruct (Hempty eq_refl (Ok ()) allOwners eq_refl)
      as (reqs & Hlog & _ & Hrequests & Hmerged).
    destruct (Hmerged eq_refl) as (arrivals & responses & _ & _ & _ & Hview).
    exists reqs, arrivals, responses. split; [exact Hlog|]. split; [|exact Hview].
    apply (Hrequests 1%nat "2" eq_refl).
    intros (posts & t & Hposts & _). discriminate Hposts.
Defined.

(** * Further properties of the service and of its handlers *)

(** ** What every call keeps

    The service assigns its fields in three places only ([storeUsers],
    [storePosts], [storeComments]); a predicate kept by these is kept by
    every continuation, in whatever order a [Promise.all] runs them, and
    so by every call. *)

Section Keeping.
Context (I : DataService → Prop).

Lemma getUsers_resume_keeps t response s :
  closedUsers I → I s → I (getUsers_resume t response s).2.
Proof.
  intros Hc Hs. unfold getUsers_resume.
  destruct response; simpl; [by apply Hc|]. by destruct (nonEmpty _).
Qed.

Lemma getUserPosts_resume_keeps userId t response s :
  closedPosts I → I s →
  I (getUserPosts_resume userId (Js.parseInt userId) t response s).2.
Proof.
  intros Hc Hs. unfold getUserPosts_resume.
  destruct response; simpl; [by apply Hc|]. by destruct (has _ _).
Qed.

Lemma getPostComments_resume_keeps postId t response s :
  closedComments I → I s → I (getPostComments_resume postId t response s).2.
Proof.
  intros Hc Hs. unfold getPostComments_resume.
  destruct response; simpl; [by apply Hc|]. by destruct (has _ _).
Qed.

Lemma settle_keeps {L A} order :
  ∀ (slots : list (Started (DataService * L) A)) σ,
    Forall (keeps I) slots → I σ.1 → I (settle order slots σ).2.1.
Proof.
  induction order as [|i order IH]; intros slots σ Hall Hs; [done|]. simpl.
  destruct (slots !! i) as [[r|req k]|] eqn:Hi; [by apply IH| |by apply IH].
  pose proof (Forall_lookup_1 _ _ _ _ Hall Hi σ Hs) as Hk.
  destruct (k σ) as [[a|m] σ']; simpl in *; [|done].
  apply IH; [|done]. by apply Forall_insert.
Qed.

Lemma startAll_tame {L A} (tasks : list (Task L A)) e : ∀ w l,
  Forall (tame I) tasks →
  svc (startAll tasks e w l).1.2 = svc w ∧
  Forall (keeps I) (startAll tasks e w l).1.1 ∧
  ∃ reqs, log (startAll tasks e w l).1.2 = log w ++ reqs ∧
          (length reqs ≤ length tasks)%nat.
Proof.
  induction tasks as [|t tasks IH]; intros w l Hall; simpl.
  - split; [done|]. split; [constructor|]. exists []. by rewrite app_nil_r.
  - apply Forall_cons in Hall as [Ht Hall].
    destruct (Ht e w l) as (Hsvc & Hk & reqs & Hlog & Hlen).
    destruct (t e w l) as [[st w1] l1]. simpl in *.
    destruct (IH w1 l1 Hall) as (Hsvc' & Hks & reqs' & Hlog' & Hlen').
    destruct (startAll tasks e w1 l1) as [[sts w2] l2]. simpl in *.
    split; [congruence|]. split; [by constructor|].
    exists (reqs ++ reqs'). rewrite Hlog', Hlog, app_assoc, length_app.
    split; [done|lia].
Qed.

(** A [Promise.all] of tame callbacks keeps [I] and sends at most one
    request per callback, whether it resolves or rejects. *)
Lemma promiseAll_tame {L A} (tasks : list (Task L A)) e w l :
  Forall (tame I) tasks → I (svc w) →
  I (svc (promiseAll tasks e w l).1.2) ∧
  ∃ reqs, log (promiseAll tasks e w l).1.2 = log w ++ reqs ∧
          (length reqs ≤ length tasks)%nat.
Proof.
  intros Hall Hs. destruct (startAll_tame tasks e w l Hall)
    as (Hsvc & Hks & reqs & Hlog & Hlen).
  unfold promiseAll. destruct (startAll tasks e w l) as [[slots w1] l1].
  simpl in *. destruct (firstRejected slots).
  - simpl. split; [by rewrite Hsvc|]. by exists reqs.
  - pose proof (settle_keeps (sched e (length (log w)) ++ seq 0 (length slots))
                  slots (svc w1, l1) Hks) as Hkeep.
    destruct (settle _ slots _) as [[rejected slots'] [s' l']]. simpl in Hkeep.
    rewrite Hsvc in Hkeep. specialize (Hkeep Hs).
    destruct rejected; simpl; (split; [done|by exists reqs]).
Qed.

Lemma tame_countPosts userId : closedPosts I → tame I (countPosts userId).
Proof.
  intros Hc e w l. unfold countPosts, getUserPosts_start, dateNow. simpl.
  destruct (_ && _); simpl.
  - split; [done|]. split; [done|]. exists []. rewrite app_nil_r. split; [done|simpl; lia].
  - split; [done|]. split.
    + intros [s pc] Hs. unfold thenRecord. simpl in *.
      pose proof (getUserPosts_resume_keeps userId (clock e (ticks w))
                    (postsEndpoint e (length (log w)) userId) s Hc Hs) as Hk.
      by destruct (getUserPosts_resume _ _ _ _ s).
    + by exists [GetUserPosts userId].
Qed.

Lemma tame_getUserPosts userId :
  closedPosts I → tame I (plain (getUserPosts_start userId)).
Proof.
  intros Hc e w l. unfold plain, getUserPosts_start, dateNow. simpl.
  destruct (_ && _); simpl.
  - split; [done|]. split; [done|]. exists []. rewrite app_nil_r. split; [done|simpl; lia].
  - split; [done|]. split.
    + intros [s u] Hs. unfold onService. simpl in *.
      pose proof (getUserPosts_resume_keeps userId (clock e (ticks w))
                    (postsEndpoint e (length (log w)) userId) s Hc Hs) as Hk.
      by destruct (getUserPosts_resume _ _ _ _ s).
    + by exists [GetUserPosts userId].
Qed.

Lemma tame_countComments post : closedComments I → tame I (countComments post).
Proof.
  intros Hc e w l. unfold countComments.
  destruct (has (postCommentCountCache (svc w)) (Post.id post)); simpl.
  { split; [done|]. split; [done|]. exists []. rewrite app_nil_r. split; [done|simpl; lia]. }
  unfold getPostComments_start, dateNow. simpl.
  destruct (_ && _); simpl.
  - split; [done|]. split; [done|]. exists []. rewrite app_nil_r. split; [done|simpl; lia].
  - split; [done|]. split.
    + intros [s pc] Hs. unfold thenRecord. simpl in *.
      pose proof (getPostComments_resume_keeps (Post.id post) (clock e (ticks w))
                    (commentsEndpoint e (length (log w)) (Post.id post)) s Hc Hs)
        as Hk.
      by destruct (getPostComments_resume _ _ _ s).
    + by exists [GetPostComments (Post.id post)].
Qed.
End Keeping.

Section KeepingCalls.
Context (I : DataService → Prop).

Lemma getUsers_keeps e w :
  closedUsers I → I (svc w) →
  I (svc (getUsers e w).2) ∧
  ∃ reqs, log (getUsers e w).2 = log w ++ reqs ∧ (length reqs ≤ 1)%nat.
Proof.
  intros Hc Hs. unfold getUsers, getUsers_start, dateNow. simpl.
  destruct (_ && _); simpl.
  - split; [done|]. exists []. rewrite app_nil_r. split; [done|simpl; lia].
  - pose proof (getUsers_resume_keeps I (clock e (ticks w))
                  (usersEndpoint e (length (log w))) (svc w) Hc Hs) as Hk.
    destruct (getUsers_resume _ _ (svc w)) as [r s']. simpl in *.
    split; [done|]. by exists [GetUsers].
Qed.

Lemma getUserPosts_keeps userId e w :
  closedPosts I → I (svc w) →
  I (svc (getUserPosts userId e w).2) ∧
  ∃ reqs, log (getUserPosts userId e w).2 = log w ++ reqs ∧ (length reqs ≤ 1)%nat.
Proof.
  intros Hc Hs. unfold getUserPosts, getUserPosts_start, dateNow. simpl.
  destruct (_ && _); simpl.
  - split; [done|]. exists []. rewrite app_nil_r. split; [done|simpl; lia].
  - pose proof (getUserPosts_resume_keeps I userId (clock e (ticks w))
                  (postsEndpoint e (length (log w)) userId) (svc w) Hc Hs) as Hk.
    destruct (getUserPosts_resume _ _ _ _ (svc w)) as [r s']. simpl in *.
    split; [done|]. by exists [GetUserPosts userId].
Qed.

Lemma getPostComments_keeps postId e w :
  closedComments I → I (svc w) →
  I (svc (getPostComments postId e w).2) ∧
  ∃ reqs, log (getPostComments postId e w).2 = log w ++ reqs ∧
          (length reqs ≤ 1)%nat.
Proof.
  intros Hc Hs. unfold getPostComments, getPostComments_start, dateNow. simpl.
  destruct (_ && _); simpl.
  - split; [done|]. exists []. rewrite app_nil_r. split; [done|simpl; lia].
  - pose proof (getPostComments_resume_keeps I postId (clock e (ticks w))
                  (commentsEndpoint e (length (log w)) postId) (svc w) Hc Hs) as Hk.
    destruct (getPostComments_resume _ _ _ (svc w)) as [r s']. simpl in *.
    split; [done|]. by exists [GetPostComments postId].
Qed.

Lemma collectPostCounts_keeps userIds e w :
  closedPosts I → I (svc w) →
  I (svc (collectPostCounts userIds e w).2) ∧
  ∃ reqs, log (collectPostCounts userIds e w).2 = log w ++ reqs ∧
          (length reqs ≤ length userIds)%nat.
Proof.
  intros Hc Hs. unfold collectPostCounts. case_bool_decide.
  - set (missing := filter _ userIds).
    destruct (promiseAll_tame I (countPosts <$> missing) e w ∅)
      as (HI & reqs & Hlog & Hlen); [|done|].
    { apply Forall_fmap, Forall_forall. intros id _. by apply tame_countPosts. }
    rewrite length_fmap in Hlen.
    assert (length missing ≤ length userIds)%nat by apply length_filter.
    destruct (promiseAll _ e w ∅) as [[[rs|m] w'] pc]; simpl in *;
      (split; [done|]; exists reqs; split; [done|lia]).
  - destruct (promiseAll_tame I (countPosts <$> userIds) e w ∅)
      as (HI & reqs & Hlog & Hlen); [|done|].
    { apply Forall_fmap, Forall_forall. intros id _. by apply tame_countPosts. }
    rewrite length_fmap in Hlen.
    destruct (promiseAll _ e w ∅) as [[[rs|m] w'] pc]; simpl in *;
      (split; [done|]; by exists reqs).
Qed.

Lemma ensureAllPosts_keeps userIds e w :
  closedPosts I → I (svc w) →
  I (svc (ensureAllPosts userIds e w).2) ∧
  ∃ reqs, log (ensureAllPosts userIds e w).2 = log w ++ reqs ∧
          (length reqs ≤ length userIds)%nat.
Proof.
  intros Hc Hs. unfold ensureAllPosts. case_bool_decide.
  - destruct (promiseAll_tame I (plain ∘ getUserPosts_start <$> userIds) e w ())
      as (HI & reqs & Hlog & Hlen); [|done|].
    { apply Forall_fmap, Forall_forall. intros id _. by apply tame_getUserPosts. }
    rewrite length_fmap in Hlen.
    destruct (promiseAll _ e w ()) as [[[rs|m] w'] pc]; simpl in *;
      (split; [done|]; by exists reqs).
  - simpl. split; [done|]. exists []. rewrite app_nil_r. split; [done|simpl; lia].
Qed.

Lemma batches_keeps allPosts e : ∀ fuel i w counts,
  closedComments I → I (svc w) →
  I (svc (batches fuel i allPosts e w counts).1.2) ∧
  ∃ reqs, log (batches fuel i allPosts e w counts).1.2 = log w ++ reqs ∧
          (length reqs ≤ length (drop i allPosts))%nat.
Proof.
  induction fuel as [|fuel IH]; intros i w counts Hc Hs; simpl.
  { split; [done|]. exists []. rewrite app_nil_r. split; [done|simpl; lia]. }
  case_bool_decide as Hlt.
  - rewrite slice_range.
    destruct (promiseAll_tame I
                (countComments <$> take batchSize (drop i allPosts)) e w counts)
      as (HI & reqs & Hlog & Hlen); [|done|].
    { apply Forall_fmap, Forall_forall. intros p _. by apply tame_countComments. }
    rewrite length_fmap in Hlen.
    assert (Hsplit : (length (take batchSize (drop i allPosts))
                      + length (drop (i + batchSize) allPosts)
                      = length (drop i allPosts))%nat).
    { rewrite <- drop_drop, <- length_app. by rewrite take_drop. }
    destruct (promiseAll _ e w counts) as [[[rs|m] w'] counts']; simpl in *.
    + destruct (IH (i + batchSize)%nat w' counts' Hc HI)
        as (HI' & reqs' & Hlog' & Hlen').
      split; [done|]. exists (reqs ++ reqs').
      rewrite Hlog', Hlog, app_assoc, length_app. split; [done|lia].
    + split; [done|]. exists reqs. split; [done|lia].
  - simpl. split; [done|]. exists []. rewrite app_nil_r. split; [done|simpl; lia].
Qed.

Lemma popularAmong_keeps e w :
  closedComments I → I (svc w) →
  I (svc (popularAmong e w).2) ∧
  ∃ reqs, log (popularAmong e w).2 = log w ++ reqs ∧
          (length reqs ≤ length (allPostsCache (svc w)))%nat.
Proof.
  intros Hc Hs. unfold popularAmong. cbv zeta.
  destruct (batches_keeps (allPostsCache (svc w)) e
              (length (allPostsCache (svc w))) 0 w ∅ Hc Hs)
    as (HI & reqs & Hlog & Hlen).
  rewrite drop_0 in Hlen.
  destruct (batches _ 0 _ e w ∅) as [[[u|m] w'] counts]; simpl in *;
    (split; [done|]; by exists reqs).
Qed.
End KeepingCalls.

Lemma getUsers_returns e w users w1 :
  getUsers e w = (Ok users, w1) → usersCache (svc w1) = users.
Proof.
  unfold getUsers, getUsers_start, getUsers_resume, dateNow. simpl.
  destruct (_ && _); simpl; [by intros [= <- <-]|].
  destruct (usersEndpoint e _); simpl; [by intros [= <- <-]|].
  destruct (nonEmpty _); [by intros [= <- <-]|done].
Qed.

(** [getTopUsers] keeps [I] and sends at most one request for the
    directory and one per user of the directory. *)
Lemma getTopUsers_keeps (I : DataService → Prop) limit e w :
  closedUsers I → closedPosts I → I (svc w) →
  I (svc (getTopUsers limit e w).2) ∧
  ∃ reqs,
    log (getTopUsers limit e w).2 = log w ++ reqs ∧
    (length reqs
     ≤ 1 + length (Directory.keys (usersCache (svc (getTopUsers limit e w).2))))%nat.
Proof.
  intros Hu Hp Hs. unfold getTopUsers.
  destruct (getUsers_keeps I e w Hu Hs) as (HI1 & reqs1 & Hlog1 & Hlen1).
  destruct (getUsers e w) as [[users|m] w1] eqn:Hget; simpl in *.
  - apply getUsers_returns in Hget.
    destruct (collectPostCounts_keeps (λ s, I s ∧ usersCache s = users)
                (Directory.keys users) e w1)
      as ((HI2 & Hdir) & reqs2 & Hlog2 & Hlen2); [|done|].
    { intros userId posts t s [? ?]. split; [by apply Hp|done]. }
    destruct (collectPostCounts _ e w1) as [[pc|m] w2]; simpl in *;
      (split; [done|]; exists (reqs1 ++ reqs2);
       rewrite Hlog2, Hlog1, app_assoc, length_app, Hdir; split; [done|lia]).
  - split; [done|]. exists reqs1. split; [done|lia].
Qed.

Lemma getLatestPosts_keeps (I : DataService → Prop) limit e w :
  closedUsers I → closedPosts I → I (svc w) →
  I (svc (getLatestPosts limit e w).2) ∧
  ∃ reqs,
    log (getLatestPosts limit e w).2 = log w ++ reqs ∧
    (length reqs
     ≤ 1 + length (Directory.keys (usersCache (svc (getLatestPosts limit e w).2))))%nat.
Proof.
  intros Hu Hp Hs. unfold getLatestPosts.
  destruct (getUsers_keeps I e w Hu Hs) as (HI1 & reqs1 & Hlog1 & Hlen1).
  destruct (getUsers e w) as [[users|m] w1] eqn:Hget; simpl in *.
  - apply getUsers_returns in Hget.
    destruct (ensureAllPosts_keeps (λ s, I s ∧ usersCache s = users)
                (Directory.keys users) e w1)
      as ((HI2 & Hdir) & reqs2 & Hlog2 & Hlen2); [|done|].
    { intros userId posts t s [? ?]. split; [by apply Hp|done]. }
    destruct (ensureAllPosts _ e w1) as [[u|m] w2]; simpl in *;
      (split; [done|]; exists (reqs1 ++ reqs2);
       rewrite Hlog2, Hlog1, app_assoc, length_app, Hdir; split; [done|lia]).
  - split; [done|]. exists reqs1. split; [done|lia].
Qed.

(** [getPopularPosts] sends in addition at most one request per post of
    the merged view. *)
Lemma getPopularPosts_keeps (I : DataService → Prop) e w :
  closedUsers I → closedPosts I → closedComments I → I (svc w) →
  I (svc (getPopularPosts e w).2) ∧
  ∃ reqs,
    log (getPopularPosts e w).2 = log w ++ reqs ∧
    (length reqs
     ≤ 1 + length (Directory.keys (usersCache (svc (getPopularPosts e w).2)))
       + length (allPostsCache (svc (getPopularPosts e w).2)))%nat.
Proof.
  intros Hu Hp Hc Hs. unfold getPopularPosts.
  destruct (getUsers_keeps I e w Hu Hs) as (HI1 & reqs1 & Hlog1 & Hlen1).
  destruct (getUsers e w) as [[users|m] w1] eqn:Hget; simpl in *.
  - apply getUsers_returns in Hget.
    destruct (ensureAllPosts_keeps (λ s, I s ∧ usersCache s = users)
                (Directory.keys users) e w1)
      as ((HI2 & Hdir) & reqs2 & Hlog2 & Hlen2); [|done|].
    { intros userId posts t s [? ?]. split; [by apply Hp|done]. }
    destruct (ensureAllPosts _ e w1) as [[u|m] w2]; simpl in *.
    + destruct (popularAmong_keeps
                  (λ s, I s ∧ usersCache s = users
                        ∧ allPostsCache s = allPostsCache (svc w2)) e w2)
        as ((HI3 & Hdir3 & Hall3) & reqs3 & Hlog3 & Hlen3); [|done|].
      { intros postId comments t s (? & ? & ?). split; [by apply Hc|done]. }
      destruct (popularAmong e w2) as [[[counts popular]|m] w3]; simpl in *;
        (split; [done|]; exists (reqs1 ++ reqs2 ++ reqs3);
         rewrite Hlog3, Hlog2, Hlog1, !app_assoc, !length_app, Hdir3, Hall3;
         split; [done|lia]).
    + split; [done|]. exists (reqs1 ++ reqs2).
      rewrite Hlog2, Hlog1, app_assoc, length_app, Hdir. split; [done|lia].
  - split; [done|]. exists reqs1. split; [done|lia].
Qed.

Lemma updateCache_log e w :
  svc (updateCache e w).2 = svc w ∧
  ∃ reqs, log (updateCache e w).2 = log w ++ reqs ∧ (length reqs ≤ 2)%nat.
Proof.
  unfold updateCache, updateCacheBody. case_bool_decide; simpl.
  { split; [done|]. exists []. rewrite app_nil_r. split; [done|simpl; lia]. }
  destruct (usersEndpoint e _); simpl.
  - destruct (allPostsEndpoint e _); simpl;
      (split; [done|]; exists [GetUsers; GetPosts];
       rewrite <- app_assoc; split; [done|simpl; lia]).
  - split; [done|]. exists [GetUsers]. split; [done|simpl; lia].
Qed.

(** Every call keeps what the three stores keep, and only appends to
    the log of requests. *)
Lemma perform_keeps (I : DataService → Prop) c e w :
  closedUsers I → closedPosts I → closedComments I → I (svc w) →
  I (svc (perform c e w)) ∧ ∃ reqs, log (perform c e w) = log w ++ reqs.
Proof.
  intros Hu Hp Hc Hs. destruct c; simpl.
  - destruct (getUsers_keeps I e w Hu Hs) as (? & reqs & ? & _). eauto.
  - destruct (getUserPosts_keeps I userId e w Hp Hs) as (? & reqs & ? & _). eauto.
  - destruct (getPostComments_keeps I postId e w Hc Hs) as (? & reqs & ? & _). eauto.
  - destruct (getTopUsers_keeps I limit e w Hu Hp Hs) as (? & reqs & ? & _). eauto.
  - destruct (getPopularPosts_keeps I e w Hu Hp Hc Hs) as (? & reqs & ? & _). eauto.
  - destruct (getLatestPosts_keeps I limit e w Hu Hp Hs) as (? & reqs & ? & _). eauto.
  - destruct (updateCache_log e w) as (-> & reqs & ? & _). eauto.
  - unfold Controller.getTopUsers.
    destruct (getTopUsers_keeps I (Controller.limitOf queryLimit) e w Hu Hp Hs)
      as (? & reqs & ? & _).
    destruct (getTopUsers _ e w) as [[?|?] ?]; simpl in *; eauto.
  - unfold Controller.getPosts.
    repeat case_decide.
    + destruct (getPopularPosts_keeps I e w Hu Hp Hc Hs) as (? & reqs & ? & _).
      destruct (getPopularPosts e w) as [[?|?] ?]; simpl in *; eauto.
    + destruct (getLatestPosts_keeps I defaultLimit e w Hu Hp Hs)
        as (? & reqs & ? & _).
      destruct (getLatestPosts _ e w) as [[?|?] ?]; simpl in *; eauto.
    + simpl. split; [done|]. exists []. by rewrite app_nil_r.
  - unfold listenCallback. destruct (updateCache_log e w) as (Hsvc & reqs & ? & _).
    destruct (updateCache e w) as [[?|?] ?]; simpl in *; rewrite Hsvc; eauto.
Qed.

Lemma reachable_keeps (I : DataService → Prop) w :
  closedUsers I → closedPosts I → closedComments I →
  (∀ url tok, I (construct url tok)) →
  reachable w → I (svc w).
Proof.
  intros Hu Hp Hc H0. induction 1 as [url tok|c e w Hw IH]; [apply H0|].
  by apply perform_keeps.
Qed.

(** ** Invariants of the reachable worlds *)

Lemma commentsAligned_closed :
  closedUsers commentsAligned ∧ closedPosts commentsAligned
  ∧ closedComments commentsAligned.
Proof.
  split; [|split].
  - by intros users t s [? ?].
  - by intros userId posts t s [? ?].
  - intros postId comments t s [Hc Hd]. split; simpl.
    + by rewrite fmap_insert, Hc.
    + by rewrite !dom_insert_L, Hd.
Qed.

(** X1. In every world reached from construction, the cached comment
    count of a post is the number of its cached comments, and the posts
    with a comments fetch time are those with cached comments. *)
Theorem X1_comment_counts_match_cached_comments (w : World) :
  reachable w → commentsAligned (svc w).
Proof.
  destruct commentsAligned_closed as (Hu & Hp & Hc).
  apply reachable_keeps; [done..|]. intros url tok. split; simpl.
  - by rewrite fmap_empty.
  - by rewrite !dom_empty_L.
Qed.

Lemma X1_witness :
  commentsAligned (svc (perform CallGetPopularPosts popularEnv (boot None None))).
Proof.
  apply X1_comment_counts_match_cached_comments.
  apply reachable_call, reachable_boot.
Defined.

Lemma postsAligned_closed :
  closedUsers postsAligned ∧ closedPosts postsAligned
  ∧ closedComments postsAligned.
Proof.
  split; [|split].
  - by intros users t s [? ?].
  - intros userId posts t s [Hd Hc]. split; simpl.
    + by rewrite !dom_insert_L, Hd.
    + intros id. rewrite !lookup_insert_is_Some'. intros [<-|Hid]; [by left|].
      right. by apply Hc.
  - by intros postId comments t s [? ?].
Qed.

(** X2. In every world reached from construction, the keys of the posts
    cache with a fetch time are those with cached posts, and every id
    with a cached post count has cached posts under the number the id
    parses to. *)
Theorem X2_post_caches_are_aligned (w : World) :
  reachable w → postsAligned (svc w).
Proof.
  destruct postsAligned_closed as (Hu & Hp & Hc).
  apply reachable_keeps; [done..|]. intros url tok. split; simpl.
  - by rewrite !dom_empty_L.
  - intros id. rewrite lookup_empty. by intros [? ?].
Qed.

Lemma X2_witness :
  postsAligned (svc (perform (CallGetTopUsers (Js.Int 2)) abcEnv (boot None None))).
Proof.
  apply X2_post_caches_are_aligned.
  apply reachable_call, reachable_boot.
Defined.

Lemma stamp_stamped t (posts : list Post.t) : Forall stamped (stamp t <$> posts).
Proof. apply Forall_fmap, Forall_forall. intros p _. by exists t. Qed.

Lemma allStamped_closed :
  closedUsers allStamped ∧ closedPosts allStamped ∧ closedComments allStamped.
Proof.
  split; [|split].
  - by intros users t s [? ?].
  - intros userId posts t s [Hall Hc]. split; simpl.
    + apply Forall_app. split; [|apply stamp_stamped].
      apply Forall_forall. intros p [_ Hp]%list_elem_of_filter.
      by eapply Forall_forall in Hall.
    + intros n posts'. destruct (decide (Js.parseInt userId = n)) as [<-|Hn].
      * rewrite lookup_insert_eq. intros [= <-]. apply stamp_stamped.
      * rewrite lookup_insert_ne by done. apply Hc.
  - by intros postId comments t s [? ?].
Qed.

(** X3. In every world reached from construction, every post of the
    merged view and of the per-owner cache carries a timestamp, whatever
    the server sent. *)
Theorem X3_cached_posts_are_stamped (w : World) :
  reachable w → allStamped (svc w).
Proof.
  destruct allStamped_closed as (Hu & Hp & Hc).
  apply reachable_keeps; [done..|]. intros url tok. split; simpl.
  - constructor.
  - intros n posts. by rewrite lookup_empty.
Qed.

Lemma X3_witness :
  allStamped (svc (perform (CallGetLatestPosts (Js.Int 2)) sampleEnv (boot None None))).
Proof.
  apply X3_cached_posts_are_stamped.
  apply reachable_call, reachable_boot.
Defined.

(** ** What no call does *)

Lemma keysKept_insert `{Countable K} {V} (m0 m : gmap K V) i x :
  keysKept m0 m → keysKept m0 (<[i := x]> m).
Proof. intros Hk k Hs. rewrite lookup_insert_is_Some'. right. by apply Hk. Qed.



(** X5. [getTopUsers] and [getLatestPosts] send at most one request for
    the directory and one per user of the directory they end with;
    [getPopularPosts] sends in addition at most one per post of the
    merged view it ends with.  This holds whether they return or
    throw. *)
Theorem X5_requests_are_bounded (e : Env) (w : World) :
  (∀ limit, ∃ reqs,
     log (getTopUsers limit e w).2 = log w ++ reqs ∧
     (length reqs
      ≤ 1 + length (Directory.keys (usersCache (svc (getTopUsers limit e w).2))))%nat) ∧
  (∀ limit, ∃ reqs,
     log (getLatestPosts limit e w).2 = log w ++ reqs ∧
     (length reqs
      ≤ 1 + length (Directory.keys
                      (usersCache (svc (getLatestPosts limit e w).2))))%nat) ∧
  (∃ reqs,
     log (getPopularPosts e w).2 = log w ++ reqs ∧
     (length reqs
      ≤ 1 + length (Directory.keys (usersCache (svc (getPopularPosts e w).2)))
        + length (allPostsCache (svc (getPopularPosts e w).2)))%nat).
Proof.
  split; [|split].
  - intros limit. by destruct (getTopUsers_keeps (λ _, True) limit e w) as (_ & H).
  - intros limit. by destruct (getLatestPosts_keeps (λ _, True) limit e w) as (_ & H).
  - by destruct (getPopularPosts_keeps (λ _, True) e w) as (_ & H).
Qed.

(** X6. What each method leaves alone: the directory lookup changes
    nothing of the posts and comments caches, the posts lookup nothing
    of the directory and of the comments caches, the comments lookup
    nothing of the directory and of the posts caches, and [getTopUsers]
    and [getLatestPosts] nothing of the comments caches. *)
Theorem X6_methods_leave_other_caches_alone (e : Env) (w : World) :
  (samePosts (svc w) (svc (getUsers e w).2) ∧
   sameComments (svc w) (svc (getUsers e w).2)) ∧
  (∀ userId,
     sameUsers (svc w) (svc (getUserPosts userId e w).2) ∧
     sameComments (svc w) (svc (getUserPosts userId e w).2)) ∧
  (∀ postId,
     sameUsers (svc w) (svc (getPostComments postId e w).2) ∧
     samePosts (svc w) (svc (getPostComments postId e w).2)) ∧
  (∀ limit, sameComments (svc w) (svc (getTopUsers limit e w).2)) ∧
  (∀ limit, sameComments (svc w) (svc (getLatestPosts limit e w).2)).
Proof.
  assert (Hrefl : sameUsers (svc w) (svc w) ∧ samePosts (svc w) (svc w)
                  ∧ sameComments (svc w) (svc w)) by done.
  destruct Hrefl as (Hu & Hp & Hc).
  split; [|split; [|split; [|split]]].
  - apply (getUsers_keeps (λ s, samePosts (svc w) s ∧ sameComments (svc w) s));
      [|done]. by intros users t s [? ?].
  - intros userId.
    apply (getUserPosts_keeps (λ s, sameUsers (svc w) s ∧ sameComments (svc w) s));
      [|done]. by intros id posts t s [? ?].
  - intros postId.
    apply (getPostComments_keeps (λ s, sameUsers (svc w) s ∧ samePosts (svc w) s));
      [|done]. by intros id comments t s [? ?].
  - intros limit. apply (getTopUsers_keeps (sameComments (svc w))); [| |done].
    + by intros users t s ?.
    + by intros id posts t s ?.
  - intros limit. apply (getLatestPosts_keeps (sameComments (svc w))); [| |done].
    + by intros users t s ?.
    + by intros id posts t s ?.
Qed.

(** ** When a lookup sends its request *)

Lemma await_pending_log {A} req (k : DataService → Result A * DataService) w :
  log (await (Pending req k, w)).2 = log w ∧
  ticks (await (Pending req k, w)).2 = ticks w.
Proof. simpl. by destruct (k (svc w)). Qed.

(** X7. A lookup whose cache entry is absent, or was stored [cacheTTL]
    milliseconds or more before the clock is read, reads the clock once
    and sends exactly one request, whatever the answer; the bound is
    strict, an entry aged exactly [cacheTTL] is fetched again. *)
Theorem X7_stale_or_absent_entry_is_fetched (e : Env) (w : World) :
  (nonEmpty (usersCache (svc w)) = false
   ∨ cacheTTL ≤ clock e (ticks w) - lastUsersFetch (svc w) →
   log (getUsers e w).2 = log w ++ [GetUsers] ∧
   ticks (getUsers e w).2 = S (ticks w)) ∧
  (∀ userId,
     postsCache (svc w) !! Js.parseInt userId = None
     ∨ lastPostsFetch (svc w) !! Js.parseInt userId = None
     ∨ (∃ t, lastPostsFetch (svc w) !! Js.parseInt userId = Some t
             ∧ cacheTTL ≤ clock e (ticks w) - t) →
     log (getUserPosts userId e w).2 = log w ++ [GetUserPosts userId] ∧
     ticks (getUserPosts userId e w).2 = S (ticks w)) ∧
  (∀ postId,
     commentsCache (svc w) !! postId = None
     ∨ lastCommentsFetch (svc w) !! postId = None
     ∨ (∃ t, lastCommentsFetch (svc w) !! postId = Some t
             ∧ cacheTTL ≤ clock e (ticks w) - t) →
     log (getPostComments postId e w).2 = log w ++ [GetPostComments postId] ∧
     ticks (getPostComments postId e w).2 = S (ticks w)).
Proof.
  split; [|split].
  - intros Hstale. unfold getUsers, getUsers_start, dateNow. cbv zeta. simpl svc.
    assert (nonEmpty (usersCache (svc w))
            && bool_decide (clock e (ticks w) - lastUsersFetch (svc w) < cacheTTL)
            = false) as ->.
    { destruct Hstale as [->|Hage]; [done|].
      rewrite (bool_decide_eq_false_2 (_ < _)) by lia. apply andb_false_r. }
    apply await_pending_log.
  - intros userId Hstale.
    unfold getUserPosts, getUserPosts_start, dateNow. cbv zeta. simpl svc.
    assert (has (postsCache (svc w)) (Js.parseInt userId)
            && has (lastPostsFetch (svc w)) (Js.parseInt userId)
            && bool_decide (clock e (ticks w)
                            - default 0 (lastPostsFetch (svc w) !! Js.parseInt userId)
                            < cacheTTL)
            = false) as ->.
    { destruct Hstale as [Hnone|[Hnone|(t & Ht & Hage)]].
      - apply has_false in Hnone. by rewrite Hnone.
      - apply has_false in Hnone. rewrite Hnone. by rewrite andb_false_r.
      - rewrite Ht. simpl. rewrite (bool_decide_eq_false_2 (_ < _)) by lia.
        apply andb_false_r. }
    apply await_pending_log.
  - intros postId Hstale.
    unfold getPostComments, getPostComments_start, dateNow. cbv zeta. simpl svc.
    assert (has (commentsCache (svc w)) postId
            && has (lastCommentsFetch (svc w)) postId
            && bool_decide (clock e (ticks w)
                            - default 0 (lastCommentsFetch (svc w) !! postId)
                            < cacheTTL)
            = false) as ->.
    { destruct Hstale as [Hnone|[Hnone|(t & Ht & Hage)]].
      - apply has_false in Hnone. by rewrite Hnone.
      - apply has_false in Hnone. rewrite Hnone. by rewrite andb_false_r.
      - rewrite Ht. simpl. rewrite (bool_decide_eq_false_2 (_ < _)) by lia.
        apply andb_false_r. }
    apply await_pending_log.
Qed.

Lemma X7_witness :
  (log (getUsers (stoppedAt 31002) warm).2 = log warm ++ [GetUsers] ∧
   ticks (getUsers (stoppedAt 31002) warm).2 = S (ticks warm)) ∧
  (log (getUserPosts "2" (stoppedAt 31002) warm).2
     = log warm ++ [GetUserPosts "2"] ∧
   ticks (getUserPosts "2" (stoppedAt 31002) warm).2 = S (ticks warm)) ∧
  (log (getPostComments 12 (stoppedAt 31002) warm).2
     = log warm ++ [GetPostComments 12] ∧
   ticks (getPostComments 12 (stoppedAt 31002) warm).2 = S (ticks warm)).
Proof.
  destruct (X7_stale_or_absent_entry_is_fetched (stoppedAt 31002) warm)
    as (Husers & Hposts & Hcomments).
  split; [|split].
  - apply Husers. right. vm_compute. discriminate.
  - apply Hposts. left. reflexivity.
  - apply Hcomments. right. right. exists 1002. split; [reflexivity|].
    vm_compute. discriminate.
Defined.

(** ** What a fetch stores, and what the next lookups return *)

Lemma log_grew_ne (l : list Request) r : l ≠ l ++ [r].
Proof.
  intros Heq. apply (f_equal length) in Heq. rewrite length_app in Heq.
  simpl in Heq. lia.
Qed.

(** X8. When the request of a comments lookup is answered, the lookup
    returns the comments as the server sent them and stores them, their
    number and the clock reading, touching nothing else.  The next
    lookup of the post within the TTL returns them without a request,
    and any later lookup whose request fails returns them as well. *)
Theorem X8_fetched_comments_are_stored_and_served
    (e : Env) (w w' : World) (postId : Z) (comments : list Comment.t)
    (r : Result (list Comment.t)) :
  getPostComments postId e w = (r, w') →
  log w' = log w ++ [GetPostComments postId] →
  commentsEndpoint e (length (log w)) postId = Some comments →
  r = Ok comments ∧
  svc w' = storeComments postId comments (clock e (ticks w)) (svc w) ∧
  commentsCache (svc w') !! postId = Some comments ∧
  postCommentCountCache (svc w') !! postId = Some (length comments) ∧
  (∀ e2, fresh (clock e2 (ticks w')) (clock e (ticks w)) →
     getPostComments postId e2 w' = (Ok comments, tick w')) ∧
  (∀ e2, commentsEndpoint e2 (length (log w')) postId = None →
     ∃ w2, getPostComments postId e2 w' = (Ok comments, w2) ∧ svc w2 = svc w').
Proof.
  intros Hcall Hlog Hanswer.
  assert (r = Ok comments ∧
          svc w' = storeComments postId comments (clock e (ticks w)) (svc w))
    as [-> Hsvc].
  { revert Hcall. unfold getPostComments, getPostComments_start, dateNow.
    cbv zeta. simpl svc. destruct (_ && _); simpl.
    - intros [= <- <-]. simpl in Hlog. by apply log_grew_ne in Hlog.
    - rewrite Hanswer. simpl. by intros [= <- <-]. }
  assert (Hstored : commentsCache (svc w') !! postId = Some comments).
  { rewrite Hsvc. simpl. apply lookup_insert_eq. }
  assert (Htime : lastCommentsFetch (svc w') !! postId = Some (clock e (ticks w))).
  { rewrite Hsvc. simpl. apply lookup_insert_eq. }
  split; [done|]. split; [done|]. split; [done|]. split.
  { rewrite Hsvc. simpl. apply lookup_insert_eq. }
  split.
  - intros e2 Hfresh. by eapply getPostComments_fresh.
  - intros e2 Hdown. by apply getPostComments_down_cached.
Qed.

Lemma X8_witness :
  (getPostComments 12 sampleEnv oneOwner).1 = Ok (sampleComments 12) ∧
  postCommentCountCache (svc warm) !! 12 = Some 2%nat ∧
  getPostComments 12 (stoppedAt 31001) warm = (Ok (sampleComments 12), tick warm) ∧
  (getPostComments 12 downEnv warm).1 = Ok (sampleComments 12).
Proof.
  destruct (X8_fetched_comments_are_stored_and_served sampleEnv oneOwner warm 12
              (sampleComments 12) (getPostComments 12 sampleEnv oneOwner).1)
    as (Hr & _ & _ & Hcount & Hfresh & Hdown); [reflexivity..|].
  split; [exact Hr|]. split; [exact Hcount|]. split.
  - apply Hfresh. reflexivity.
  - destruct (Hdown downEnv eq_refl) as (w2 & Hcall & _). by rewrite Hcall.
Defined.

(** X9. When the request of the directory lookup is answered, the
    lookup returns the directory as sent and stores it with the clock
    reading, touching nothing else.  A directory that has a user is then
    returned without a request within the TTL, and after it whenever the
    request fails; an empty directory is requested again by the next
    lookup, however soon it comes. *)
Theorem X9_fetched_directory_is_stored_and_served
    (e : Env) (w w' : World) (users : Directory.t) (r : Result Directory.t) :
  getUsers e w = (r, w') →
  log w' = log w ++ [GetUsers] →
  usersEndpoint e (length (log w)) = Some users →
  r = Ok users ∧
  svc w' = storeUsers users (clock e (ticks w)) (svc w) ∧
  (nonEmpty users = true →
     (∀ e2, fresh (clock e2 (ticks w')) (clock e (ticks w)) →
        getUsers e2 w' = (Ok users, tick w')) ∧
     (∀ e2, usersEndpoint e2 (length (log w')) = None →
        ∃ w2, getUsers e2 w' = (Ok users, w2) ∧ svc w2 = svc w')) ∧
  (nonEmpty users = false →
     ∀ e2, log (getUsers e2 w').2 = log w' ++ [GetUsers]).
Proof.
  intros Hcall Hlog Hanswer.
  assert (r = Ok users ∧ svc w' = storeUsers users (clock e (ticks w)) (svc w))
    as [-> Hsvc].
  { revert Hcall. unfold getUsers, getUsers_start, dateNow.
    cbv zeta. simpl svc. destruct (_ && _); simpl.
    - intros [= <- <-]. simpl in Hlog. by apply log_grew_ne in Hlog.
    - rewrite Hanswer. simpl. by intros [= <- <-]. }
  assert (Hdir : usersCache (svc w') = users) by (by rewrite Hsvc).
  assert (Htime : lastUsersFetch (svc w') = clock e (ticks w)) by (by rewrite Hsvc).
  split; [done|]. split; [done|]. split.
  - intros Hne. split.
    + intros e2 Hfresh. pose proof (getUsers_fresh e2 w') as Hserved.
      rewrite Hdir, Htime in Hserved. by apply Hserved.
    + intros e2 Hdown. pose proof (getUsers_down_cached e2 w' Hdown) as Hserved.
      rewrite Hdir in Hserved. by apply Hserved.
  - intros Hempty e2. unfold getUsers, getUsers_start, dateNow.
    cbv zeta. simpl svc. rewrite Hdir, Hempty. simpl.
    by destruct (getUsers_resume _ _ (svc w')).
Qed.

Lemma X9_witness :
  (getUsers sampleEnv start).1
    = Ok [("1", "Alice"); ("2", "Bob"); ("3", "Carol")] ∧
  (getUsers (stoppedAt 30999) (getUsers sampleEnv start).2).1
    = Ok [("1", "Alice"); ("2", "Bob"); ("3", "Carol")] ∧
  (getUsers downEnv (getUsers sampleEnv start).2).1
    = Ok [("1", "Alice"); ("2", "Bob"); ("3", "Carol")].
Proof.
  destruct (X9_fetched_directory_is_stored_and_served sampleEnv start
              (getUsers sampleEnv start).2
              [("1", "Alice"); ("2", "Bob"); ("3", "Carol")]
              (getUsers sampleEnv start).1)
    as (Hr & _ & Hserved & _); [reflexivity..|].
  destruct (Hserved eq_refl) as [Hfresh Hdown].
  split; [exact Hr|]. split.
  - by rewrite (Hfresh (stoppedAt 30999) eq_refl).
  - destruct (Hdown downEnv eq_refl) as (w2 & Hcall & _). by rewrite Hcall.
Defined.

(** X10. The posts cache is keyed by the number an id parses to, not by
    the id: once the posts of one id have been fetched, a lookup, within
    the TTL, of any id that parses to the same number returns these
    posts without a request. *)
Theorem X10_ids_parsing_alike_share_a_cache_entry
    (e : Env) (w w' : World) (userId other : string)
    (posts result : list Post.t) :
  getUserPosts userId e w = (Ok result, w') →
  log w' = log w ++ [GetUserPosts userId] →
  postsEndpoint e (length (log w)) userId = Some posts →
  Js.parseInt other = Js.parseInt userId →
  ∀ e2, fresh (clock e2 (ticks w')) (clock e (ticks w)) →
    getUserPosts other e2 w' = (Ok result, tick w').
Proof.
  intros Hcall Hlog Hanswer Hsame e2 Hfresh.
  destruct (getUserPosts_refreshed userId e w result w' posts Hcall Hlog Hanswer)
    as (_ & Hsvc & _).
  apply (getUserPosts_fresh e2 w' other result (clock e (ticks w))); [| |done].
  - rewrite Hsame, Hsvc. simpl. apply lookup_insert_eq.
  - rewrite Hsame, Hsvc. simpl. apply lookup_insert_eq.
Qed.

Lemma X10_witness :
  getUserPosts " 01st" sampleEnv oneOwner
    = (Ok (stamp 1001 <$> samplePosts "1"), tick oneOwner).
Proof.
  apply (X10_ids_parsing_alike_share_a_cache_entry sampleEnv
           (getUsers sampleEnv start).2 oneOwner "1" " 01st" (samplePosts "1"));
    reflexivity.
Defined.

(** ** The results of the aggregations *)

Lemma withSvc_same w : withSvc (svc w) w = w.
Proof. by destruct w. Qed.

Lemma settle_nil {Σ A} order (σ : Σ) :
  settle order ([] : list (Started Σ A)) σ = (None, [], σ).
Proof. induction order as [|i order IH]; simpl; [done|]. by rewrite ?lookup_nil. Qed.

Lemma promiseAll_nil {L A} e w (l : L) :
  promiseAll ([] : list (Task L A)) e w l = (Ok [], w, l).
Proof. unfold promiseAll. simpl. rewrite settle_nil. by rewrite withSvc_same. Qed.

Lemma map_fold_insert_all (cache : gmap string nat) :
  map_fold (λ userId count postCounts, <[userId := count]> postCounts) ∅ cache
  = cache.
Proof.
  apply map_eq. intros id. rewrite combine_lookup.
  by destruct (cache !! id).
Qed.

(** X11. A cached post count is never refreshed by [getTopUsers]: when
    every user of the directory has a cached count, the call sends no
    request for posts and reads no clock after the directory lookup,
    however old the counts are, and ranks the users by the cached
    counts. *)
Theorem X11_cached_post_counts_are_never_refreshed
    (limit : Js.number) (e : Env) (w w1 : World) (users : Directory.t) :
  getUsers e w = (Ok users, w1) →
  (∀ id, id ∈ Directory.keys users →
         is_Some (userPostCountCache (svc w) !! id)) →
  getTopUsers limit e w
  = (Ok (Js.slice (ranking users (userPostCountCache (svc w))) (Js.Int 0) limit),
     w1).
Proof.
  intros Hget Hall. unfold getTopUsers. rewrite Hget.
  destruct (getUsers_counts e w _ _ Hget) as (Hupc & _ & _).
  assert (Hmissing :
    filter (λ id, has (userPostCountCache (svc w1)) id = false)
           (Directory.keys users) = []).
  { apply elem_of_nil_inv. intros id [Hno Hin]%list_elem_of_filter.
    apply has_false in Hno. rewrite Hupc in Hno.
    destruct (Hall id Hin) as [c Hc]. congruence. }
  unfold collectPostCounts. case_bool_decide as Hsize.
  - rewrite Hmissing. simpl fmap. rewrite promiseAll_nil.
    by rewrite map_fold_insert_all, Hupc.
  - assert (Hkeys : Directory.keys users = []).
    { apply elem_of_nil_inv. intros id Hin. destruct (Hall id Hin) as [c Hc].
      apply Hsize. rewrite Hupc.
      assert (size (userPostCountCache (svc w)) ≠ 0%nat); [|lia].
      apply map_size_non_empty_iff. intros Hempty.
      by rewrite Hempty, lookup_empty in Hc. }
    unfold ranking. rewrite Hkeys. simpl fmap. by rewrite promiseAll_nil.
Qed.

Lemma X11_witness :
  getTopUsers (Js.Int 2) downEnv (getTopUsers (Js.Int 2) abcEnv start).2
  = (Ok [TopUser.mk "B" "Bob" 5; TopUser.mk "C" "Carol" 5],
     (getUsers downEnv (getTopUsers (Js.Int 2) abcEnv start).2).2).
Proof.
  apply (X11_cached_post_counts_are_never_refreshed (Js.Int 2) downEnv
           (getTopUsers (Js.Int 2) abcEnv start).2
           (getUsers downEnv (getTopUsers (Js.Int 2) abcEnv start).2).2
           [("A", "Alice"); ("B", "Bob"); ("C", "Carol")]).
  - reflexivity.
  - apply Forall_forall. apply (bool_decide_unpack _). vm_compute. exact Logic.I.
Defined.

Lemma slice_prefix {A} (l : list A) (end_ : Js.number) :
  ∃ m, Js.slice l (Js.Int 0) end_ = take m l.
Proof.
  unfold Js.slice, Js.clampIndex, Js.toInteger. simpl.
  replace (Z.min 0 (Z.of_nat (length l))) with 0 by lia.
  change (Z.to_nat 0) with 0%nat. rewrite drop_0. eauto.
Qed.

Lemma take_strongly_sorted {A} (R : relation A) (l : list A) m :
  StronglySorted R l → StronglySorted R (take m l).
Proof.
  intros Hs. rewrite <- (take_drop m l) in Hs.
  by apply StronglySorted_app_1_l in Hs.
Qed.

Lemma getTopUsers_shape limit e w topUsers w' :
  getTopUsers limit e w = (Ok topUsers, w') →
  ∃ postCounts,
    topUsers = Js.slice (ranking (usersCache (svc w')) postCounts) (Js.Int 0) limit.
Proof.
  unfold getTopUsers.
  destruct (getUsers e w) as [[users|m] w1] eqn:Hget; [|done].
  apply getUsers_returns in Hget.
  destruct (collectPostCounts_keeps (λ s, usersCache s = users)
              (Directory.keys users) e w1) as (Hdir & _); [|done|].
  { by intros userId posts t s ?. }
  destruct (collectPostCounts _ e w1) as [[pc|m] w2]; [|done].
  intros [= <- <-]. exists pc. simpl in Hdir. by rewrite Hdir.
Qed.

Lemma ranking_ids users postCounts :
  TopUser.id <$> ranking users postCounts ≡ₚ Directory.keys users.
Proof.
  unfold ranking. rewrite sortDesc_perm, <- list_fmap_compose.
  induction (Directory.keys users) as [|id ids IH]; [done|].
  simpl. by rewrite IH.
Qed.

(** X12. Whatever [limit] is, the users [getTopUsers] returns are
    distinct users of the directory the service ends with, each with
    the name the directory gives it, in descending order of count; they
    are at most as many as the directory has, and exactly the smaller
    of the limit and the size of the directory for a limit that is a
    natural number. *)
Theorem X12_top_users_come_from_the_directory
    (limit : Js.number) (e : Env) (w w' : World) (topUsers : list TopUser.t) :
  getTopUsers limit e w = (Ok topUsers, w') →
  NoDup (TopUser.id <$> topUsers) ∧
  (∀ u, u ∈ topUsers →
     TopUser.id u ∈ Directory.keys (usersCache (svc w')) ∧
     TopUser.name u = Directory.prop (usersCache (svc w')) (TopUser.id u)) ∧
  StronglySorted (descending postCountKey) topUsers ∧
  (length topUsers ≤ length (Directory.keys (usersCache (svc w'))))%nat ∧
  (∀ n : nat, limit = Js.Int (Z.of_nat n) →
     length topUsers
     = (n `min` length (Directory.keys (usersCache (svc w'))))%nat).
Proof.
  intros Hcall. destruct (getTopUsers_shape _ _ _ _ _ Hcall) as (pc & Htop).
  set (users := usersCache (svc w')) in *.
  destruct (slice_prefix (ranking users pc) limit) as (m & Hm).
  assert (Hlen : length (ranking users pc) = length (Directory.keys users)).
  { by rewrite <- (ranking_ids users pc), length_fmap. }
  split; [|split; [|split; [|split]]].
  - rewrite Htop, Hm, fmap_take.
    apply (sublist_NoDup _ (TopUser.id <$> ranking users pc));
      [|apply sublist_take].
    rewrite ranking_ids. apply keys_nodup.
  - intros u Hu. rewrite Htop, Hm in Hu.
    apply (subseteq_take m) in Hu. unfold ranking in Hu.
    rewrite sortDesc_perm in Hu. apply list_elem_of_fmap in Hu as (id & -> & Hid).
    by split.
  - rewrite Htop, Hm. apply take_strongly_sorted, sortDesc_strongly_sorted.
  - rewrite Htop, Hm, length_take. lia.
  - intros n ->. rewrite Htop, slice_take, length_take. lia.
Qed.

Lemma X12_witness :
  NoDup (TopUser.id <$> (match (getTopUsers (Js.Int (-1)) abcEnv start).1 with
                         | Ok topUsers => topUsers
                         | Err _ => []
                         end)) ∧
  (length (match (getTopUsers (Js.Int 2) abcEnv start).1 with
           | Ok topUsers => topUsers
           | Err _ => []
           end) = 2)%nat.
Proof.
  split.
  - apply (X12_top_users_come_from_the_directory (Js.Int (-1)) abcEnv start
             (getTopUsers (Js.Int (-1)) abcEnv start).2
             [TopUser.mk "B" "Bob" 5; TopUser.mk "C" "Carol" 5] eq_refl).
  - destruct (X12_top_users_come_from_the_directory (Js.Int 2) abcEnv start
                (getTopUsers (Js.Int 2) abcEnv start).2
                [TopUser.mk "B" "Bob" 5; TopUser.mk "C" "Carol" 5] eq_refl)
      as (_ & _ & _ & _ & Hlen).
    exact (Hlen 2%nat eq_refl).
Defined.

Lemma getLatestPosts_shape limit e w latestPosts w' :
  getLatestPosts limit e w = (Ok latestPosts, w') →
  latestPosts
  = Js.slice (Js.sortDesc timestampKey (allPostsCache (svc w'))) (Js.Int 0) limit.
Proof.
  unfold getLatestPosts.
  destruct (getUsers e w) as [[users|m] w1]; [|done].
  destruct (ensureAllPosts _ e w1) as [[u|m] w2]; [|done].
  by intros [= <- <-].
Qed.

(** X13. Whatever [limit] is, the posts [getLatestPosts] returns are
    posts of the merged view the service ends with, each as often at
    most as it is there, newest first; no post left out is newer than a
    post returned; and for a limit that is a natural number they are
    exactly the smaller of the limit and the size of the merged view. *)
Theorem X13_latest_posts_are_the_newest_of_the_merged_view
    (limit : Js.number) (e : Env) (w w' : World) (latestPosts : list Post.t) :
  getLatestPosts limit e w = (Ok latestPosts, w') →
  latestPosts ⊆+ allPostsCache (svc w') ∧
  StronglySorted (descending timestampKey) latestPosts ∧
  (∀ p q, p ∈ latestPosts → q ∈ allPostsCache (svc w') → q ∉ latestPosts →
     timestampKey q ≤ timestampKey p) ∧
  (∀ n : nat, limit = Js.Int (Z.of_nat n) →
     length latestPosts = (n `min` length (allPostsCache (svc w')))%nat).
Proof.
  intros Hcall. apply getLatestPosts_shape in Hcall.
  set (merged := allPostsCache (svc w')) in *.
  destruct (slice_prefix (Js.sortDesc timestampKey merged) limit) as (m & Hm).
  pose proof (sortDesc_strongly_sorted timestampKey merged) as Hsorted.
  split; [|split; [|split]].
  - rewrite Hcall, Hm. rewrite <- (sortDesc_perm timestampKey merged) at 2.
    apply submseteq_take.
  - rewrite Hcall, Hm. by apply take_strongly_sorted.
  - intros p q Hp Hq Hout. rewrite Hcall, Hm in Hp, Hout.
    rewrite <- (sortDesc_perm timestampKey merged) in Hq.
    rewrite <- (take_drop m (Js.sortDesc timestampKey merged)) in Hq, Hsorted.
    apply elem_of_app in Hq as [Hq|Hq]; [done|].
    exact (StronglySorted_app_1_elem_of _ _ _ _ _ Hsorted Hp Hq).
  - intros n ->. rewrite Hcall, slice_take, length_take.
    by rewrite (Permutation_length (sortDesc_perm timestampKey merged)).
Qed.

Lemma X13_witness :
  (length (match (getLatestPosts (Js.Int 2) sampleEnv start).1 with
           | Ok latestPosts => latestPosts
           | Err _ => []
           end) = 2)%nat.
Proof.
  destruct (X13_latest_posts_are_the_newest_of_the_merged_view (Js.Int 2)
              sampleEnv start (getLatestPosts (Js.Int 2) sampleEnv start).2
              [Post.mk 21 2 "d" (Some 1002); Post.mk 22 2 "e" (Some 1002)] eq_refl)
    as (_ & _ & _ & Hlen).
  exact (Hlen 2%nat eq_refl).
Defined.

Lemma getPopularPosts_shape e w popularPosts w' :
  getPopularPosts e w = (Ok popularPosts, w') →
  ∃ counts,
    popularPosts = mostCommented counts (allPostsCache (svc w')) ∧
    ∀ p, p ∈ allPostsCache (svc w') → is_Some (counts !! Post.id p).
Proof.
  unfold getPopularPosts.
  destruct (getUsers e w) as [[users|m] w1]; [|done].
  destruct (ensureAllPosts _ e w1) as [[u|m] w2]; [|done].
  destruct (popularAmong_spec e w2) as (counts & w3 & Heq & Hsome & _).
  destruct (popularAmong_keeps (λ s, allPostsCache s = allPostsCache (svc w2)) e w2)
    as (Hsame & _); [|done|].
  { by intros postId comments t s ?. }
  rewrite Heq in Hsame |- *. simpl in Hsame. intros [= <- <-].
  exists counts. by rewrite Hsame.
Qed.

(** X14. The posts [getPopularPosts] returns are posts of the merged
    view the service ends with, in the order of the merged view, and
    there is at least one of them unless the merged view is empty. *)
Theorem X14_popular_posts_are_a_nonempty_part_of_the_merged_view
    (e : Env) (w w' : World) (popularPosts : list Post.t) :
  getPopularPosts e w = (Ok popularPosts, w') →
  popularPosts `sublist_of` allPostsCache (svc w') ∧
  (popularPosts = [] ↔ allPostsCache (svc w') = []).
Proof.
  intros Hcall. apply getPopularPosts_shape in Hcall as (counts & -> & _).
  split; [apply sublist_filter|]. split.
  - intros Hnone. destruct (decide (allPostsCache (svc w') = [])) as [|Hne]; [done|].
    destruct (maxOver_attained (countIn counts) _ Hne) as (p & Hp & Hmax).
    assert (p ∈ mostCommented counts (allPostsCache (svc w'))) as Hin.
    { apply list_elem_of_filter. by split. }
    rewrite Hnone in Hin. by apply elem_of_nil in Hin.
  - intros ->. done.
Qed.

Lemma X14_witness :
  [Post.mk 2 1 "b" (Some 1001); Post.mk 3 1 "c" (Some 1001)]
  `sublist_of` allPostsCache (svc (getPopularPosts popularEnv start).2).
Proof.
  apply (X14_popular_posts_are_a_nonempty_part_of_the_merged_view popularEnv start
           (getPopularPosts popularEnv start).2
           [Post.mk 2 1 "b" (Some 1001); Post.mk 3 1 "c" (Some 1001)] eq_refl).
Defined.

(** ** The handler of the posts and the start-up *)

(** X15. The handler of the posts answers 400 exactly when the type,
    once an absent or empty one has been replaced by [latest], is
    neither [popular] nor [latest]; it then has not called the service,
    read the clock or sent a request.  An absent and an empty type are
    handled as [latest]. *)
Theorem X15_unknown_post_type_is_rejected_untouched
    (queryType : option string) (e : Env) (w : World) :
  (Controller.typeOf queryType ≠ "popular" →
   Controller.typeOf queryType ≠ "latest" →
   Controller.getPosts queryType e w
   = (Controller.Invalid400 Controller.invalidTypeMessage, w)) ∧
  (∀ error, (Controller.getPosts queryType e w).1 = Controller.Invalid400 error →
     Controller.typeOf queryType ≠ "popular" ∧
     Controller.typeOf queryType ≠ "latest") ∧
  Controller.getPosts None e w = Controller.getPosts (Some "latest") e w ∧
  Controller.getPosts (Some "") e w = Controller.getPosts (Some "latest") e w.
Proof.
  split; [|split; [|done]].
  - intros Hpopular Hlatest. unfold Controller.getPosts. cbv zeta.
    by rewrite !decide_False.
  - intros error. unfold Controller.getPosts. cbv zeta.
    destruct (decide (_ = "popular")) as [|Hpopular].
    { by destruct (getPopularPosts e w) as [[?|?] ?]. }
    destruct (decide (_ = "latest")) as [|Hlatest]; [|done].
    by destruct (getLatestPosts _ e w) as [[?|?] ?].
Qed.

Lemma X15_witness :
  Controller.getPosts (Some "Popular") sampleEnv start
  = (Controller.Invalid400 Controller.invalidTypeMessage, start).
Proof.
  apply (X15_unknown_post_type_is_rejected_untouched (Some "Popular") sampleEnv start);
    apply (bool_decide_unpack _); vm_compute; exact Logic.I.
Defined.

(** X16. For the type [latest], given or by default, the handler
    answers 500 with its fixed message when the service throws, and
    otherwise 200 with the five newest posts of the merged view, or
    with all of them when there are fewer: the handler never passes a
    limit on. *)
Theorem X16_latest_posts_handler_answers_five
    (queryType : option string) (e : Env) (w : World) :
  Controller.typeOf queryType = "latest" →
  (∃ m, getLatestPosts defaultLimit e w
        = (Err m, (Controller.getPosts queryType e w).2) ∧
        (Controller.getPosts queryType e w).1
        = Controller.PostsError500 "Failed to fetch posts")
  ∨ (∃ posts,
       (Controller.getPosts queryType e w).1 = Controller.Posts200 posts ∧
       posts = take 5 (Js.sortDesc timestampKey
                         (allPostsCache (svc (Controller.getPosts queryType e w).2))) ∧
       length posts
       = (5 `min` length (allPostsCache
                            (svc (Controller.getPosts queryType e w).2)))%nat).
Proof.
  intros Htype. unfold Controller.getPosts. cbv zeta. rewrite Htype.
  rewrite decide_False by done. rewrite decide_True by done.
  destruct (getLatestPosts defaultLimit e w) as [[posts|m] w'] eqn:Hcall; simpl.
  - right. exists posts. split; [done|].
    apply getLatestPosts_shape in Hcall. unfold defaultLimit in Hcall.
    rewrite (slice_take _ 5) in Hcall. split; [done|].
    rewrite Hcall, length_take.
    by rewrite (Permutation_length (sortDesc_perm timestampKey _)).
  - left. by exists m.
Qed.

Lemma X16_witness :
  (∃ m, getLatestPosts defaultLimit sampleEnv start
        = (Err m, (Controller.getPosts None sampleEnv start).2) ∧
        (Controller.getPosts None sampleEnv start).1
        = Controller.PostsError500 "Failed to fetch posts")
  ∨ (∃ posts,
       (Controller.getPosts None sampleEnv start).1 = Controller.Posts200 posts ∧
       posts = take 5 (Js.sortDesc timestampKey
                         (allPostsCache (svc (Controller.getPosts None sampleEnv start).2))) ∧
       length posts
       = (5 `min` length (allPostsCache
                            (svc (Controller.getPosts None sampleEnv start).2)))%nat).
Proof.
  apply (X16_latest_posts_handler_answers_five None sampleEnv start). reflexivity.
Defined.

Lemma orDefault_nonempty v d : d ≠ "" → orDefault v d ≠ "".
Proof. intros Hd. by destruct v as [[|c s]|]. Qed.

Lemma listenCallback_sends e w :
  baseUrl (svc w) ≠ "" →
  listenCallback e w
  = match usersEndpoint e (length (log w)) with
    | Some _ => send GetPosts (send GetUsers w)
    | None => send GetUsers w
    end.
Proof.
  intros Hurl. unfold listenCallback, updateCache, updateCacheBody.
  rewrite (bool_decide_eq_false_2 _ Hurl).
  destruct (usersEndpoint e _); [|done]. by destruct (allPostsEndpoint e _).
Qed.

(** X17. Whatever the environment variables hold, the constructed
    service has a base URL, so the start-up callback always requests
    the users, and the posts as well exactly when the users request
    succeeded; it stores nothing of what it receives, and the first
    lookup of the directory after start-up sends its own request. *)
Theorem X17_start_up_requests_and_stores_nothing
    (TEST_SERVER_URL BEARER_TOKEN : option string) (e : Env) :
  baseUrl (construct TEST_SERVER_URL BEARER_TOKEN) ≠ "" ∧
  svc (listenCallback e (boot TEST_SERVER_URL BEARER_TOKEN))
  = construct TEST_SERVER_URL BEARER_TOKEN ∧
  log (listenCallback e (boot TEST_SERVER_URL BEARER_TOKEN))
  = match usersEndpoint e 0 with
    | Some _ => [GetUsers; GetPosts]
    | None => [GetUsers]
    end ∧
  ∀ e2,
    log (getUsers e2 (listenCallback e (boot TEST_SERVER_URL BEARER_TOKEN))).2
    = log (listenCallback e (boot TEST_SERVER_URL BEARER_TOKEN)) ++ [GetUsers].
Proof.
  assert (Hurl : baseUrl (svc (boot TEST_SERVER_URL BEARER_TOKEN)) ≠ "").
  { simpl. by apply orDefault_nonempty. }
  split; [done|]. rewrite (listenCallback_sends e _ Hurl).
  change (length (log (boot TEST_SERVER_URL BEARER_TOKEN))) with 0%nat.
  destruct (usersEndpoint e 0) as [users|];
    (split; [done|]; split; [done|]; intros e2;
     unfold getUsers, getUsers_start, dateNow; simpl;
     by destruct (usersEndpoint e2 _)).
Qed.

(** ** Edge cases of the aggregations *)

Lemma slice_nil {A} (start end_ : Js.number) : Js.slice ([] : list A) start end_ = [].
Proof. unfold Js.slice. by rewrite drop_nil, take_nil. Qed.

(** X18. When the directory lookup returns a directory without users,
    [getTopUsers] returns no user, and, if the merged view is empty,
    [getLatestPosts] and [getPopularPosts] return no post; none of them
    sends a request or reads the clock after the directory lookup. *)
Theorem X18_empty_directory_gives_empty_answers
    (e : Env) (w w1 : World) (users : Directory.t) :
  getUsers e w = (Ok users, w1) →
  Directory.keys users = [] →
  (∀ limit, getTopUsers limit e w = (Ok [], w1)) ∧
  (allPostsCache (svc w) = [] →
   (∀ limit, getLatestPosts limit e w = (Ok [], w1)) ∧
   getPopularPosts e w = (Ok [], w1)).
Proof.
  intros Hget Hkeys.
  destruct (getUsers_counts e w _ _ Hget) as (_ & _ & Hmerged).
  split.
  - intros limit. unfold getTopUsers. rewrite Hget. cbv zeta. rewrite Hkeys.
    unfold collectPostCounts. case_bool_decide; simpl;
      rewrite promiseAll_nil; simpl; by rewrite slice_nil.
  - intros Hempty. rewrite Hempty in Hmerged.
    assert (Hensure : ensureAllPosts [] e w1 = (Ok (), w1)).
    { unfold ensureAllPosts. rewrite Hmerged. simpl. by rewrite promiseAll_nil. }
    split.
    + intros limit. unfold getLatestPosts. rewrite Hget. cbv zeta.
      rewrite Hkeys, Hensure, Hmerged. simpl. by rewrite slice_nil.
    + unfold getPopularPosts. rewrite Hget. cbv zeta. rewrite Hkeys, Hensure.
      unfold popularAmong. rewrite Hmerged. simpl. by rewrite Hmerged.
Qed.

Lemma X18_witness :
  getTopUsers defaultLimit emptyDirectoryEnv start
    = (Ok [], (getUsers emptyDirectoryEnv start).2) ∧
  getLatestPosts defaultLimit emptyDirectoryEnv start
    = (Ok [], (getUsers emptyDirectoryEnv start).2) ∧
  getPopularPosts emptyDirectoryEnv start
    = (Ok [], (getUsers emptyDirectoryEnv start).2).
Proof.
  destruct (X18_empty_directory_gives_empty_answers emptyDirectoryEnv start
              (getUsers emptyDirectoryEnv start).2 [] eq_refl eq_refl)
    as (Htop & Hrest).
  destruct (Hrest eq_refl) as (Hlatest & Hpopular).
  split; [apply Htop|]. split; [apply Hlatest|apply Hpopular].
Defined.

(** ** Comment counts that are already cached *)

Section CachedCounts.
Context (e : Env) (w : World).

Lemma countComments_cached post counts :
  is_Some (postCommentCountCache (svc w) !! Post.id post) →
  countComments post e w counts
  = (Settled (Ok ()), w,
     <[Post.id post := default 0%nat (postCommentCountCache (svc w) !! Post.id post)]>
       counts).
Proof. intros Hs. unfold countComments. apply has_true in Hs. by rewrite Hs. Qed.

Lemma startAll_cached batch : ∀ counts,
  (∀ p, p ∈ batch → is_Some (postCommentCountCache (svc w) !! Post.id p)) →
  ∃ counts',
    startAll (countComments <$> batch) e w counts
    = ((λ _, Settled (Ok ())) <$> batch, w, counts') ∧
    ∀ k, counts' !! k = counts !! k
         ∨ counts' !! k = postCommentCountCache (svc w) !! k.
Proof.
  induction batch as [|p batch IH]; intros counts Hall.
  { exists counts. split; [done|]. by left. }
  destruct (Hall p) as [c Hc]; [apply elem_of_cons; by left|].
  rewrite !fmap_cons. cbn [startAll].
  rewrite countComments_cached by done. rewrite Hc. cbn [default from_option id].
  destruct (IH (<[Post.id p := c]> counts)) as (counts' & Heq & Hk).
  { intros q Hq. apply Hall. apply elem_of_cons. by right. }
  rewrite Heq. exists counts'. split; [done|]. intros k.
  destruct (Hk k) as [Hl|Hr]; [|by right].
  destruct (decide (k = Post.id p)) as [->|Hne].
  - right. by rewrite Hl, lookup_insert_eq.
  - left. by rewrite Hl, lookup_insert_ne.
Qed.

Lemma firstRejected_settled {Σ B} (l : list B) :
  firstRejected ((λ _, Settled (Ok ()) : Started Σ ()) <$> l) = None.
Proof. by induction l. Qed.

Lemma settle_settled {Σ A} order (slots : list (Started Σ A)) σ :
  (∀ i req k, slots !! i ≠ Some (Pending req k)) →
  settle order slots σ = (None, slots, σ).
Proof.
  intros Hnone. induction order as [|i order IH]; simpl; [done|].
  destruct (slots !! i) as [[r|req k]|] eqn:Hi; [done| |done].
  by destruct (Hnone i req k).
Qed.

Lemma promiseAll_cached batch counts :
  (∀ p, p ∈ batch → is_Some (postCommentCountCache (svc w) !! Post.id p)) →
  ∃ rs counts',
    promiseAll (countComments <$> batch) e w counts = (Ok rs, w, counts') ∧
    ∀ k, counts' !! k = counts !! k
         ∨ counts' !! k = postCommentCountCache (svc w) !! k.
Proof.
  intros Hall. destruct (startAll_cached batch counts Hall) as (counts' & Heq & Hk).
  unfold promiseAll. rewrite Heq, firstRejected_settled.
  rewrite settle_settled.
  - rewrite withSvc_same. eauto.
  - intros i req k. rewrite list_lookup_fmap. by destruct (batch !! i).
Qed.

Lemma batches_cached allPosts :
  (∀ p, p ∈ allPosts → is_Some (postCommentCountCache (svc w) !! Post.id p)) →
  ∀ fuel i counts,
  ∃ counts',
    batches fuel i allPosts e w counts = (Ok (), w, counts') ∧
    ∀ k, counts' !! k = counts !! k
         ∨ counts' !! k = postCommentCountCache (svc w) !! k.
Proof.
  intros Hall. induction fuel as [|fuel IH]; intros i counts; simpl.
  { exists counts. split; [done|]. by left. }
  case_bool_decide; [|exists counts; split; [done|by left]].
  rewrite slice_range.
  destruct (promiseAll_cached (take batchSize (drop i allPosts)) counts)
    as (rs & c1 & Heq & Hk1).
  { intros p Hp. apply Hall.
    eapply elem_of_sublist; [eapply elem_of_sublist; [exact Hp|apply sublist_take]|].
    apply sublist_drop. }
  rewrite Heq. destruct (IH (i + batchSize)%nat c1) as (c2 & Heq2 & Hk2).
  rewrite Heq2. exists c2. split; [done|]. intros k.
  destruct (Hk2 k) as [-> | ->]; [apply Hk1|by right].
Qed.
End CachedCounts.

Lemma maxOver_ext {A} (f g : A → nat) l :
  (∀ a, a ∈ l → f a = g a) → maxOver f l = maxOver g l.
Proof.
  induction l as [|a l IH]; intros Hext; simpl; [done|].
  rewrite (Hext a) by (apply elem_of_cons; by left).
  rewrite IH; [done|]. intros b Hb. apply Hext. apply elem_of_cons. by right.
Qed.

Lemma mostCommented_ext counts1 counts2 merged :
  (∀ p, p ∈ merged → countIn counts1 p = countIn counts2 p) →
  mostCommented counts1 merged = mostCommented counts2 merged.
Proof.
  intros Hext. unfold mostCommented. rewrite (maxOver_ext _ _ _ Hext).
  apply filter_ext_in. intros p Hp. by rewrite (Hext p Hp).
Qed.

(** X19. A cached comment count is never refreshed by
    [getPopularPosts]: when the merged view is not empty and each of its
    posts has a cached count, the call sends no request and reads no
    clock after the directory lookup, however old the counts are, and
    returns the posts whose cached count is the largest. *)
Theorem X19_cached_comment_counts_are_never_refreshed
    (e : Env) (w w1 : World) (users : Directory.t) :
  getUsers e w = (Ok users, w1) →
  allPostsCache (svc w) ≠ [] →
  (∀ p, p ∈ allPostsCache (svc w) →
        is_Some (postCommentCountCache (svc w) !! Post.id p)) →
  getPopularPosts e w
  = (Ok (mostCommented (postCommentCountCache (svc w)) (allPostsCache (svc w))),
     w1).
Proof.
  intros Hget Hne Hall.
  destruct (getUsers_counts e w _ _ Hget) as (_ & _ & Hmerged).
  assert (Hcache : postCommentCountCache (svc w1) = postCommentCountCache (svc w)).
  { destruct (getUsers_frame e w _ _ Hget) as [-> | (us & t & ->)]; done. }
  unfold getPopularPosts. rewrite Hget. cbv zeta.
  rewrite ensureAllPosts_nonempty by (by rewrite Hmerged).
  destruct (popularAmong_spec e w1) as (counts & w3 & Heq & Hsome & _).
  destruct (batches_cached e w1 (allPostsCache (svc w1))) with
    (fuel := length (allPostsCache (svc w1))) (i := 0%nat)
    (counts := (∅ : gmap Z nat)) as (c' & Hb & Hk).
  { intros p Hp. rewrite Hcache. apply Hall. by rewrite <- Hmerged. }
  pose proof Heq as Heq'. unfold popularAmong in Heq'. rewrite Hb in Heq'.
  injection Heq' as -> _ <-. rewrite Heq. f_equal. f_equal.
  rewrite Hmerged in *. apply mostCommented_ext. intros p Hp.
  unfold countIn. destruct (Hk (Post.id p)) as [Hl|Hr].
  - destruct (Hsome p Hp) as [c Hc]. rewrite lookup_empty in Hl. congruence.
  - by rewrite Hr, Hcache.
Qed.

Lemma X19_witness :
  getPopularPosts downEnv (getPopularPosts popularEnv start).2
  = (Ok [Post.mk 2 1 "b" (Some 1001); Post.mk 3 1 "c" (Some 1001)],
     (getUsers downEnv (getPopularPosts popularEnv start).2).2).
Proof.
  apply (X19_cached_comment_counts_are_never_refreshed downEnv
           (getPopularPosts popularEnv start).2
           (getUsers downEnv (getPopularPosts popularEnv start).2).2
           [("1", "Alice")]).
  - reflexivity.
  - apply (bool_decide_unpack _). vm_compute. exact Logic.I.
  - apply Forall_forall. apply (bool_decide_unpack _). vm_compute. exact Logic.I.
Defined.

(** X20. In a world reached from construction, the count
    [getPopularPosts] uses for a post is settled by the count cache and
    the server alone, provided the posts of the merged view have
    distinct ids: it is the cached count when there is one, and
    otherwise the number of comments the server answers with, or 0 when
    the request for them fails. *)
Theorem X20_comment_counts_in_a_reachable_world
    (e : Env) (w w1 w2 : World) (users : Directory.t) :
  reachable w →
  getUsers e w = (Ok users, w1) →
  ensureAllPosts (Directory.keys users) e w1 = (Ok (), w2) →
  NoDup (Post.id <$> allPostsCache (svc w2)) →
  ∃ counts w3,
    getPopularPosts e w
    = (Ok (mostCommented counts (allPostsCache (svc w2))), w3) ∧
    ∀ p, p ∈ allPostsCache (svc w2) →
      (∀ c, postCommentCountCache (svc w) !! Post.id p = Some c →
            counts !! Post.id p = Some c) ∧
      (postCommentCountCache (svc w) !! Post.id p = None →
       (∀ comments, (∀ n, commentsEndpoint e n (Post.id p) = Some comments) →
                    counts !! Post.id p = Some (length comments)) ∧
       ((∀ n, commentsEndpoint e n (Post.id p) = None) →
        counts !! Post.id p = Some 0%nat)).
Proof.
  intros Hreach Hget Hensure Hnodup.
  assert (Haligned : commentsAligned (svc w)).
  { destruct commentsAligned_closed as (Hu & Hp & Hc).
    apply reachable_keeps; [done..| |done]. intros url tok. split; simpl.
    - by rewrite fmap_empty.
    - by rewrite !dom_empty_L. }
  assert (Hsame : sameComments (svc w) (svc w2)).
  { destruct (getUsers_keeps (sameComments (svc w)) e w) as (H1 & _); [|done|].
    { by intros us t s ?. }
    rewrite Hget in H1. simpl in H1.
    destruct (ensureAllPosts_keeps (sameComments (svc w))
                (Directory.keys users) e w1) as (H2 & _); [|done|].
    { by intros id posts t s ?. }
    by rewrite Hensure in H2. }
  destruct Hsame as (Hcomments & _ & Hcounts).
  destruct Haligned as (Hlen & _).
  destruct (getPopularPosts_ok e w users w1 w2 Hget Hensure)
    as (counts & w3 & Heq & _ & Hcount).
  exists counts, w3. split; [done|]. intros p Hp.
  specialize (Hcount Hnodup p).
  assert (Hnocomments :
    postCommentCountCache (svc w) !! Post.id p = None →
    commentsCache (svc w2) !! Post.id p = None).
  { rewrite Hcomments, Hlen, lookup_fmap. apply fmap_None. }
  split.
  - intros c Hc. apply Hcount; [done|]. left. by rewrite Hcounts.
  - intros Hnone. split.
    + intros comments Hanswer. apply Hcount; [done|]. right.
      rewrite Hcounts. split; [done|]. split; [by apply Hnocomments|].
      left. by exists comments.
    + intros Hdown. apply Hcount; [done|]. right.
      rewrite Hcounts. split; [done|]. split; [by apply Hnocomments|].
      by right.
Qed.

Lemma X20_witness :
  ∃ counts w3,
    getPopularPosts popularEnv start
    = (Ok (mostCommented counts
             (allPostsCache
                (svc (ensureAllPosts ["1"] popularEnv
                        (getUsers popularEnv start).2).2))), w3) ∧
    counts !! 1 = Some 2%nat.
Proof.
  destruct (X20_comment_counts_in_a_reachable_world popularEnv start
              (getUsers popularEnv start).2
              (ensureAllPosts ["1"] popularEnv (getUsers popularEnv start).2).2
              [("1", "Alice")]
              (reachable_boot (Some "http://20.244.56.144/test") (Some "secret"))
              eq_refl eq_refl)
    as (counts & w3 & Heq & Hcounts).
  { apply (bool_decide_unpack _). vm_compute. exact Logic.I. }
  exists counts, w3. split; [exact Heq|].
  destruct (Hcounts (Post.mk 1 1 "a" (Some 1001))) as [_ Hnone].
  { apply (bool_decide_unpack _). vm_compute. exact Logic.I. }
  destruct (Hnone eq_refl) as [Hanswered _].
  apply (Hanswered (replicate 2 (Comment.mk 0 1 "x"))). intros n. reflexivity.
Defined.

(** ** What the aggregations throw *)

Section Throws.
Context {L A : Type} (E : Error → Prop).

Lemma settle_throws order : ∀ (slots : list (Started (DataService * L) A)) σ,
  Forall (throwsOnly E) slots →
  ∀ m, (settle order slots σ).1.1 = Some m → E m.
Proof.
  induction order as [|i order IH]; intros slots σ Hall m; simpl; [done|].
  destruct (slots !! i) as [[r|req k]|] eqn:Hi; [by apply IH| |by apply IH].
  pose proof (Forall_lookup_1 _ _ _ _ Hall Hi σ) as Hk.
  destruct (k σ) as [[a|m1] σ1]; simpl in *.
  - apply IH. by apply Forall_insert.
  - intros [= <-]. by apply Hk.
Qed.

Lemma firstRejected_throws (slots : list (Started (DataService * L) A)) m :
  Forall (throwsOnly E) slots → firstRejected slots = Some m → E m.
Proof.
  induction 1 as [|st slots Hst Hall IH]; simpl; [done|].
  destruct st as [[a|m1]|req k]; simpl in *; [done| |done].
  by intros [= <-].
Qed.

Lemma startAll_throws (tasks : list (Task L A)) e : ∀ w l,
  Forall (λ t, ∀ e w l, throwsOnly E (t e w l).1.1) tasks →
  Forall (throwsOnly E) (startAll tasks e w l).1.1.
Proof.
  induction tasks as [|t tasks IH]; intros w l Hall; simpl; [constructor|].
  apply Forall_cons in Hall as [Ht Hall]. specialize (Ht e w l).
  destruct (t e w l) as [[st w1] l1]. specialize (IH w1 l1 Hall).
  destruct (startAll tasks e w1 l1) as [[sts w2] l2]. simpl in *.
  by constructor.
Qed.

Lemma promiseAll_throws (tasks : list (Task L A)) e w l m w2 l2 :
  Forall (λ t, ∀ e w l, throwsOnly E (t e w l).1.1) tasks →
  promiseAll tasks e w l = (Err m, w2, l2) → E m.
Proof.
  intros Hall. pose proof (startAll_throws tasks e w l Hall) as Hslots.
  unfold promiseAll. destruct (startAll tasks e w l) as [[slots w1] l1].
  simpl in Hslots. destruct (firstRejected slots) as [m1|] eqn:Hfirst.
  { intros [= <- _ _]. by eapply firstRejected_throws. }
  pose proof (settle_throws (sched e (length (log w)) ++ seq 0 (length slots))
                slots (svc w1, l1) Hslots) as Hsettle.
  destruct (settle _ slots _) as [[[m1|] slots1] [s1 l3]]; simpl in *; [|done].
  intros [= <- _ _]. by apply Hsettle.
Qed.
End Throws.

Lemma ensureAllPosts_throws userIds e w m w2 :
  ensureAllPosts userIds e w = (Err m, w2) →
  allPostsCache (svc w) = [] ∧
  ∃ id, id ∈ userIds ∧ m = FailedToFetchPosts id.
Proof.
  unfold ensureAllPosts. case_bool_decide as Hempty; [|done].
  destruct (promiseAll _ e w ()) as [[[rs|m1] w3] u] eqn:Hall; [done|].
  intros [= <- <-]. split; [by apply nil_length_inv|].
  apply (promiseAll_throws (λ m, ∃ id, id ∈ userIds ∧ m = FailedToFetchPosts id))
    in Hall; [done|].
  apply Forall_fmap, Forall_forall. intros id Hid e0 w0 l. simpl.
  unfold plain, getUserPosts_start, dateNow. simpl.
  destruct (_ && _); simpl; [done|].
  intros [s u0] m0. unfold onService, getUserPosts_resume. simpl.
  destruct (postsEndpoint e0 _ id); simpl; [done|].
  destruct (has _ _); simpl; [done|]. intros [= <-]. by exists id.
Qed.

(** X21. What the aggregations throw.  [getTopUsers] throws only when
    the directory lookup does, a failed posts lookup being counted as
    0.  [getLatestPosts] and [getPopularPosts] throw when the directory
    lookup does, or, and only if the merged view was empty, when the
    posts of a user of the directory could not be fetched; they never
    throw for comments.  The handler of the top users answers 500
    only when the directory lookup throws. *)
Theorem X21_what_the_aggregations_throw (e : Env) (w w' : World) (m : Error) :
  (∀ limit, getTopUsers limit e w = (Err m, w') →
     m = FailedToFetchUsers ∧ getUsers e w = (Err m, w')) ∧
  (∀ limit, getLatestPosts limit e w = (Err m, w') →
     (m = FailedToFetchUsers ∧ getUsers e w = (Err m, w')) ∨
     (allPostsCache (svc w) = [] ∧
      ∃ id, id ∈ Directory.keys (usersCache (svc w')) ∧ m = FailedToFetchPosts id)) ∧
  (getPopularPosts e w = (Err m, w') →
     (m = FailedToFetchUsers ∧ getUsers e w = (Err m, w')) ∨
     (allPostsCache (svc w) = [] ∧
      ∃ id, id ∈ Directory.keys (usersCache (svc w')) ∧ m = FailedToFetchPosts id)) ∧
  (∀ queryLimit error,
     Controller.getTopUsers queryLimit e w = (Controller.Error500 error, w') →
     error = "Failed to fetch top users" ∧
     getUsers e w = (Err FailedToFetchUsers, w')).
Proof.
  assert (Htop : ∀ limit m0 w0, getTopUsers limit e w = (Err m0, w0) →
            m0 = FailedToFetchUsers ∧ getUsers e w = (Err m0, w0)).
  { intros limit m0 w0 Hcall.
    destruct (getUsers e w) as [[users|m1] w1] eqn:Hget.
    - destruct (getTopUsers_counts limit e w users w1 Hget) as (pc & w2 & Heq & _).
      congruence.
    - rewrite (getTopUsers_err limit e w m1 w1 Hget) in Hcall.
      injection Hcall as <- <-. split; [by eapply getUsers_error|done]. }
  assert (Hposts : ∀ users w1 m0 w0,
            getUsers e w = (Ok users, w1) →
            ensureAllPosts (Directory.keys users) e w1 = (Err m0, w0) →
            allPostsCache (svc w) = [] ∧
            ∃ id, id ∈ Directory.keys (usersCache (svc w0))
                  ∧ m0 = FailedToFetchPosts id).
  { intros users w1 m0 w0 Hget Hensure.
    destruct (getUsers_counts e w _ _ Hget) as (_ & _ & Hmerged).
    destruct (ensureAllPosts_keeps (λ s, usersCache s = users)
                (Directory.keys users) e w1) as (Hdir & _).
    { by intros id posts t s ?. }
    { by eapply getUsers_returns. }
    rewrite Hensure in Hdir. simpl in Hdir.
    apply ensureAllPosts_throws in Hensure as [Hempty Hid].
    rewrite Hdir. by rewrite <- Hmerged. }
  split; [|split; [|split]].
  - intros limit. apply Htop.
  - intros limit. unfold getLatestPosts.
    destruct (getUsers e w) as [[users|m1] w1] eqn:Hget.
    + destruct (ensureAllPosts _ e w1) as [[u|m2] w2] eqn:Hensure; [done|].
      intros [= <- <-]. right. by eapply Hposts.
    + intros [= <- <-]. left. split; [by eapply getUsers_error|done].
  - unfold getPopularPosts.
    destruct (getUsers e w) as [[users|m1] w1] eqn:Hget.
    + destruct (ensureAllPosts _ e w1) as [[u|m2] w2] eqn:Hensure.
      * destruct (popularAmong_spec e w2) as (counts & w3 & -> & _). done.
      * intros [= <- <-]. right. by eapply Hposts.
    + intros [= <- <-]. left. split; [by eapply getUsers_error|done].
  - intros queryLimit error. unfold Controller.getTopUsers.
    destruct (getTopUsers _ e w) as [[topUsers|m0] w0] eqn:Hcall; [done|].
    intros [= <- <-]. split; [done|].
    destruct (Htop _ _ _ Hcall) as [-> Hget]. done.
Qed.

Lemma X21_witness :
  (FailedToFetchPosts "2" = FailedToFetchUsers ∧
   getUsers partialEnv start
   = (Err (FailedToFetchPosts "2"), (getLatestPosts defaultLimit partialEnv start).2))
  ∨ (allPostsCache (svc start) = [] ∧
     ∃ id, id ∈ Directory.keys
                  (usersCache (svc (getLatestPosts defaultLimit partialEnv start).2))
           ∧ FailedToFetchPosts "2" = FailedToFetchPosts id).
Proof.
  destruct (X21_what_the_aggregations_throw partialEnv start
              (getLatestPosts defaultLimit partialEnv start).2
              (FailedToFetchPosts "2")) as (_ & Hlatest & _).
  apply (Hlatest defaultLimit). reflexivity.
Defined.

(** ** The merged view after a cold start *)

Lemma partition_by_key {A K} `{EqDecision K} (key : A → K) (ks : list K) :
  ∀ l : list A,
    NoDup ks → (∀ x, x ∈ l → key x ∈ ks) →
    l ≡ₚ concat ((λ k, filter (λ x, key x = k) l) <$> ks).
Proof.
  induction ks as [|k ks IH]; intros l Hnd Hin.
  - destruct l as [|x l]; [done|].
    destruct (proj1 (elem_of_nil (key x))). apply Hin, elem_of_cons. by left.
  - apply NoDup_cons in Hnd as [Hk Hnd]. rewrite fmap_cons. simpl concat.
    trans (filter (λ x, key x = k) l ++ filter (λ x, ¬ key x = k) l);
      [symmetry; apply filter_app_complement|].
    apply Permutation_app; [done|].
    etrans; [apply (IH _ Hnd)|].
    + intros x [Hne Hx]%list_elem_of_filter.
      apply Hin, elem_of_cons in Hx as [?|?]; done.
    + assert ((λ k0, filter (λ x, key x = k0) (filter (λ x, ¬ key x = k) l)) <$> ks
              = (λ k0, filter (λ x, key x = k0) l) <$> ks) as ->; [|done].
      apply list_fmap_ext. intros i k0 Hi. apply list_filter_filter_l.
      intros x -> ->. apply Hk. by eapply list_elem_of_lookup_2.
Qed.

Section ColdStart.
Context (e : Env) (ids : list string) (posts : string → list Post.t) (w : World).
Hypothesis Hdistinct : NoDup (Js.parseInt <$> ids).
Hypothesis Hanswered : ∀ id, id ∈ ids → answered e id (posts id).
Hypothesis Howner :
  ∀ id p, id ∈ ids → p ∈ posts id → Js.Int (Post.userid p) = Js.parseInt id.

Lemma plain_cold id w0 :
  postsCache (svc w0) !! Js.parseInt id = None →
  plain (getUserPosts_start id) e w0 ()
  = (Pending (GetUserPosts id)
       (onService (getUserPosts_resume id (Js.parseInt id) (clock e (ticks w0))
                     (postsEndpoint e (length (log w0)) id))),
     send (GetUserPosts id) (tick w0), ()).
Proof.
  intros Hnone. unfold plain, getUserPosts_start, dateNow. cbv zeta. simpl svc.
  apply has_false in Hnone. by rewrite Hnone.
Qed.

Lemma startAll_cold (ids0 : list string) : ∀ w0,
  (∀ id, id ∈ ids0 → postsCache (svc w0) !! Js.parseInt id = None) →
  (∀ id, id ∈ ids0 → answered e id (posts id)) →
  ∃ slots w1,
    startAll (plain ∘ getUserPosts_start <$> ids0) e w0 () = (slots, w1, ()) ∧
    svc w1 = svc w0 ∧ log w1 = log w0 ++ (GetUserPosts <$> ids0) ∧
    length slots = length ids0 ∧
    ∀ i id, ids0 !! i = Some id →
      slots !! i
      = Some (Pending (GetUserPosts id)
                (onService (getUserPosts_resume id (Js.parseInt id)
                              (clock e (ticks w0 + i)) (Some (posts id))))).
Proof.
  induction ids0 as [|id ids0 IH]; intros w0 Hnone Hans.
  { exists [], w0. simpl. by rewrite app_nil_r. }
  rewrite fmap_cons. cbn [startAll].
  change ((plain ∘ getUserPosts_start) id) with (plain (getUserPosts_start id)).
  rewrite plain_cold by (apply Hnone, elem_of_cons; by left).
  rewrite (Hans id) by (apply elem_of_cons; by left).
  destruct (IH (send (GetUserPosts id) (tick w0)))
    as (slots & w1 & Heq & Hsvc & Hlog & Hlen & Hslots).
  { intros id' Hid'. apply Hnone, elem_of_cons. by right. }
  { intros id' Hid'. apply Hans, elem_of_cons. by right. }
  rewrite Heq. eexists (_ :: slots), w1. split; [done|]. split; [done|].
  split; [by rewrite Hlog; simpl; rewrite <- app_assoc|].
  split; [by simpl; rewrite Hlen|].
  intros [|i] id' Hi; simpl in *.
  - injection Hi as <-. by rewrite Nat.add_0_r.
  - rewrite (Hslots i id' Hi). by rewrite Nat.add_succ_r.
Qed.

Let I (σ : DataService * ()) : Prop :=
  ∀ p, p ∈ allPostsCache σ.1 →
       Js.Int (Post.userid p) ∈ Js.parseInt <$> ids.

Let P (i : nat) (σ : DataService * ()) : Prop := True.

Let Q (i : nat) (σ : DataService * ()) : Prop :=
  ∀ id, ids !! i = Some id →
    filter (λ p, Js.Int (Post.userid p) = Js.parseInt id) (allPostsCache σ.1)
    = fetchedAt e posts (ticks w) i id ∧
    postsCache σ.1 !! Js.parseInt id = Some (fetchedAt e posts (ticks w) i id).

Lemma fetchedAt_owner i id p :
  id ∈ ids → p ∈ fetchedAt e posts (ticks w) i id →
  Js.Int (Post.userid p) = Js.parseInt id.
Proof.
  intros Hid (q & -> & Hq)%list_elem_of_fmap. simpl. by apply Howner.
Qed.

Lemma cold_step i id (σ : DataService * ()) :
  ids !! i = Some id →
  I σ →
  ∃ σ',
    onService (getUserPosts_resume id (Js.parseInt id) (clock e (ticks w + i))
                 (Some (posts id))) σ
    = (Ok (fetchedAt e posts (ticks w) i id), σ') ∧
    I σ' ∧ Q i σ' ∧
    ∀ j, j ≠ i → (P j σ → P j σ') ∧ (Q j σ → Q j σ').
Proof.
  intros Hi HI. destruct σ as [s u].
  assert (Hid : id ∈ ids) by (by eapply list_elem_of_lookup_2).
  eexists. split; [done|]. unfold I, P, Q in *.
  cbn [fst snd storePosts allPostsCache postsCache] in *. split; [|split].
  - intros p [Hp|Hp]%elem_of_app.
    + apply list_elem_of_filter in Hp as [_ Hp]. by apply HI.
    + rewrite (fetchedAt_owner i id p Hid Hp). by apply list_elem_of_fmap_2.
  - intros id' Hi'. assert (id' = id) as -> by congruence.
    split; [|apply lookup_insert_eq].
    rewrite filter_app.
    rewrite (filter_all_in _ (fetchedAt e posts (ticks w) i id))
      by (intros p Hp; by eapply fetchedAt_owner).
    assert (filter (λ p, Js.Int (Post.userid p) = Js.parseInt id)
              (filter (λ p, Js.strict_ne (Js.Int (Post.userid p)) (Js.parseInt id)
                            = true) (allPostsCache s)) = []) as ->; [|done].
    apply elem_of_nil_inv. intros p [Hp1 Hp2]%list_elem_of_filter.
    apply list_elem_of_filter in Hp2 as [Hp2 _].
    by apply strict_ne_owner in Hp2.
  - intros j Hne. split; [done|]. intros HQ id' Hj.
    assert (Hother : Js.parseInt id' ≠ Js.parseInt id).
    { intros Heq. apply Hne.
      apply (NoDup_lookup (Js.parseInt <$> ids) j i (Js.parseInt id) Hdistinct).
      - rewrite list_lookup_fmap, Hj. simpl. by rewrite Heq.
      - by rewrite list_lookup_fmap, Hi. }
    destruct (HQ id' Hj) as [Hfilter Hcache]. split.
    + change (stamp (clock e (ticks w + i)) <$> posts id)
        with (fetchedAt e posts (ticks w) i id).
      rewrite filter_app, list_filter_filter_l, Hfilter.
      * assert (filter (λ p, Js.Int (Post.userid p) = Js.parseInt id')
                  (fetchedAt e posts (ticks w) i id) = []) as ->;
          [|by rewrite app_nil_r].
        apply elem_of_nil_inv. intros p [Hp1 Hp2]%list_elem_of_filter.
        apply Hother. by rewrite <- Hp1, (fetchedAt_owner i id p Hid Hp2).
      * intros p Hp. apply strict_ne_owner. by rewrite Hp.
    + by rewrite lookup_insert_ne.
Qed.

Lemma ensureAllPosts_cold :
  allPostsCache (svc w) = [] →
  (∀ id, id ∈ ids → postsCache (svc w) !! Js.parseInt id = None) →
  ∃ w2,
    ensureAllPosts ids e w = (Ok (), w2) ∧
    log w2 = log w ++ (GetUserPosts <$> ids) ∧
    allPostsCache (svc w2) ≡ₚ concat (imap (fetchedAt e posts (ticks w)) ids) ∧
    mergedByOwner e posts (ticks w) ids (allPostsCache (svc w2)) ∧
    ∀ i id, ids !! i = Some id →
      postsCache (svc w2) !! Js.parseInt id
      = Some (fetchedAt e posts (ticks w) i id).
Proof.
  intros Hempty Hnone.
  destruct (startAll_cold ids w Hnone Hanswered)
    as (slots0 & w1 & Hstart & Hsvc & Hlog & Hlen & Hslots).
  destruct (promiseAll_inv I P Q _ _ _ _ _ _ _ Hstart)
    as (rs & s' & u & Hrun & HI & HQ).
  - intros i req k σ Hk HIσ _.
    assert (is_Some (ids !! i)) as [id Hi].
    { apply lookup_lt_is_Some. rewrite <- Hlen. by eapply lookup_lt_Some. }
    rewrite (Hslots i id Hi) in Hk. injection Hk as <- <-.
    destruct (cold_step i id σ Hi HIσ) as (σ' & Heq & HI' & HQ' & Hrest).
    exists (fetchedAt e posts (ticks w) i id), σ'.
    split; [exact Heq|]. split; [exact HI'|]. split; [exact HQ'|exact Hrest].
  - split; [|split; [done|]].
    + intros p. simpl. rewrite Hsvc, Hempty. by intros ?%elem_of_nil.
    + intros i st Hi.
      assert (is_Some (ids !! i)) as [id Hid].
      { apply lookup_lt_is_Some. rewrite <- Hlen. by eapply lookup_lt_Some. }
      rewrite (Hslots i id Hid) in Hi. injection Hi as <-.
      split; [by apply Hslots|exact Logic.I].
  - exists (withSvc s' w1). unfold ensureAllPosts.
    rewrite bool_decide_eq_true_2 by (by rewrite Hempty). rewrite Hrun.
    split; [done|]. split; [done|]. unfold I, Q in *. simpl in *. split.
    + etrans; [apply (partition_by_key (λ p, Js.Int (Post.userid p))
                        (Js.parseInt <$> ids) _ Hdistinct HI)|].
      assert ((λ k, filter (λ p, Js.Int (Post.userid p) = k) (allPostsCache s'))
                <$> (Js.parseInt <$> ids)
              = imap (fetchedAt e posts (ticks w)) ids) as ->; [|done].
      apply list_eq. intros i.
      rewrite <- list_fmap_compose, list_lookup_fmap, list_lookup_imap.
      destruct (ids !! i) as [id|] eqn:Hi; [|done]. simpl. f_equal.
      apply (HQ i); [|done]. rewrite Hlen. by eapply lookup_lt_Some.
    + split; [split; [exact HI|]|].
      * intros i id Hi. apply (HQ i); [|done]. rewrite Hlen.
        by eapply lookup_lt_Some.
      * intros i id Hi. apply (HQ i); [|done]. rewrite Hlen.
        by eapply lookup_lt_Some.
Qed.
End ColdStart.

(** X22. The first aggregation of posts on a cold cache.  When the
    merged view is empty, no user of the directory has cached posts,
    the ids of the directory parse to distinct numbers, and the server
    answers for every user with posts that carry this number as their
    owner, then every user is requested once, in the order of the
    directory, and the merged view becomes the posts of all the users,
    each stamped with the clock reading of its request, in an order
    that is left to the arrival of the answers; [getLatestPosts]
    returns the first [limit] of them by descending timestamp. *)
Theorem X22_cold_start_merges_the_posts_of_every_user
    (e : Env) (w w1 : World) (users : Directory.t)
    (posts : string → list Post.t) :
  getUsers e w = (Ok users, w1) →
  allPostsCache (svc w) = [] →
  (∀ id, id ∈ Directory.keys users → postsCache (svc w) !! Js.parseInt id = None) →
  NoDup (Js.parseInt <$> Directory.keys users) →
  (∀ id, id ∈ Directory.keys users → answered e id (posts id)) →
  (∀ id p, id ∈ Directory.keys users → p ∈ posts id →
           Js.Int (Post.userid p) = Js.parseInt id) →
  ∃ w2,
    log w2 = log w1 ++ (GetUserPosts <$> Directory.keys users) ∧
    allPostsCache (svc w2)
    ≡ₚ concat (imap (fetchedAt e posts (ticks w1)) (Directory.keys users)) ∧
    (∀ i id, Directory.keys users !! i = Some id →
       postsCache (svc w2) !! Js.parseInt id
       = Some (fetchedAt e posts (ticks w1) i id)) ∧
    ∀ limit,
      getLatestPosts limit e w
      = (Ok (Js.slice (Js.sortDesc timestampKey (allPostsCache (svc w2)))
                      (Js.Int 0) limit), w2).
Proof.
  intros Hget Hempty Hnone Hdistinct Hanswered Howner.
  destruct (getUsers_counts e w _ _ Hget) as (_ & Hcache & Hmerged).
  destruct (ensureAllPosts_cold e (Directory.keys users) posts w1
              Hdistinct Hanswered Howner)
    as (w2 & Hensure & Hlog & Hperm & _ & Hposts).
  { by rewrite Hmerged. }
  { intros id Hid. rewrite Hcache. by apply Hnone. }
  exists w2. split; [done|]. split; [done|]. split; [done|].
  intros limit. by apply (getLatestPosts_ok limit e w users w1).
Qed.

Lemma X22_witness :
  ∃ w2,
    log w2
    = log (getUsers sampleEnv start).2 ++ (GetUserPosts <$> ["1"; "2"; "3"]) ∧
    allPostsCache (svc w2)
    ≡ₚ concat (imap (fetchedAt sampleEnv samplePosts
                       (ticks (getUsers sampleEnv start).2)) ["1"; "2"; "3"]) ∧
    getLatestPosts (Js.Int 2) sampleEnv start
    = (Ok (Js.slice (Js.sortDesc timestampKey (allPostsCache (svc w2)))
                    (Js.Int 0) (Js.Int 2)), w2).
Proof.
  destruct (X22_cold_start_merges_the_posts_of_every_user sampleEnv start
              (getUsers sampleEnv start).2
              [("1", "Alice"); ("2", "Bob"); ("3", "Carol")] samplePosts)
    as (w2 & Hlog & Hperm & _ & Hlatest).
  - reflexivity.
  - reflexivity.
  - intros id _. reflexivity.
  - apply (bool_decide_unpack _). vm_compute. exact Logic.I.
  - intros id _ n. reflexivity.
  - intros id p Hid. revert p. apply Forall_forall. revert id Hid.
    apply Forall_forall. apply (bool_decide_unpack _). vm_compute. exact Logic.I.
  - exists w2. split; [exact Hlog|]. split; [exact Hperm|]. apply Hlatest.
Defined.

(** ** The order of arrival and the latest posts *)

Lemma sorted_by_key_unique {A} (key : A → Z) : ∀ l1 l2 : list A,
  StronglySorted (descending key) l1 →
  StronglySorted (descending key) l2 →
  (∀ k, filter (λ a, key a = k) l1 = filter (λ a, key a = k) l2) →
  l1 = l2.
Proof.
  assert (Hhead : ∀ x l y l',
            StronglySorted (descending key) (y :: l') →
            filter (λ a, key a = key x) (x :: l)
            = filter (λ a, key a = key x) (y :: l') →
            key x ≤ key y).
  { intros x l y l' Hs Hf. apply StronglySorted_inv in Hs as [_ Hy].
    assert (x ∈ filter (λ a, key a = key x) (y :: l')) as Hx.
    { rewrite <- Hf, filter_cons_True by done. apply elem_of_cons. by left. }
    apply list_elem_of_filter in Hx as [_ Hx].
    apply elem_of_cons in Hx as [->|Hx]; [done|].
    by eapply Forall_forall in Hy. }
  induction l1 as [|x l1 IH]; intros l2 Hs1 Hs2 Hf.
  - destruct l2 as [|y l2]; [done|]. specialize (Hf (key y)).
    by rewrite filter_cons_True in Hf.
  - destruct l2 as [|y l2].
    { specialize (Hf (key x)). by rewrite filter_cons_True in Hf. }
    assert (Hkey : key y = key x).
    { pose proof (Hhead x l1 y l2 Hs2 (Hf (key x))).
      pose proof (Hhead y l2 x l1 Hs1 (eq_sym (Hf (key y)))). lia. }
    pose proof (Hf (key x)) as Hfx.
    rewrite filter_cons_True in Hfx by done.
    rewrite (filter_cons_True _ y) in Hfx by done.
    injection Hfx as -> Htail.
    apply StronglySorted_inv in Hs1 as [Hs1 _].
    apply StronglySorted_inv in Hs2 as [Hs2 _].
    f_equal. apply IH; [done..|]. intros k. specialize (Hf k).
    rewrite !filter_cons in Hf. by destruct (decide (key y = k)); simplify_eq.
Qed.

Section Arrival.
Context (e : Env) (posts : string → list Post.t) (t0 : nat) (ids : list string).
Hypothesis Hdistinct : NoDup (Js.parseInt <$> ids).
Hypothesis Hclock : ∀ i j,
  (i < length ids)%nat → (j < length ids)%nat →
  clock e (t0 + i) = clock e (t0 + j) → i = j.

Lemma mergedByOwner_timestamp merged p :
  mergedByOwner e posts t0 ids merged → p ∈ merged →
  ∃ i id, ids !! i = Some id ∧ Js.Int (Post.userid p) = Js.parseInt id ∧
          timestampKey p = clock e (t0 + i).
Proof.
  intros [Hown Hblock] Hp.
  destruct (proj1 (list_elem_of_fmap _ _ _) (Hown p Hp)) as (id & Hid & Hin).
  apply list_elem_of_lookup in Hin as [i Hi].
  exists i, id. split; [done|]. split; [done|].
  assert (p ∈ fetchedAt e posts t0 i id) as Hfetched.
  { rewrite <- (Hblock i id Hi). by apply list_elem_of_filter. }
  by apply list_elem_of_fmap in Hfetched as (q & -> & _).
Qed.

Lemma mergedByOwner_block merged i id :
  mergedByOwner e posts t0 ids merged → ids !! i = Some id →
  filter (λ p, timestampKey p = clock e (t0 + i)) merged = fetchedAt e posts t0 i id.
Proof.
  intros Hm Hi. rewrite <- (proj2 Hm i id Hi). apply filter_ext_in.
  intros p Hp.
  destruct (mergedByOwner_timestamp merged p Hm Hp) as (j & id' & Hj & Hown & Ht).
  rewrite Ht, Hown. split.
  - intros Heq. apply Hclock in Heq; [|by eapply lookup_lt_Some..].
    subst j. congruence.
  - intros Heq.
    assert (j = i) as ->; [|done].
    apply (NoDup_lookup (Js.parseInt <$> ids) j i (Js.parseInt id) Hdistinct).
    + rewrite list_lookup_fmap, Hj. simpl. by rewrite Heq.
    + by rewrite list_lookup_fmap, Hi.
Qed.

Lemma mergedByOwner_latest merged1 merged2 :
  mergedByOwner e posts t0 ids merged1 →
  mergedByOwner e posts t0 ids merged2 →
  Js.sortDesc timestampKey merged1 = Js.sortDesc timestampKey merged2.
Proof.
  intros Hm1 Hm2.
  apply (sorted_by_key_unique timestampKey); [apply sortDesc_strongly_sorted..|].
  intros t. rewrite !sortDesc_stable.
  destruct (decide (t ∈ imap (λ i (_ : string), clock e (t0 + i)) ids)) as [Hin|Hout].
  - apply elem_of_lookup_imap in Hin as (i & id & -> & Hi).
    by rewrite (mergedByOwner_block merged1 i id Hm1 Hi),
               (mergedByOwner_block merged2 i id Hm2 Hi).
  - assert (Hnone : ∀ merged, mergedByOwner e posts t0 ids merged →
                      filter (λ p, timestampKey p = t) merged = []).
    { intros merged Hm. apply elem_of_nil_inv.
      intros p [Ht Hp]%list_elem_of_filter.
      destruct (mergedByOwner_timestamp merged p Hm Hp) as (j & id' & Hj & _ & Hk).
      apply Hout. rewrite <- Ht, Hk.
      apply (elem_of_lookup_imap_2 (λ i (_ : string), clock e (t0 + i)) ids id' j Hj). }
    by rewrite (Hnone merged1 Hm1), (Hnone merged2 Hm2).
Qed.
End Arrival.

(** X23. On a cold cache, with a clock whose readings at the requests
    differ, the posts [getLatestPosts] returns do not depend on the
    order in which the answers of the server arrive. *)
Theorem X23_latest_posts_do_not_depend_on_the_arrival_order
    (e : Env) (w w1 : World) (users : Directory.t)
    (posts : string → list Post.t) :
  getUsers e w = (Ok users, w1) →
  allPostsCache (svc w) = [] →
  (∀ id, id ∈ Directory.keys users → postsCache (svc w) !! Js.parseInt id = None) →
  NoDup (Js.parseInt <$> Directory.keys users) →
  (∀ id, id ∈ Directory.keys users → answered e id (posts id)) →
  (∀ id p, id ∈ Directory.keys users → p ∈ posts id →
           Js.Int (Post.userid p) = Js.parseInt id) →
  (∀ i j, (i < length (Directory.keys users))%nat →
          (j < length (Directory.keys users))%nat →
          clock e (ticks w1 + i) = clock e (ticks w1 + j) → i = j) →
  ∀ arrival limit,
    (getLatestPosts limit (withSched arrival e) w).1
    = (getLatestPosts limit e w).1.
Proof.
  intros Hget Hempty Hnone Hdistinct Hanswered Howner Hclock arrival limit.
  destruct (getUsers_counts e w _ _ Hget) as (_ & Hcache & Hmerged).
  assert (Hcold : ∀ e',
            clock e' = clock e → postsEndpoint e' = postsEndpoint e →
            ∃ w2, ensureAllPosts (Directory.keys users) e' w1 = (Ok (), w2) ∧
                  mergedByOwner e posts (ticks w1) (Directory.keys users)
                                (allPostsCache (svc w2))).
  { intros e' Hc Hp.
    destruct (ensureAllPosts_cold e' (Directory.keys users) posts w1 Hdistinct)
      as (w2 & Hensure & _ & _ & Hby & _).
    - intros id Hid n. rewrite Hp. by apply Hanswered.
    - done.
    - by rewrite Hmerged.
    - intros id Hid. rewrite Hcache. by apply Hnone.
    - exists w2. split; [done|]. unfold mergedByOwner, fetchedAt in *.
      by rewrite Hc in Hby. }
  destruct (Hcold e eq_refl eq_refl) as (w2 & Hensure & Hby).
  destruct (Hcold (withSched arrival e) eq_refl eq_refl) as (w2' & Hensure' & Hby').
  rewrite (getLatestPosts_ok limit e w users w1 w2 Hget Hensure).
  rewrite (getLatestPosts_ok limit (withSched arrival e) w users w1 w2' Hget Hensure').
  simpl. do 2 f_equal.
  by apply (mergedByOwner_latest e posts (ticks w1) (Directory.keys users)).
Qed.

Lemma X23_witness :
  (getLatestPosts (Js.Int 2) (withSched (λ _, [1; 0]%nat) sampleEnv) start).1
  = (getLatestPosts (Js.Int 2) sampleEnv start).1.
Proof.
  apply (X23_latest_posts_do_not_depend_on_the_arrival_order sampleEnv start
           (getUsers sampleEnv start).2
           [("1", "Alice"); ("2", "Bob"); ("3", "Carol")] samplePosts).
  - reflexivity.
  - reflexivity.
  - intros id _. reflexivity.
  - apply (bool_decide_unpack _). vm_compute. exact Logic.I.
  - intros id _ n. reflexivity.
  - intros id p Hid. revert p. apply Forall_forall. revert id Hid.
    apply Forall_forall. apply (bool_decide_unpack _). vm_compute. exact Logic.I.
  - intros i j _ _ Heq. simpl in Heq. lia.
Defined.

(** ** Which requests the aggregations send *)

Section Sends.
Context (I : DataService → Prop) (R : Request → Prop).

Lemma startAll_sends {L A} (tasks : list (Task L A)) e : ∀ w l,
  Forall (tame I) tasks → Forall (sends I R) tasks → I (svc w) →
  ∃ reqs, log (startAll tasks e w l).1.2 = log w ++ reqs ∧ Forall R reqs.
Proof.
  induction tasks as [|t tasks IH]; intros w l Htame Hsends Hs; simpl.
  { exists []. by rewrite app_nil_r. }
  apply Forall_cons in Htame as [Ht Htame].
  apply Forall_cons in Hsends as [Hst Hsends].
  destruct (Ht e w l) as (Hsvc & _ & _).
  destruct (Hst e w l Hs) as (reqs & Hlog & HR).
  destruct (t e w l) as [[st w1] l1]. simpl in *.
  destruct (IH w1 l1 Htame Hsends) as (reqs' & Hlog' & HR'); [by rewrite Hsvc|].
  destruct (startAll tasks e w1 l1) as [[sts w2] l2]. simpl in *.
  exists (reqs ++ reqs'). rewrite Hlog', Hlog, app_assoc. split; [done|].
  by apply Forall_app.
Qed.

Lemma promiseAll_sends {L A} (tasks : list (Task L A)) e w l :
  Forall (tame I) tasks → Forall (sends I R) tasks → I (svc w) →
  ∃ reqs, log (promiseAll tasks e w l).1.2 = log w ++ reqs ∧ Forall R reqs.
Proof.
  intros Htame Hsends Hs.
  destruct (startAll_sends tasks e w l Htame Hsends Hs) as (reqs & Hlog & HR).
  exists reqs. split; [|done]. rewrite <- Hlog.
  destruct (promiseAll tasks e w l) as [[r w2] l2] eqn:Hrun. simpl.
  by eapply promiseAll_log.
Qed.

Lemma sends_countPosts id : R (GetUserPosts id) → sends I R (countPosts id).
Proof.
  intros HR e w l _. unfold countPosts, getUserPosts_start, dateNow. simpl.
  destruct (_ && _); simpl.
  - exists []. by rewrite app_nil_r.
  - exists [GetUserPosts id]. split; [done|]. by repeat constructor.
Qed.

Lemma sends_getUserPosts id :
  R (GetUserPosts id) → sends I R (plain (getUserPosts_start id)).
Proof.
  intros HR e w l _. unfold plain, getUserPosts_start, dateNow. simpl.
  destruct (_ && _); simpl.
  - exists []. by rewrite app_nil_r.
  - exists [GetUserPosts id]. split; [done|]. by repeat constructor.
Qed.

Lemma sends_countComments post :
  (∀ s, I s → postCommentCountCache s !! Post.id post = None →
        R (GetPostComments (Post.id post))) →
  sends I R (countComments post).
Proof.
  intros HR e w l Hs. unfold countComments.
  destruct (has (postCommentCountCache (svc w)) (Post.id post)) eqn:Hhas; simpl.
  { exists []. by rewrite app_nil_r. }
  unfold getPostComments_start, dateNow. simpl.
  destruct (_ && _); simpl.
  - exists []. by rewrite app_nil_r.
  - exists [GetPostComments (Post.id post)]. split; [done|].
    apply has_false in Hhas. repeat constructor. by eapply HR.
Qed.
End Sends.

Lemma getUsers_sends e w :
  ∃ reqs, log (getUsers e w).2 = log w ++ reqs ∧ Forall (λ r, r = GetUsers) reqs.
Proof.
  unfold getUsers, getUsers_start, dateNow. simpl. destruct (_ && _); simpl.
  - exists []. by rewrite app_nil_r.
  - destruct (getUsers_resume _ _ (svc w)). exists [GetUsers]. simpl.
    split; [done|]. by repeat constructor.
Qed.

Lemma collectPostCounts_sends userIds e w :
  ∃ reqs,
    log (collectPostCounts userIds e w).2 = log w ++ reqs ∧
    Forall (λ r, ∃ id, r = GetUserPosts id ∧ id ∈ userIds
                       ∧ userPostCountCache (svc w) !! id = None) reqs.
Proof.
  unfold collectPostCounts. case_bool_decide as Hsize.
  - set (missing := filter _ userIds).
    destruct (promiseAll_sends (λ _, True)
                (λ r, ∃ id, r = GetUserPosts id ∧ id ∈ userIds
                            ∧ userPostCountCache (svc w) !! id = None)
                (countPosts <$> missing) e w ∅) as (reqs & Hlog & HR); [| |done|].
    { apply Forall_fmap, Forall_forall. intros id _. by apply tame_countPosts. }
    { apply Forall_fmap, Forall_forall. intros id Hid. apply sends_countPosts.
      apply list_elem_of_filter in Hid as [Hno Hid]. apply has_false in Hno.
      by exists id. }
    destruct (promiseAll _ e w ∅) as [[[rs|m] w2] pc]; by exists reqs.
  - destruct (promiseAll_sends (λ _, True)
                (λ r, ∃ id, r = GetUserPosts id ∧ id ∈ userIds
                            ∧ userPostCountCache (svc w) !! id = None)
                (countPosts <$> userIds) e w ∅) as (reqs & Hlog & HR); [| |done|].
    { apply Forall_fmap, Forall_forall. intros id _. by apply tame_countPosts. }
    { apply Forall_fmap, Forall_forall. intros id Hid. apply sends_countPosts.
      exists id. split; [done|]. split; [done|].
      assert (userPostCountCache (svc w) = ∅) as ->; [|apply lookup_empty].
      apply map_size_empty_inv. lia. }
    destruct (promiseAll _ e w ∅) as [[[rs|m] w2] pc]; by exists reqs.
Qed.

Lemma ensureAllPosts_sends userIds e w :
  ∃ reqs,
    log (ensureAllPosts userIds e w).2 = log w ++ reqs ∧
    Forall (λ r, ∃ id, r = GetUserPosts id ∧ id ∈ userIds
                       ∧ allPostsCache (svc w) = []) reqs.
Proof.
  unfold ensureAllPosts. case_bool_decide as Hempty.
  - apply nil_length_inv in Hempty.
    destruct (promiseAll_sends (λ _, True)
                (λ r, ∃ id, r = GetUserPosts id ∧ id ∈ userIds
                            ∧ allPostsCache (svc w) = [])
                (plain ∘ getUserPosts_start <$> userIds) e w ())
      as (reqs & Hlog & HR); [| |done|].
    { apply Forall_fmap, Forall_forall. intros id _. by apply tame_getUserPosts. }
    { apply Forall_fmap, Forall_forall. intros id Hid.
      apply sends_getUserPosts. by exists id. }
    destruct (promiseAll _ e w ()) as [[[rs|m] w2] u]; by exists reqs.
  - exists []. simpl. by rewrite app_nil_r.
Qed.

Lemma batches_sends s0 allPosts e : ∀ fuel i w counts,
  keysKept (postCommentCountCache s0) (postCommentCountCache (svc w)) →
  ∃ reqs,
    log (batches fuel i allPosts e w counts).1.2 = log w ++ reqs ∧
    Forall (λ r, ∃ p, r = GetPostComments (Post.id p) ∧ p ∈ allPosts
                      ∧ postCommentCountCache s0 !! Post.id p = None) reqs.
Proof.
  induction fuel as [|fuel IH]; intros i w counts Hkept; simpl.
  { exists []. by rewrite app_nil_r. }
  case_bool_decide; [|exists []; by rewrite app_nil_r].
  rewrite slice_range.
  assert (Hclosed : closedComments
            (λ s, keysKept (postCommentCountCache s0) (postCommentCountCache s))).
  { intros postId comments t s Hs. by apply keysKept_insert. }
  assert (Htame : Forall (tame (λ s, keysKept (postCommentCountCache s0)
                                             (postCommentCountCache s)))
                    (countComments <$> take batchSize (drop i allPosts))).
  { apply Forall_fmap, Forall_forall. intros p _. by apply tame_countComments. }
  destruct (promiseAll_sends _
              (λ r, ∃ p, r = GetPostComments (Post.id p) ∧ p ∈ allPosts
                         ∧ postCommentCountCache s0 !! Post.id p = None)
              _ e w counts Htame) as (reqs & Hlog & HR); [|done|].
  { apply Forall_fmap, Forall_forall. intros p Hp. apply sends_countComments.
    intros s Hs Hnone. exists p. split; [done|]. split.
    - eapply elem_of_sublist; [eapply elem_of_sublist; [exact Hp|apply sublist_take]|].
      apply sublist_drop.
    - destruct (postCommentCountCache s0 !! Post.id p) eqn:Hc; [|done].
      destruct (Hs (Post.id p)) as [c Hc']; [by eexists|]. congruence. }
  destruct (promiseAll_tame _ _ e w counts Htame Hkept) as (Hkept' & _).
  destruct (promiseAll _ e w counts) as [[[rs|m] w2] counts2]; simpl in *.
  - destruct (IH (i + batchSize)%nat w2 counts2 Hkept') as (reqs' & Hlog' & HR').
    exists (reqs ++ reqs'). rewrite Hlog', Hlog, app_assoc. split; [done|].
    by apply Forall_app.
  - by exists reqs.
Qed.

Lemma popularAmong_sends e w :
  ∃ reqs,
    log (popularAmong e w).2 = log w ++ reqs ∧
    Forall (λ r, ∃ p, r = GetPostComments (Post.id p) ∧ p ∈ allPostsCache (svc w)
                      ∧ postCommentCountCache (svc w) !! Post.id p = None) reqs.
Proof.
  unfold popularAmong. cbv zeta.
  destruct (batches_sends (svc w) (allPostsCache (svc w)) e
              (length (allPostsCache (svc w))) 0 w ∅) as (reqs & Hlog & HR);
    [by intros k Hk|].
  destruct (batches _ 0 _ e w ∅) as [[[u|m] w2] counts]; by exists reqs.
Qed.

(** X24. Which requests the aggregations send, whether they return or
    throw.  [getTopUsers] requests only the directory and the posts of
    users of the directory that had no cached count when it was called.
    [getLatestPosts] requests only the directory and, if the merged view
    was empty when it was called, the posts of users of the directory.
    [getPopularPosts] requests in addition only the comments of posts
    of the merged view that had no cached count when it was called.
    None of them requests the list of all posts. *)
Theorem X24_requests_of_the_aggregations (e : Env) (w : World) :
  (∀ limit, ∃ reqs,
     log (getTopUsers limit e w).2 = log w ++ reqs ∧
     Forall (allowedRequest (usersCache (svc (getTopUsers limit e w).2)) []
               (λ id, userPostCountCache (svc w) !! id = None) (λ _, False))
            reqs) ∧
  (∀ limit, ∃ reqs,
     log (getLatestPosts limit e w).2 = log w ++ reqs ∧
     Forall (allowedRequest (usersCache (svc (getLatestPosts limit e w).2)) []
               (λ _, allPostsCache (svc w) = []) (λ _, False))
            reqs) ∧
  (∃ reqs,
     log (getPopularPosts e w).2 = log w ++ reqs ∧
     Forall (allowedRequest (usersCache (svc (getPopularPosts e w).2))
               (allPostsCache (svc (getPopularPosts e w).2))
               (λ _, allPostsCache (svc w) = [])
               (λ postId, postCommentCountCache (svc w) !! postId = None))
            reqs).
Proof.
  destruct (getUsers_sends e w) as (reqs1 & Hlog1 & HR1).
  assert (Hdirectory : ∀ users merged forPosts forComments,
            Forall (allowedRequest users merged forPosts forComments) reqs1).
  { intros. eapply Forall_impl; [exact HR1|]. by intros r ->. }
  split; [|split].
  - intros limit. unfold getTopUsers.
    destruct (getUsers e w) as [[users|m] w1] eqn:Hget; simpl in *;
      [|exists reqs1; by split].
    destruct (getUsers_counts e w _ _ Hget) as (Hcounts & _ & _).
    apply getUsers_returns in Hget.
    destruct (collectPostCounts_keeps (λ s, usersCache s = users)
                (Directory.keys users) e w1) as (Hdir & _); [|done|].
    { by intros userId posts t s ?. }
    destruct (collectPostCounts_sends (Directory.keys users) e w1)
      as (reqs2 & Hlog2 & HR2).
    assert (Hall : Forall (allowedRequest users []
                             (λ id, userPostCountCache (svc w) !! id = None)
                             (λ _, False)) (reqs1 ++ reqs2)).
    { apply Forall_app. split; [done|]. eapply Forall_impl; [exact HR2|].
      intros r (id & -> & Hid & Hnone). simpl. by rewrite <- Hcounts. }
    destruct (collectPostCounts _ e w1) as [[pc|m] w2]; simpl in *;
      (exists (reqs1 ++ reqs2); rewrite Hlog2, Hlog1, app_assoc, Hdir; by split).
  - intros limit. unfold getLatestPosts.
    destruct (getUsers e w) as [[users|m] w1] eqn:Hget; simpl in *;
      [|exists reqs1; by split].
    destruct (getUsers_counts e w _ _ Hget) as (_ & _ & Hmerged).
    apply getUsers_returns in Hget.
    destruct (ensureAllPosts_keeps (λ s, usersCache s = users)
                (Directory.keys users) e w1) as (Hdir & _); [|done|].
    { by intros userId posts t s ?. }
    destruct (ensureAllPosts_sends (Directory.keys users) e w1)
      as (reqs2 & Hlog2 & HR2).
    assert (Hall : Forall (allowedRequest users []
                             (λ _, allPostsCache (svc w) = []) (λ _, False))
                          (reqs1 ++ reqs2)).
    { apply Forall_app. split; [done|]. eapply Forall_impl; [exact HR2|].
      intros r (id & -> & Hid & Hempty). simpl. by rewrite <- Hmerged. }
    destruct (ensureAllPosts _ e w1) as [[u|m] w2]; simpl in *;
      (exists (reqs1 ++ reqs2); rewrite Hlog2, Hlog1, app_assoc, Hdir; by split).
  - unfold getPopularPosts.
    destruct (getUsers e w) as [[users|m] w1] eqn:Hget; simpl in *;
      [|exists reqs1; by split].
    destruct (getUsers_counts e w _ _ Hget) as (_ & _ & Hmerged).
    assert (Hcomments : postCommentCountCache (svc w1) = postCommentCountCache (svc w)).
    { destruct (getUsers_frame e w _ _ Hget) as [-> | (us & t & ->)]; done. }
    apply getUsers_returns in Hget.
    destruct (ensureAllPosts_keeps
                (λ s, usersCache s = users
                      ∧ postCommentCountCache s = postCommentCountCache (svc w))
                (Directory.keys users) e w1) as ((Hdir & Hcomments2) & _); [|done|].
    { by intros userId posts t s [? ?]. }
    destruct (ensureAllPosts_sends (Directory.keys users) e w1)
      as (reqs2 & Hlog2 & HR2).
    assert (Hposts : ∀ merged forComments,
              Forall (allowedRequest users merged
                        (λ _, allPostsCache (svc w) = []) forComments) reqs2).
    { intros. eapply Forall_impl; [exact HR2|].
      intros r (id & -> & Hid & Hempty). simpl. by rewrite <- Hmerged. }
    destruct (ensureAllPosts _ e w1) as [[u|m] w2]; simpl in *.
    + destruct (popularAmong_keeps
                  (λ s, usersCache s = users
                        ∧ allPostsCache s = allPostsCache (svc w2)) e w2)
        as ((Hdir3 & Hmerged3) & _); [|done|].
      { by intros postId comments t s [? ?]. }
      destruct (popularAmong_sends e w2) as (reqs3 & Hlog3 & HR3).
      assert (Hall : Forall (allowedRequest users (allPostsCache (svc w2))
                               (λ _, allPostsCache (svc w) = [])
                               (λ postId, postCommentCountCache (svc w) !! postId
                                          = None))
                            (reqs1 ++ reqs2 ++ reqs3)).
      { apply Forall_app. split; [done|]. apply Forall_app. split; [done|].
        eapply Forall_impl; [exact HR3|].
        intros r (p & -> & Hp & Hnone). simpl. split.
        - by apply list_elem_of_fmap_2.
        - by rewrite <- Hcomments2. }
      destruct (popularAmong e w2) as [[[counts popular]|m] w3]; simpl in *;
        (exists (reqs1 ++ reqs2 ++ reqs3);
         rewrite Hlog3, Hlog2, Hlog1, !app_assoc, Hdir3, Hmerged3;
         split; [done|]; by rewrite <- app_assoc).
    + exists (reqs1 ++ reqs2). rewrite Hlog2, Hlog1, app_assoc, Hdir.
      split; [done|]. apply Forall_app. by split.
Qed.
